(** * saydo2: the command resolution pipeline

    A shallow embedding of the Python sources
    - [utils/chat_resolver.py] (text normalizer, alias map, resolver),
    - [agent.py] (rule cascade [parse_command], [hs_call], [execute_command]),
    - [parsers/telegram_parser.py], [core/executor.py],
      [actions/telegram_actions.py], [drivers/telegram.py],
    - [ocr_find_chat.py] (three-tier line matcher),
    followed by the properties of the specification, proved or refuted on it.

    Python [str] values are lists of Unicode code points.  The identifiers
    of the program (dictionary keys, intent and command names, regex group
    names) are ASCII and are kept as [string]. *)

From Stdlib Require Import QArith Ascii String.
From stdpp Require Import gmap strings list fin_maps pretty.

Local Open Scope string_scope.
Local Open Scope N_scope.
Local Open Scope list_scope.

(** ** Unicode strings *)

Abbreviation ustr := (list N).

(** UTF-8 decoding of a source literal, so that the literals below read as
    they do in the Python files. *)
Fixpoint utf8_decode (bs : list N) : ustr :=
  match bs with
  | [] => []
  | b :: r =>
      if b <? 128 then b :: utf8_decode r
      else if b <? 224 then
        match r with
        | c :: r' => ((b - 192) * 64 + (c - 128)) :: utf8_decode r'
        | _ => []
        end
      else if b <? 240 then
        match r with
        | c :: d :: r' =>
            ((b - 224) * 4096 + (c - 128) * 64 + (d - 128)) :: utf8_decode r'
        | _ => []
        end
      else
        match r with
        | c :: d :: e :: r' =>
            ((b - 240) * 262144 + (c - 128) * 4096 + (d - 128) * 64 + (e - 128))
              :: utf8_decode r'
        | _ => []
        end
  end.

Fixpoint bytes_of (s : string) : list N :=
  match s with
  | EmptyString => []
  | String a r => N_of_ascii a :: bytes_of r
  end.

Definition U (s : string) : ustr := utf8_decode (bytes_of s).

(** [str.isspace] for one code point: the set used by [str.strip],
    [str.split] and by [\s] in a [str] pattern. *)
Definition is_space (c : N) : bool :=
  ((9 <=? c) && (c <=? 13)) || ((28 <=? c) && (c <=? 32))
  || (c =? 133) || (c =? 160) || (c =? 5760)
  || ((8192 <=? c) && (c <=? 8202))
  || (c =? 8232) || (c =? 8233) || (c =? 8239) || (c =? 8287) || (c =? 12288).

Fixpoint lstrip (s : ustr) : ustr :=
  match s with
  | [] => []
  | c :: r => if is_space c then lstrip r else s
  end.

Fixpoint rstrip (s : ustr) : ustr :=
  match s with
  | [] => []
  | c :: r =>
      match rstrip r with
      | [] => if is_space c then [] else [c]
      | r' => c :: r'
      end
  end.

(** [s.strip()] *)
Definition strip (s : ustr) : ustr := rstrip (lstrip s).

(** [s.replace(old, new)] for a non-empty [old]: leftmost, non-overlapping
    occurrences.  [skip] counts the characters of an occurrence still to be
    dropped. *)
Fixpoint is_prefix (p s : ustr) : bool :=
  match p, s with
  | [], _ => true
  | a :: p', b :: s' => (a =? b) && is_prefix p' s'
  | _ :: _, [] => false
  end.

Fixpoint replace_go (old new : ustr) (skip : nat) (s : ustr) : ustr :=
  match s with
  | [] => []
  | c :: r =>
      match skip with
      | S k => replace_go old new k r
      | O =>
          if is_prefix old s
          then new ++ replace_go old new (Nat.pred (length old)) r
          else c :: replace_go old new O r
      end
  end.

Definition str_replace (old new s : ustr) : ustr := replace_go old new O s.

(** Every maximal run of whitespace becomes one space; [in_run] tells that
    the previous character was whitespace.  This is what
    [re.sub(r"\s+", " ", s)] computes (lemma [re_sub_ws1] below). *)
Fixpoint collapse_go (in_run : bool) (s : ustr) : ustr :=
  match s with
  | [] => []
  | c :: r =>
      if is_space c
      then (if in_run then collapse_go true r else 32 :: collapse_go true r)
      else c :: collapse_go false r
  end.

Definition collapse_ws (s : ustr) : ustr := collapse_go false s.

(** The case tables of the Python runtime are not part of the repository.
    [str_lower] is [str.lower()]; [ci_eq a b] tells whether the regex
    engine, under [re.IGNORECASE], lets pattern character [a] match text
    character [b]. *)
Class CaseOps := {
  str_lower : ustr -> ustr;
  ci_eq : N -> N -> bool
}.

(** What the normalizer needs of [str.lower()]: its output consists of
    characters that lowercasing leaves alone, a string of such characters
    is unchanged, whitespace and the letter U+0435 are among them, as are
    U+2013 and U+00B5, the pair that agent.py writes, and a trimmed string
    stays trimmed. *)
Definition lower_fixed `{CaseOps} (c : N) : Prop := str_lower [c] = [c].

Class CaseLaws `{CaseOps} : Prop := {
  lower_out : forall s, Forall lower_fixed (str_lower s);
  lower_id : forall s, Forall lower_fixed s -> str_lower s = s;
  lower_space : forall c, is_space c = true -> lower_fixed c;
  lower_ie : lower_fixed 1077;
  lower_dash : lower_fixed 8211;
  lower_micro : lower_fixed 181;
  lower_trim : forall s, strip s = s -> strip (str_lower s) = str_lower s
}.

(** The case mapping on Basic Latin, Latin-1, the Greek capitals and the
    Cyrillic block; other code points are left alone.  It is the instance
    the scenarios are evaluated with. *)
Definition lower_cp (c : N) : N :=
  if (65 <=? c) && (c <=? 90) then c + 32
  else if (192 <=? c) && (c <=? 222) && negb (c =? 215) then c + 32
  else if (913 <=? c) && (c <=? 939) && negb (c =? 930) then c + 32
  else if (1040 <=? c) && (c <=? 1071) then c + 32
  else if (1024 <=? c) && (c <=? 1039) then c + 80
  else c.

#[global] Instance cyrillic_case : CaseOps := {|
  str_lower := map lower_cp;
  ci_eq a b := lower_cp a =? lower_cp b
|}.



(** ** The fragment of Python's [re] the program uses

    Backtracking semantics as the list of all ways to match, in the order
    the engine tries them; the engine's answer is the head of that list.
    Repetition applies to one-character atoms only, which is all the
    patterns of the program need.  Unnamed groups are never read by the
    program and are not recorded. *)
Module Regex.

Inductive cclass :=
| CAny                 (* .   anything but a newline *)
| CSpace               (* \s *)
| CLit (c : N)         (* a literal character *)
| CSet (l : list N).   (* [...] *)

Inductive regex :=
| Eps
| Chr (k : cclass)
| Seq (r1 r2 : regex)
| Alt (r1 r2 : regex)
| Opt (r : regex)                              (* r? *)
| Rep (greedy : bool) (min : nat) (k : cclass) (* k*  k+  k+? *)
| Grp (name : string) (r : regex)              (* (?P<name>r) *)
| Bol                                          (* ^ *)
| Eol.                                         (* $ *)

Record mstate := MState {
  pos : nat;
  rest : ustr;
  caps : list (string * ustr)
}.

Section WithCase.
Context `{CaseOps}.

Definition chr_eq (icase : bool) (a c : N) : bool :=
  if icase then ci_eq a c else a =? c.

Definition cmatch (icase : bool) (k : cclass) (c : N) : bool :=
  match k with
  | CAny => negb (c =? 10)
  | CSpace => is_space c
  | CLit a => chr_eq icase a c
  | CSet l => existsb (fun a => chr_eq icase a c) l
  end.

(** The states after 0, 1, 2, ... repetitions of the atom [k]. *)
Fixpoint reps (icase : bool) (k : cclass) (p : nat) (s : ustr)
    (cs : list (string * ustr)) : list mstate :=
  MState p s cs ::
  match s with
  | c :: s' => if cmatch icase k c then reps icase k (S p) s' cs else []
  | [] => []
  end.

Fixpoint run (icase : bool) (r : regex) (st : mstate) : list mstate :=
  match r with
  | Eps => [st]
  | Chr k =>
      match rest st with
      | c :: s' =>
          if cmatch icase k c then [MState (S (pos st)) s' (caps st)] else []
      | [] => []
      end
  | Seq r1 r2 => flat_map (run icase r2) (run icase r1 st)
  | Alt r1 r2 => run icase r1 st ++ run icase r2 st
  | Opt r1 => run icase r1 st ++ [st]
  | Rep greedy min k =>
      let l := drop min (reps icase k (pos st) (rest st) (caps st)) in
      if greedy then reverse l else l
  | Grp name r1 =>
      map (fun st' =>
             MState (pos st') (rest st')
                    ((name, take (pos st' - pos st) (rest st)) :: caps st'))
          (run icase r1 st)
  | Bol => if Nat.eqb (pos st) 0 then [st] else []
  | Eol =>
      match rest st with
      | [] => [st]
      | [10] => [st]
      | _ => []
      end
  end.

(** A match object: its span and its groups. *)
Record rmatch := RMatch {
  m_start : nat;
  m_end : nat;
  m_caps : list (string * ustr)
}.

Fixpoint lookup_cap (name : string) (cs : list (string * ustr)) : option ustr :=
  match cs with
  | [] => None
  | (n, v) :: cs' => if String.eqb n name then Some v else lookup_cap name cs'
  end.

(** [m.group(name)] for a group that took part in the match. *)
Definition group (m : rmatch) (name : string) : ustr :=
  default [] (lookup_cap name (m_caps m)).

(** [re.search]: the first start position that has a match. *)
Fixpoint search_from (icase : bool) (r : regex) (p : nat) (s : ustr)
  : option rmatch :=
  match run icase r (MState p s []) with
  | st :: _ => Some (RMatch p (pos st) (caps st))
  | [] =>
      match s with
      | [] => None
      | _ :: s' => search_from icase r (S p) s'
      end
  end.

Definition re_search (icase : bool) (r : regex) (t : ustr) : option rmatch :=
  search_from icase r 0 t.

(** [re.sub(r, repl, s)] for a replacement without group references:
    scanning left to right, each match is replaced and the scan goes on
    behind it; after an empty match the next character is copied. *)
Fixpoint sub_go (icase : bool) (r : regex) (repl : ustr) (skip p : nat)
    (s : ustr) : ustr :=
  match skip with
  | S k =>
      match s with
      | [] => []
      | _ :: s' => sub_go icase r repl k (S p) s'
      end
  | O =>
      match run icase r (MState p s []) with
      | st :: _ =>
          match s with
          | [] => repl
          | c :: s' =>
              if Nat.eqb (pos st) p
              then repl ++ c :: sub_go icase r repl 0 (S p) s'
              else repl ++ sub_go icase r repl (pos st - p - 1) (S p) s'
          end
      | [] =>
          match s with
          | [] => []
          | c :: s' => c :: sub_go icase r repl 0 (S p) s'
          end
      end
  end.

Definition re_sub (icase : bool) (r : regex) (repl s : ustr) : ustr :=
  sub_go icase r repl 0 0 s.

End WithCase.

(** Pattern building blocks. *)
Definition lit (s : ustr) : regex :=
  foldr (fun c r => Seq (Chr (CLit c)) r) Eps s.
Definition L (s : string) : regex := lit (U s).
Definition cat (rs : list regex) : regex := foldr Seq Eps rs.
Definition ws1 : regex := Rep true 1 CSpace.        (* \s+ *)
Definition ws0 : regex := Rep true 0 CSpace.        (* \s* *)
Definition any1 : regex := Rep true 1 CAny.         (* .+  *)
Definition lazy1 : regex := Rep false 1 CAny.       (* .+? *)

End Regex.

Import Regex.

(** [str.split()] and [' '.join(words)]. *)
Fixpoint split_go (w : ustr) (s : ustr) : list ustr :=
  match s with
  | [] => match w with [] => [] | _ => [w] end
  | c :: r =>
      if is_space c
      then match w with [] => split_go [] r | _ => w :: split_go [] r end
      else split_go (w ++ [c]) r
  end.

Definition split_ws (s : ustr) : list ustr := split_go [] s.

Fixpoint join_sp (ws : list ustr) : ustr :=
  match ws with
  | [] => []
  | [w] => w
  | w :: ws' => w ++ 32 :: join_sp ws'
  end.

(** ** The automation daemon

    JSON values, the requests sent so far as the state, and Python
    exceptions as an outcome of their own. *)
#[local] Set Warnings "-register-all".
Inductive jval :=
| JNull
| JBool (b : bool)
| JInt (z : Z)
| JStr (s : ustr)
| JList (l : list jval)
| JDict (d : list (string * jval)).

(** [d.get(key)] on a dictionary kept in insertion order. *)
Fixpoint dict_get (key : string) (d : list (string * jval)) : option jval :=
  match d with
  | [] => None
  | (k, v) :: d' => if String.eqb k key then Some v else dict_get key d'
  end.

(** Truth value of a Python object. *)
Definition truthy (v : jval) : bool :=
  match v with
  | JNull => false
  | JBool b => b
  | JInt z => negb (z =? 0)%Z
  | JStr s => match s with [] => false | _ => true end
  | JList l => match l with [] => false | _ => true end
  | JDict d => match d with [] => false | _ => true end
  end.

(** What [SESSION.post] gives back: [r.status_code], [r.text], and
    [r.json()], which is [None] when decoding raises. *)
Record response := {
  status_code : Z;
  text : ustr;
  json : option jval
}.

Inductive post_result :=
| PostRaised (e : ustr)
| PostReturned (r : response).

Inductive outcome (A : Type) :=
| Ok (a : A)
| Raise (e : ustr).
Arguments Ok {A} a.
Arguments Raise {A} e.

(** A computation that talks to the daemon: from the requests sent so far
    to an outcome and the requests sent then. *)
Definition io (A : Type) : Type := list jval -> outcome A * list jval.

Definition io_ret {A} (a : A) : io A := fun tr => (Ok a, tr).
Definition io_bind {A B} (m : io A) (k : A -> io B) : io B :=
  fun tr =>
    match m tr with
    | (Ok a, tr') => k a tr'
    | (Raise e, tr') => (Raise e, tr')
    end.
Definition io_raise {A} (e : ustr) : io A := fun tr => (Raise e, tr).
(** [try: m  except Exception as e: h e] *)
Definition try_except {A} (m : io A) (h : ustr -> io A) : io A :=
  fun tr =>
    match m tr with
    | (Ok a, tr') => (Ok a, tr')
    | (Raise e, tr') => h e tr'
    end.

Notation "'let*' x ':=' m 'in' k" := (io_bind m (fun x => k))
  (at level 10, x name, m at level 100, k at level 200).

Section Daemon.
(** The daemon answers a request knowing the requests it got before. *)
Variable daemon : list jval -> jval -> post_result.
(** HAMMER_URL *)
Variable hammer_url : ustr.

Definition session_post (payload : jval) : io response :=
  fun tr =>
    (match daemon tr payload with
     | PostRaised e => Raise e
     | PostReturned r => Ok r
     end, tr ++ [payload]).

Definition response_json (r : response) : io jval :=
  match json r with
  | Some v => io_ret v
  | None => io_raise (U "JSONDecodeError")
  end.

Definition show_Z (z : Z) : ustr := U (pretty z).

(** The length [r.text[:5000]] cuts the reported body to. *)
Definition raw_limit : nat := 5000.

End Daemon.

(** ** utils/chat_resolver.py *)

(** One element of the ["tracked"] list of tracked_chats.json.  A key that
    is absent is [None]; ["aliases"] is read with
    [item.get("aliases", []) or []], which makes an absent key and [null]
    the same; ["result_index"] may be present with value [null]. *)
Record item := {
  item_canonical : option ustr;
  item_aliases : option (list ustr);
  item_result_index : option (option Z)
}.

Module ChatResolver.

Section WithCase.
Context `{CaseOps}.

Definition norm (s : ustr) : ustr :=
  let s := str_lower (strip s) in
  let s := str_replace [1105] [1077] s in
  re_sub false ws1 [32] s.

Definition resolve_chat (user_target : ustr) (alias_map : gmap ustr ustr)
  : option ustr :=
  let key := norm user_target in
  alias_map !! key.

Definition add_aliases (canonical : ustr) (aliases : list ustr)
    (alias_map : gmap ustr ustr) : gmap ustr ustr :=
  fold_left (fun m a => <[norm a := canonical]> m) aliases alias_map.

Definition build_step (acc : gmap ustr ustr * gmap ustr (option Z)) (it : item)
  : gmap ustr ustr * gmap ustr (option Z) :=
  let '(alias_map, result_index_map) := acc in
  let canonical := default [] (item_canonical it) in
  match canonical with
  | [] => acc
  | _ =>
      let alias_map := <[norm canonical := canonical]> alias_map in
      let result_index_map :=
        match item_result_index it with
        | Some ri => <[canonical := ri]> result_index_map
        | None => result_index_map
        end in
      let aliases := default [] (item_aliases it) in
      (add_aliases canonical aliases alias_map, result_index_map)
  end.

Definition build_alias_map (tracked : list item)
  : gmap ustr ustr * gmap ustr (option Z) :=
  fold_left build_step tracked (∅, ∅).

End WithCase.
End ChatResolver.

(** ** agent.py: the rule cascade

    Every literal of agent.py outside ASCII is stored as the Mac Roman
    reading of its UTF-8 bytes: the six letters of [напиши] are kept as the
    twelve characters [–Ω–∞–ø–∏—à–∏].  The literals below are the ones of
    the file, code point for code point, so the patterns accept that
    spelling of a command and not the Cyrillic one. *)
Module Agent.

(** What [parse_command] returns: [(intent, target, message)]. *)
Definition parsed : Type := option string * option ustr * option ustr.

(** (—Ç–µ–ª–µ–≥—Ä–∞(–º|–º–º–∞?)|telegram): the [?] applies to the last character. *)
Definition TG : regex :=
  Alt (Seq (L "—Ç–µ–ª–µ–≥—Ä–∞") (Alt (L "–º") (Seq (L "–º–º–") (Opt (L "∞")))))
      (L "telegram").

(** –æ—Ç–ø—Ä–∞–≤(—å|–∏) *)
Definition otprav : regex := Seq (L "–æ—Ç–ø—Ä–∞–≤") (Alt (L "—å") (L "–∏")).

Definition tgt : regex := Grp "target" lazy1.
Definition msg_tail : list regex := [Grp "msg" any1; ws0; Eol].

Definition rx_1 : regex :=
  cat [L "–æ—Ç–∫—Ä–æ–π"; ws1; L "—á–∞—Ç"; ws1; tgt; ws1; L "–∏"; ws1; L "–Ω–∞–ø–∏—à–∏"; ws1;
       Chr (CSet [172; 180; 34]); Grp "msg" lazy1; Chr (CSet [172; 170; 34]); ws0; Eol].
Definition rx_2 : regex :=
  cat ([L "–Ω–∞–ø–∏—à–∏"; ws1; L "–≤"; ws1; tgt; ws0; L ":"; ws0] ++ msg_tail).
Definition rx_3 : regex :=
  cat ([L "–Ω–∞–ø–∏—à–∏"; ws1; L "–≤"; ws1; L "—á–∞—Ç"; ws1; tgt; ws0; L ":"; ws0]
         ++ msg_tail).
Definition rx_4 : regex :=
  cat ([L "–Ω–∞–ø–∏—à–∏"; ws1; L "–≤"; ws1; tgt; ws1; L "—á—Ç–æ"; ws1] ++ msg_tail).
Definition rx_4a : regex :=
  cat ([L "–Ω–∞–ø–∏—à–∏"; ws1; tgt; ws1; L "—Å–æ–æ–±—â–µ–Ω–∏–µ"; ws1] ++ msg_tail).
Definition rx_5 : regex :=
  cat ([L "–Ω–∞–ø–∏—Å–∞"; Alt (L "—Ç—å") (Alt (L "—Ç—å—Å—è") (L "—Ç—å")); ws1; L "–≤"; ws1;
        L "—á–∞—Ç"; ws1; tgt; ws0; Opt (L ","); ws1; L "—á—Ç–æ"; ws1] ++ msg_tail).
Definition rx_5a : regex :=
  cat ([otprav; ws1; L "–≤"; ws1; TG; ws1; L "–≤"; ws1; tgt; ws1;
        L "—Å–æ–æ–±—â–µ–Ω–∏–µ"; ws1] ++ msg_tail).
Definition rx_5b : regex :=
  cat ([otprav; ws1; L "–≤"; ws1; TG; ws1; L "–≤"; ws1; L "—á–∞—Ç"; ws1; tgt; ws1;
        L "—Å–æ–æ–±—â–µ–Ω–∏–µ"; ws1] ++ msg_tail).
Definition rx_5c : regex :=
  cat ([otprav; ws1; L "–≤"; ws1; TG; ws1; tgt; ws1; L "—Å–æ–æ–±—â–µ–Ω–∏–µ"; ws1]
         ++ msg_tail).
Definition rx_5c1 : regex :=
  cat ([otprav; ws1; tgt; ws1; L "—Å–æ–æ–±—â–µ–Ω–∏–µ"; ws1] ++ msg_tail).
Definition rx_5c2 : regex :=
  cat ([otprav; ws1; tgt; ws1; L "–≤"; ws1; TG; ws1; L "—Å–æ–æ–±—â–µ–Ω–∏–µ"; ws1]
         ++ msg_tail).
Definition rx_words : regex :=
  cat [otprav; ws1; L "—Å–æ–æ–±—â–µ–Ω–∏–µ"; ws1; Grp "rest" any1; ws0; Eol].
Definition rx_5d : regex :=
  cat [otprav; ws1; L "–≤"; ws1; TG; ws1; tgt; ws0; Eol].
Definition rx_5f : regex :=
  cat ([otprav; ws1; L "–≤"; ws1; tgt; ws1; L "—Å–æ–æ–±—â–µ–Ω–∏–µ"; ws1] ++ msg_tail).
(** –±—É—Ñ–µ—Ä(–∞|–∞ –æ–±–º–µ–Ω–∞|–∞ –æ–±–º–µ–Ω–∞|–∞) *)
Definition bufer : regex :=
  Seq (L "–±—É—Ñ–µ—Ä")
      (Alt (L "–∞") (Alt (L "–∞ –æ–±–º–µ–Ω–∞") (Alt (L "–∞ –æ–±–º–µ–Ω–∞") (L "–∞")))).
Definition rx_6 : regex :=
  cat [otprav; ws1; L "–∏–∑"; ws1; bufer; ws1; L "–≤"; ws1; tgt; ws0; Eol].
Definition rx_7 : regex :=
  cat [otprav; ws1; L "–∏–∑"; ws1; bufer; ws1; L "–≤"; ws1; L "—á–∞—Ç"; ws1; tgt;
       ws0; Eol].
Definition vstav : regex := Seq (L "–≤—Å—Ç–∞–≤") (Alt (L "—å") (L "–∏")).
Definition rx_8 : regex := cat [vstav; ws1; L "–≤"; ws1; tgt; ws0; Eol].
Definition rx_9 : regex :=
  cat [vstav; ws1; L "–≤"; ws1; L "—á–∞—Ç"; ws1; tgt; ws0; Eol].

(** The patterns of the [re.sub] clean-ups of a captured target. *)
Definition rx_lead_v : regex := cat [Bol; L "–≤"; ws1].
Definition rx_lead_prep : regex :=
  cat [Bol; Alt (L "–≤") (Alt (L "–∫") (L "–∫–æ")); ws1].
Definition rx_trail_v_tg : regex := cat [ws1; L "–≤"; ws1; TG; ws0; Eol].
Definition rx_lead_tg : regex := cat [Bol; ws0; TG; ws1].
Definition rx_trail_tg : regex :=
  cat [ws1; Opt (Seq (L "–≤") ws1); TG; ws0; Eol].

Section WithCase.
Context `{CaseOps}.

Definition norm (s : ustr) : ustr :=
  let s := str_lower (strip s) in
  let s := str_replace [8212; 235] [8211; 181] s in
  re_sub false ws1 [32] s.

Definition add_aliases (canonical : ustr) (aliases : list ustr)
    (alias_map : gmap ustr ustr) : gmap ustr ustr :=
  fold_left (fun m a =>
               let a_n := norm a in
               match a_n with [] => m | _ => <[a_n := canonical]> m end)
            aliases alias_map.

Definition build_step (acc : gmap ustr ustr * gmap ustr (option Z)) (it : item)
  : gmap ustr ustr * gmap ustr (option Z) :=
  let '(alias_map, result_index_map) := acc in
  let canonical := default [] (item_canonical it) in
  match canonical with
  | [] => acc
  | _ =>
      let alias_map := <[norm canonical := canonical]> alias_map in
      let result_index_map :=
        match item_result_index it with
        | Some ri => <[canonical := ri]> result_index_map
        | None => result_index_map
        end in
      let aliases := default [] (item_aliases it) in
      (add_aliases canonical aliases alias_map, result_index_map)
  end.

Definition build_alias_map (tracked : list item)
  : gmap ustr ustr * gmap ustr (option Z) :=
  fold_left build_step tracked (∅, ∅).

Definition resolve_chat (user_target : ustr) (alias_map : gmap ustr ustr)
  : option ustr :=
  let key := norm user_target in
  match key with
  | [] => None
  | _ => alias_map !! key
  end.

Definition type_to_chat (target message : ustr) : parsed :=
  (Some "type_to_chat", Some target, Some message)%string.

Definition msg_of (m : rmatch) : ustr := strip (group m "msg").
Definition target_of (m : rmatch) : ustr := strip (group m "target").

(** A rule: the pattern search and the code under [if m:].  [None] is
    falling through to the next rule. *)
Definition rule (rx : regex) (body : rmatch -> option parsed) (t : ustr)
  : option parsed :=
  match re_search true rx t with
  | Some m => body m
  | None => None
  end.

Definition plain (m : rmatch) : option parsed :=
  Some (type_to_chat (target_of m) (msg_of m)).

Definition rule_1 : ustr -> option parsed :=
  rule rx_1 (fun m =>
    Some (Some "open_and_type"%string, Some (target_of m), Some (msg_of m))).
Definition rule_2 := rule rx_2 plain.
Definition rule_3 := rule rx_3 plain.
Definition rule_4 := rule rx_4 plain.
Definition rule_4a :=
  rule rx_4a (fun m =>
    let target := target_of m in
    let target := re_sub false rx_lead_prep [] target in
    Some (type_to_chat target (msg_of m))).
Definition rule_5 := rule rx_5 plain.
Definition rule_5a := rule rx_5a plain.
Definition rule_5b := rule rx_5b plain.
Definition rule_5c :=
  rule rx_5c (fun m =>
    let target := target_of m in
    let target := re_sub false rx_lead_v [] target in
    Some (type_to_chat target (msg_of m))).
Definition rule_5c1 :=
  rule rx_5c1 (fun m =>
    let target := target_of m in
    let target := re_sub false rx_lead_v [] target in
    let target := re_sub true rx_trail_v_tg [] target in
    let target := re_sub true rx_lead_tg [] target in
    Some (type_to_chat (strip target) (msg_of m))).
Definition rule_5c2 :=
  rule rx_5c2 (fun m => Some (type_to_chat (target_of m) (msg_of m))).
(** The second block commented 5c1 in the source. *)
Definition rule_5c1' :=
  rule rx_5c1 (fun m =>
    let target := target_of m in
    let target := re_sub false rx_lead_v [] target in
    let target := re_sub true rx_trail_tg [] target in
    let target := re_sub true rx_lead_tg [] target in
    let target := strip (re_sub false ws1 [32] target) in
    match target with
    | [] => None
    | _ => Some (type_to_chat target (msg_of m))
    end).
(** The word-count rule, on what follows the first two words of the
    pattern. *)
Definition rule_words :=
  rule rx_words (fun m =>
    let rest := strip (group m "rest") in
    let words := split_ws rest in
    let '(target, msg) :=
      if (3 <=? length words)%nat
      then (join_sp (take 2 words), join_sp (drop 2 words))
      else if (2 <=? length words)%nat
      then (default [] (head words), join_sp (drop 1 words))
      else (default [] (head words), []) in
    let target := re_sub false rx_lead_v [] target in
    let target := re_sub true rx_trail_tg [] target in
    let target := re_sub true rx_lead_tg [] target in
    let target := strip (re_sub false ws1 [32] target) in
    match target, msg with
    | _ :: _, _ :: _ => Some (type_to_chat target (strip msg))
    | _, _ => None
    end).
Definition rule_5c3 :=
  rule rx_5c2 (fun m =>
    let target := target_of m in
    let target := strip (re_sub false ws1 [32] target) in
    match target with
    | [] => None
    | _ => Some (type_to_chat target (msg_of m))
    end).
Definition rule_5d :=
  rule rx_5d (fun m =>
    let target := target_of m in
    let target := re_sub false rx_lead_v [] target in
    Some (Some "open_chat_only"%string, Some target, None)).
Definition rule_5e :=
  rule rx_5c1 (fun m =>
    let target := target_of m in
    let target := re_sub false rx_lead_prep [] target in
    Some (type_to_chat target (msg_of m))).
Definition rule_5f :=
  rule rx_5f (fun m =>
    let target := target_of m in
    if bool_decide (str_lower target ∈
                      [U "telegram"; U "—Ç–µ–ª–µ–≥—Ä–∞–º"; U "—Ç–µ–ª–µ–≥—Ä–∞–º–º–∞"])
    then None
    else Some (type_to_chat target (msg_of m))).
Definition paste (m : rmatch) : option parsed :=
  Some (Some "paste_to_chat"%string, Some (target_of m), None).
Definition rule_6 := rule rx_6 paste.
Definition rule_7 := rule rx_7 paste.
Definition rule_8 := rule rx_8 paste.
Definition rule_9 := rule rx_9 paste.

(** The structured rules tried before the word-count rule, and the rules
    tried after it, in source order. *)
Definition rules_before : list (ustr -> option parsed) :=
  [rule_1; rule_2; rule_3; rule_4; rule_4a; rule_5; rule_5a; rule_5b;
   rule_5c; rule_5c1; rule_5c2; rule_5c1'].
Definition rules_after : list (ustr -> option parsed) :=
  [rule_5c3; rule_5d; rule_5e; rule_5f; rule_6; rule_7; rule_8; rule_9].

Fixpoint first_match (rs : list (ustr -> option parsed)) (t : ustr)
  : option parsed :=
  match rs with
  | [] => None
  | r :: rs' =>
      match r t with
      | Some p => Some p
      | None => first_match rs' t
      end
  end.

Definition parse_command (text : ustr) : parsed :=
  let t := strip text in
  default (None, None, None)
          (first_match (rules_before ++ rule_words :: rules_after) t).

(** [clean_one_line] *)
Definition clean_one_line (text : ustr) : ustr :=
  let text := str_replace [10] [32] (str_replace [13] [32] text) in
  strip (re_sub false ws1 [32] text).

Section WithDaemon.
Variable daemon : list jval -> jval -> post_result.
Variable hammer_url : ustr.
(** What [load_tracked_chats(TRACKED_CHATS_PATH)] reads; [None] when it
    raises. *)
Variable tracked_file : option (list item).
Variable DISABLE_WHITELIST : bool.

Definition url : ustr := hammer_url ++ U "/cmd".

Definition hs_call (payload : jval) : io jval :=
  let* r :=
    try_except
      (let* r := session_post daemon payload in io_ret (inr r))
      (fun e =>
         io_ret (inl (JDict [("ok", JBool false);
                             ("error", JStr (U "Request failed: " ++ e));
                             ("url", JStr url)]))) in
  match r with
  | inl d => io_ret d
  | inr r =>
      if negb (status_code r =? 200)%Z
      then io_ret (JDict [("ok", JBool false);
                          ("error", JStr (U "HTTP " ++ show_Z (status_code r)));
                          ("url", JStr url);
                          ("raw", JStr (take raw_limit (text r)))])
      else
        try_except
          (response_json r)
          (fun _ =>
             io_ret (JDict [("ok", JBool false);
                            ("error", JStr (U "Non-JSON response"));
                            ("raw", JStr (take raw_limit (text r)));
                            ("url", JStr url)]))
  end.

(** [resp.get("ok", False)], truth-tested; it raises on a value that is
    not a dictionary. *)
Definition get_ok (resp : jval) : io bool :=
  match resp with
  | JDict d => io_ret (truthy (default (JBool false) (dict_get "ok" d)))
  | _ => io_raise (U "AttributeError")
  end.

Definition open_chat_payload (canonical : ustr) (result_index : option Z)
  : jval :=
  JDict ([("cmd", JStr (U "open_chat")); ("query", JStr canonical);
          ("auto_select", JBool true)]
         ++ match result_index with
            | Some i => [("result_index", JInt i)]
            | None => []
            end).

(** The whitelist step of [execute_command]: the canonical name and the
    index to open the chat with, or [None] when the command is rejected. *)
Definition whitelist_gate (alias_map : gmap ustr ustr)
    (result_index_map : gmap ustr (option Z)) (target : ustr)
  : option (ustr * option Z) :=
  match resolve_chat target alias_map with
  | Some (c :: cn) => Some (c :: cn, mjoin (result_index_map !! (c :: cn)))
  | _ => if DISABLE_WHITELIST then Some (target, Some 0%Z) else None
  end.

(** [execute_command] from the line after [parse_command(user_text)].
    Printing and the log of unrecognized commands are left out. *)
Definition run_parsed (p : parsed) : io bool :=
  let '(intent, target, msg) := p in
  match intent with
  | None | Some EmptyString => io_ret false
  | Some intent =>
      match tracked_file with
      | None => io_ret false
      | Some tracked =>
          let '(alias_map, result_index_map) := build_alias_map tracked in
          let target := default [] target in
          match whitelist_gate alias_map result_index_map target with
          | None => io_ret false
          | Some (canonical, result_index) =>
              let* resp1 := hs_call (open_chat_payload canonical result_index) in
              let* ok1 := get_ok resp1 in
              if negb ok1 then io_ret false
              else if String.eqb intent "open_chat_only" then io_ret true
              else if String.eqb intent "paste_to_chat" then
                let* resp2 :=
                  hs_call (JDict [("cmd", JStr (U "paste"));
                                  ("draft", JBool true)]) in
                let* ok2 := get_ok resp2 in
                io_ret ok2
              else
                let msg_clean := clean_one_line (default [] msg) in
                match msg_clean with
                | [] => io_ret false
                | _ =>
                    let* resp2 :=
                      hs_call (JDict [("cmd", JStr (U "send"));
                                      ("text", JStr msg_clean);
                                      ("use_clipboard", JBool true);
                                      ("draft", JBool true)]) in
                    let* ok2 := get_ok resp2 in
                    io_ret ok2
                end
          end
      end
  end.

Definition execute_command (user_text : ustr) : io bool :=
  run_parsed (parse_command user_text).

End WithDaemon.
End WithCase.
End Agent.

(** ** parsers/base.py, parsers/telegram_parser.py *)

Record ParsedCommand := {
  intent : string;
  target : option ustr;
  message : option ustr;
  driver : string
}.

(** [needle in hay] *)
Fixpoint contains (needle hay : ustr) : bool :=
  is_prefix needle hay ||
  match hay with
  | [] => false
  | _ :: hay' => contains needle hay'
  end.

Module TelegramParser.

(** The patterns of telegram_parser.py, which holds its literals in
    Cyrillic.  The capture groups are those of agent.py. *)
Definition tgt : regex := Agent.tgt.
Definition msg_tail : list regex := Agent.msg_tail.

Definition rx_1 : regex :=
  cat [L "открой"; ws1; L "чат"; ws1; tgt; ws1; L "и"; ws1; L "напиши"; ws1;
       Chr (CSet [171; 34]); Grp "msg" lazy1; Chr (CSet [187; 34]); ws0; Eol].
Definition rx_2 : regex :=
  cat ([L "напиши"; ws1; L "в"; ws1; tgt; ws0; L ":"; ws0] ++ msg_tail).
Definition rx_3 : regex :=
  cat ([L "напиши"; ws1; L "в"; ws1; L "чат"; ws1; tgt; ws0; L ":"; ws0]
         ++ msg_tail).
Definition rx_4 : regex :=
  cat ([L "напиши"; ws1; L "в"; ws1; tgt; ws1; L "что"; ws1] ++ msg_tail).
Definition rx_5 : regex :=
  cat ([L "напиши"; ws1; tgt; ws1; L "сообщение"; ws1] ++ msg_tail).
Definition rx_6 : regex :=
  cat [Seq (L "отправ") (Alt (L "ь") (L "и")); ws1; L "из"; ws1;
       Seq (L "буфер") (Alt (L "а") (L "а обмена"));
       ws1; L "в"; ws1; tgt; ws0; Eol].
Definition rx_7 : regex :=
  cat [L "открой"; ws1; Opt (Seq (L "чат") ws1); tgt; ws0; Eol].
Definition rx_lead_v : regex := cat [Bol; L "в"; ws1].
Definition rx_lead_chat : regex := cat [Bol; ws0; L "чат"; ws1].

Section WithCase.
Context `{CaseOps}.

Definition rule (rx : regex) (body : rmatch -> option ParsedCommand)
    (t : ustr) : option ParsedCommand :=
  match re_search true rx t with
  | Some m => body m
  | None => None
  end.

Definition send (driver_name : string) (m : rmatch) : option ParsedCommand :=
  Some {| intent := "send_message";
          target := Some (Agent.target_of m);
          message := Some (Agent.msg_of m);
          driver := driver_name |}.

Definition rules (driver_name : string)
  : list (ustr -> option ParsedCommand) :=
  [ rule rx_1 (send driver_name);
    rule rx_2 (send driver_name);
    rule rx_3 (send driver_name);
    rule rx_4 (send driver_name);
    rule rx_5 (fun m =>
      let target := Agent.target_of m in
      let target := re_sub false rx_lead_v [] target in
      Some {| intent := "send_message"; target := Some target;
              message := Some (Agent.msg_of m); driver := driver_name |});
    rule rx_6 (fun m =>
      let target := Agent.target_of m in
      let target := re_sub true rx_lead_chat [] target in
      Some {| intent := "paste_to_chat"; target := Some target;
              message := None; driver := driver_name |});
    (fun t => rule rx_7 (fun m =>
      let target := Agent.target_of m in
      if contains (U "и напиши") (str_lower t)
      then None
      else Some {| intent := "open_chat_only"; target := Some target;
                   message := None; driver := driver_name |}) t) ].

Fixpoint first_match (rs : list (ustr -> option ParsedCommand)) (t : ustr)
  : option ParsedCommand :=
  match rs with
  | [] => None
  | r :: rs' =>
      match r t with
      | Some p => Some p
      | None => first_match rs' t
      end
  end.

(** [TelegramCommandParser(driver_name).parse(text)] *)
Definition parse (driver_name : string) (text : ustr)
  : option ParsedCommand :=
  let t := strip text in
  match t with
  | [] => None
  | _ => first_match (rules driver_name) t
  end.

End WithCase.
End TelegramParser.


(** ** drivers/, actions/telegram_actions.py, core/executor.py *)

Record DriverResult := {
  ok : bool;
  error : option jval;
  data : option jval
}.

(** A [TelegramDriver]; its configuration holds the daemon's address. *)
Record TelegramDriver := { drv_hammer_url : ustr }.

(** One entry of the ["drivers"] section of config.json. *)
Record driver_config := {
  cfg_enabled : bool;
  cfg_hammer_url : option ustr
}.

Record ActionContext := {
  ctx_driver : TelegramDriver;
  ctx_target : option ustr;
  ctx_message : option ustr;
  extra_params : list (string * jval)
}.

Module Executor.
Section WithCase.
Context `{CaseOps}.
Variable daemon : list jval -> jval -> post_result.
(** HAMMER_URL of the environment, the default address. *)
Variable env_hammer_url : ustr.

(** [DriverManager.get_driver]; the only class registered is "telegram". *)
Definition get_driver (drivers : gmap string driver_config) (name : string)
  : option TelegramDriver :=
  match drivers !! name with
  | None => None
  | Some cfg =>
      if negb (cfg_enabled cfg) then None
      else if String.eqb name "telegram"
      then Some {| drv_hammer_url := default env_hammer_url (cfg_hammer_url cfg) |}
      else None
  end.

(** [TelegramDriver._call_hammer] *)
Definition call_hammer (d : TelegramDriver) (payload : jval) : io DriverResult :=
  let url := drv_hammer_url d ++ U "/cmd" in
  let* r :=
    try_except
      (let* r := session_post daemon payload in io_ret (inr r))
      (fun e =>
         io_ret (inl {| ok := false;
                        error := Some (JStr (U "Request failed: " ++ e));
                        data := None |})) in
  match r with
  | inl res => io_ret res
  | inr r =>
      if negb (status_code r =? 200)%Z
      then io_ret {| ok := false;
                     error := Some (JStr (U "HTTP " ++ show_Z (status_code r)));
                     data := Some (JDict [("raw", JStr (take raw_limit (text r)));
                                          ("url", JStr url)]) |}
      else
        try_except
          (let* resp := response_json r in
           match resp with
           | JDict dct =>
               if truthy (default (JBool false) (dict_get "ok" dct))
               then io_ret {| ok := true; error := None; data := Some resp |}
               else io_ret {| ok := false;
                              error := Some (default (JStr (U "Unknown error"))
                                                     (dict_get "error" dct));
                              data := Some resp |}
           | _ => io_raise (U "AttributeError")
           end)
          (fun e =>
             io_ret {| ok := false;
                       error := Some (JStr (U "Non-JSON response"));
                       data := Some (JDict [("raw", JStr (take raw_limit (text r)));
                                            ("url", JStr url);
                                            ("exception", JStr e)]) |})
  end.

Definition open_chat (d : TelegramDriver) (target : ustr)
    (auto_select result_index : jval) : io DriverResult :=
  call_hammer d
    (JDict ([("cmd", JStr (U "open_chat")); ("query", JStr target);
             ("auto_select", auto_select)]
            ++ match result_index with
               | JNull => []
               | ri => [("result_index", ri)]
               end)).

Definition send_message (d : TelegramDriver) (text : ustr)
    (use_clipboard draft : jval) : io DriverResult :=
  call_hammer d
    (JDict [("cmd", JStr (U "send")); ("text", JStr text);
            ("use_clipboard", use_clipboard); ("draft", draft)]).

Definition paste_from_clipboard (d : TelegramDriver) (draft : jval)
  : io DriverResult :=
  call_hammer d (JDict [("cmd", JStr (U "paste")); ("draft", draft)]).

Definition failed (msg : string) : DriverResult :=
  {| ok := false; error := Some (JStr (U msg)); data := None |}.

Definition param (ctx : ActionContext) (key : string) (dflt : jval) : jval :=
  default dflt (dict_get key (extra_params ctx)).

Definition open_for (ctx : ActionContext) (target : ustr) : io DriverResult :=
  open_chat (ctx_driver ctx) target
            (param ctx "auto_select" (JBool true))
            (param ctx "result_index" JNull).

(** [OpenChatOnlyAction.execute] *)
Definition open_chat_only_action (ctx : ActionContext) : io DriverResult :=
  match ctx_target ctx with
  | Some (c :: tg) => open_for ctx (c :: tg)
  | _ => io_ret (failed "Target (имя чата) обязательно для open_chat_only")
  end.

(** [SendMessageAction.execute] *)
Definition send_message_action (ctx : ActionContext) : io DriverResult :=
  match ctx_target ctx, ctx_message ctx with
  | Some (c :: tg), Some (m :: ms) =>
      let* open_result := open_for ctx (c :: tg) in
      if negb (ok open_result) then io_ret open_result
      else send_message (ctx_driver ctx) (m :: ms)
                        (param ctx "use_clipboard" (JBool true))
                        (param ctx "draft" (JBool true))
  | Some (c :: tg), _ =>
      io_ret (failed "Message (текст сообщения) обязательно для send_message")
  | _, _ => io_ret (failed "Target (имя чата) обязательно для send_message")
  end.

(** [PasteToChatAction.execute] *)
Definition paste_to_chat_action (ctx : ActionContext) : io DriverResult :=
  match ctx_target ctx with
  | Some (c :: tg) =>
      let* open_result := open_for ctx (c :: tg) in
      if negb (ok open_result) then io_ret open_result
      else paste_from_clipboard (ctx_driver ctx) (param ctx "draft" (JBool true))
  | _ => io_ret (failed "Target (имя чата) обязательно для paste_to_chat")
  end.

(** [TELEGRAM_ACTIONS.get(intent)] *)
Definition telegram_actions (intent : string)
  : option (ActionContext -> io DriverResult) :=
  if String.eqb intent "open_chat_only" then Some open_chat_only_action
  else if String.eqb intent "send_message" then Some send_message_action
  else if String.eqb intent "paste_to_chat" then Some paste_to_chat_action
  else None.

(** [self.action_registry.get(driver, {}).get(intent)] *)
Definition action_registry (driver_name intent : string)
  : option (ActionContext -> io DriverResult) :=
  if String.eqb driver_name "telegram" then telegram_actions intent else None.

Definition index_value (ri : option Z) : jval :=
  match ri with
  | Some i => JInt i
  | None => JNull
  end.

(** [CommandExecutor.execute] *)
Definition execute (drivers : gmap string driver_config)
    (parsed_command : ParsedCommand)
    (alias_map : gmap ustr ustr) (result_index_map : gmap ustr (option Z))
    (disable_whitelist : bool) : io bool :=
  match get_driver drivers (driver parsed_command) with
  | None => io_ret false
  | Some drv =>
      let resolved :=
        match ChatResolver.resolve_chat (default [] (target parsed_command))
                                        alias_map with
        | Some (c :: cn) =>
            Some (Some (c :: cn), mjoin (result_index_map !! (c :: cn)))
        | _ =>
            if disable_whitelist
            then Some (target parsed_command, Some 0%Z)
            else None
        end in
      match resolved with
      | None => io_ret false
      | Some (canonical, result_index) =>
          match action_registry (driver parsed_command)
                                (intent parsed_command) with
          | None => io_ret false
          | Some action =>
              let context :=
                {| ctx_driver := drv;
                   ctx_target := canonical;
                   ctx_message := message parsed_command;
                   extra_params :=
                     [("auto_select", JBool true);
                      ("result_index", index_value result_index)] |} in
              let* result := action context in
              io_ret (ok result)
          end
      end
  end.

End WithCase.
End Executor.

(** ** ocr_find_chat.py: the line matcher

    [find_chat_in_screenshot] from the point where the recognised text is
    at hand.  Scores are exact rationals: a score is a quotient of two
    small naturals, and for those the comparisons with [0.7] and with one
    another come out as they do on floats. *)
Module OcrFindChat.

(** [s.split('\n')] *)
Fixpoint split_lines (cur : ustr) (s : ustr) : list ustr :=
  match s with
  | [] => [cur]
  | c :: r => if c =? 10 then cur :: split_lines [] r else split_lines (cur ++ [c]) r
  end.

(** The stripped lines of the recognised text that have more than one
    character. *)
Definition ocr_lines (ocr_text : ustr) : list ustr :=
  filter (fun line => (1 < length line)%nat) (map strip (split_lines [] ocr_text)).

Definition Qgt_b (a b : Q) : bool := negb (Qle_bool a b).

Section WithCase.
Context `{CaseOps}.

Definition normalize_text (text : ustr) : ustr :=
  let text := str_lower (strip text) in
  let text := str_replace [3633; 145] [3632; 3605] text in
  re_sub false ws1 [32] text.

(** [set(s.replace(" ", ""))] *)
Definition char_set (s : ustr) : gset N :=
  list_to_set (str_replace [32] [] s).

(** Strategy 1: the first line equal to the target after normalization. *)
Fixpoint strategy1 (target_norm : ustr) (i : nat) (lines : list ustr)
  : option nat :=
  match lines with
  | [] => None
  | line :: lines' =>
      if bool_decide (normalize_text line = target_norm) then Some i
      else strategy1 target_norm (S i) lines'
  end.

Definition len_diff (a b : ustr) : Z :=
  Z.abs (Z.of_nat (length a) - Z.of_nat (length b)).

(** Strategy 2: the first line that contains the target, or is contained
    in it, and whose length differs from the target's by at most 2. *)
Fixpoint strategy2 (target_norm : ustr) (i : nat) (lines : list ustr)
  : option nat :=
  match lines with
  | [] => None
  | line :: lines' =>
      let line_norm := normalize_text line in
      if (contains target_norm line_norm || contains line_norm target_norm)
         && (len_diff line_norm target_norm <=? 2)%Z
      then Some i
      else strategy2 target_norm (S i) lines'
  end.

Definition score (target_norm line : ustr) : Q :=
  let target_chars := char_set target_norm in
  let line_chars := char_set (normalize_text line) in
  let common := size (target_chars ∩ line_chars) in
  Z.of_nat common # Pos.of_nat (Nat.max (size target_chars) 1).

(** Strategy 3: the line with the best share of the target's characters,
    if that share is above 0.7. *)
Fixpoint strategy3 (target_norm : ustr) (i : nat) (lines : list ustr)
    (best_match_idx : Z) (best_score : Q) : Z :=
  match lines with
  | [] => best_match_idx
  | line :: lines' =>
      let sc := score target_norm line in
      if Qgt_b sc best_score && Qgt_b sc (7 # 10)
      then strategy3 target_norm (S i) lines' (Z.of_nat i) sc
      else strategy3 target_norm (S i) lines' best_match_idx best_score
  end.

Definition find_chat (lines : list ustr) (target_name : ustr) : Z :=
  match lines with
  | [] => (-1)%Z
  | _ =>
      let target_norm := normalize_text target_name in
      match strategy1 target_norm 0 lines with
      | Some i => Z.of_nat i
      | None =>
          match strategy2 target_norm 0 lines with
          | Some i => Z.of_nat i
          | None =>
              let best := strategy3 target_norm 0 lines (-1)%Z 0%Q in
              if (0 <=? best)%Z then best else (-1)%Z
          end
      end
  end.

End WithCase.
End OcrFindChat.


(** ** agent.py, [main]: the command cut out of the recognised speech

    The keywords are the literals of the file, stored like the patterns
    of [parse_command]. *)

Module VoiceMode.

Definition keywords : list ustr :=
  [U "saydo"; U "say do";
   U "—Å–µ–π–¥–æ"; U "—Å–æ–π–¥—É"; U "—Å–µ–π–¥—É"; U "—Å–µ–π–¥–æ—É"; U "–∑–µ–π–¥—É";
   U "—Å–µ–π –¥–æ"; U "—Å–æ–π –¥—É"; U "—Å–µ–π –¥—É"; U "–∑–µ–π –¥—É";
   U "–∞–≥–µ–Ω—Ç"; U "–∞–≥–µ–Ω—Ç–∞"; U "–∞–≥–µ–Ω—Ç—É"; U "–∞–≥–µ–Ω—Ç–µ"; U "–∞–≥–µ–Ω—Ç–æ–º"; U "–∞–≥–µ–Ω—Ç—ã"].

(** [hay.find(needle)]: the position of the first occurrence, -1 if there
    is none. *)
Fixpoint find_from (needle hay : ustr) (i : Z) : Z :=
  if is_prefix needle hay then i
  else match hay with
       | [] => (-1)%Z
       | _ :: hay' => find_from needle hay' (i + 1)%Z
       end.
Definition str_find (needle hay : ustr) : Z := find_from needle hay 0%Z.

(** [s[start:]] *)
Definition slice_from (start : Z) (s : ustr) : ustr :=
  if (start <? 0)%Z
  then drop (Z.to_nat (Z.of_nat (length s) + start)) s
  else drop (Z.to_nat start) s.

(** [s.lstrip(chars)] *)
Fixpoint lstrip_chars (chars s : ustr) : ustr :=
  match s with
  | [] => []
  | c :: r => if bool_decide (c ∈ chars) then lstrip_chars chars r else s
  end.

(** The loop over [keywords] with its [break]. *)
Fixpoint first_keyword (ks : list ustr) (text_lower : ustr) : option ustr :=
  match ks with
  | [] => None
  | keyword :: ks' =>
      if contains keyword text_lower then Some keyword
      else first_keyword ks' text_lower
  end.

(** The command handed to [execute_command] for a recognised text;
    [None] when the loop goes on listening without executing. *)
Definition command_after_keyword `{CaseOps} (text : ustr) : option ustr :=
  let text_lower := str_lower text in
  match first_keyword keywords text_lower with
  | Some keyword =>
      let keyword_pos := str_find keyword text_lower in
      let keyword_len := Z.of_nat (length keyword) in
      let command_start := (keyword_pos + keyword_len)%Z in
      let command := strip (slice_from command_start text) in
      let command := lstrip_chars (U " ,.?!;:") command in
      match command with
      | [] => None
      | _ => Some command
      end
  | None => None
  end.

End VoiceMode.

(** * The vocabulary of the statements and the data of the scenarios *)

(** The length of the run of whitespace a string starts with. *)
Fixpoint span_ws (s : ustr) : nat :=
  match s with
  | c :: r => if is_space c then S (span_ws r) else 0
  | [] => 0
  end.

(** [s.replace("ё", "е")] on one character. *)
Definition yo_to_ie (c : N) : N := if 1105 =? c then 1077 else c.

(** The replacement step of agent.py's [norm]: its two literals are stored
    as U+2014 U+00EB and U+2013 U+00B5, and every occurrence of the first
    pair, left to right, becomes the second. *)
Fixpoint pair_to_ie (s : ustr) : ustr :=
  match s with
  | [] => []
  | a :: r =>
      match r with
      | b :: r' =>
          if (a =? 8212) && (b =? 235)
          then 8211 :: 181 :: pair_to_ie r'
          else a :: pair_to_ie r
      | [] => [a]
      end
  end.

(** An entry leaves the key [k] alone when it is skipped or when neither
    its canonical name nor one of its aliases normalizes to [k]. *)
Definition leaves_key `{CaseOps} (k : ustr) (it : item) : Prop :=
  match default [] (item_canonical it) with
  | [] => True
  | c' =>
      ChatResolver.norm c' <> k
      /\ Forall (fun a => ChatResolver.norm a <> k)
                (default [] (item_aliases it))
  end.

(** No key of the alias map stands for an empty canonical name. *)
Definition nonempty_values (m : gmap ustr ustr) : Prop :=
  forall k v, m !! k = Some v -> v <> [].

(** [reach st st']: [st'] is [st] after consuming a prefix of its rest. *)
Definition reach (st st' : mstate) : Prop :=
  exists w, rest st = w ++ rest st' /\ pos st' = (pos st + length w)%nat.

(** The words of [str.split()] start with a character that is not
    whitespace. *)
Definition word_ok (w : ustr) : Prop :=
  match w with
  | c :: _ => is_space c = false
  | [] => False
  end.

(** A result that is not a command with an empty message. *)
Definition msg_ok (p : Agent.parsed) : Prop :=
  match p with
  | (_, _, Some []) => False
  | _ => True
  end.

(** The transport outcomes that [hs_call] turns into a failure result. *)
Definition transport_failed (o : post_result) : bool :=
  match o with
  | PostRaised _ => true
  | PostReturned r =>
      negb (status_code r =? 200)%Z
      || match json r with None => true | Some _ => false end
  end.

(** A daemon reply counts as success when it is a dictionary whose [ok]
    entry is true. *)
Definition succeeded (v : jval) : bool :=
  match v with
  | JDict d => truthy (default (JBool false) (dict_get "ok" d))
  | _ => false
  end.

(** The request of the paste step. *)
Definition paste_payload : jval :=
  JDict [("cmd", JStr (U "paste")); ("draft", JBool true)].

(** Scenario inputs: utterances, whitelist entries, daemons. *)
Definition paste_text : ustr := U "отправь из буфера в избранное".

Definition smeta : item :=
  {| item_canonical := Some (U "Смета");
     item_aliases := Some [U "расходы"];
     item_result_index := None |}.
Definition smeta_fin : item :=
  {| item_canonical := Some (U "Смета фин");
     item_aliases := Some [U "смета"];
     item_result_index := None |}.

Definition izbrannoe : item :=
  {| item_canonical := Some (U "Избранное");
     item_aliases := Some [U "saved"; U "сохраненки"];
     item_result_index := Some (Some 0%Z) |}.

Definition maksim : item :=
  {| item_canonical := Some (U "Максим Ершов");
     item_aliases := Some [U "Максим"];
     item_result_index := None |}.

(** A daemon that answers every request with status 500 and a body of
    6000 characters. *)
Definition broken_daemon (tr : list jval) (payload : jval) : post_result :=
  PostReturned {| status_code := 500; text := repeat 97 (N.to_nat 6000);
                  json := None |}.

(** A daemon that accepts every request. *)
Definition healthy_daemon (tr : list jval) (payload : jval) : post_result :=
  PostReturned {| status_code := 200; text := U "{}";
                  json := Some (JDict [("ok", JBool true)]) |}.

Definition local_url : ustr := U "http://127.0.0.1:7733".

Definition telegram_only : gmap string driver_config :=
  {[ "telegram"%string := {| cfg_enabled := true; cfg_hammer_url := None |} ]}.

Definition search_results : list ustr := [U "Иван Петров"; U "Мария Смета"].

(** открой чат Максим и напиши « » *)
Definition blank_quote : ustr := U "открой чат Максим и напиши « »".

Definition double_command : ustr := U "отправь сообщение Ивану вставь в чат".

(** The binding [k ↦ v] of an alias map is backed by the whitelist: an
    entry has the non-empty canonical name [v], and [k] is the normalized
    form, under the normalizer [nm] of the copy at hand, of that name or of
    one of the entry's aliases. *)
Definition listed (nm : ustr -> ustr) (tracked : list item) (k v : ustr)
  : Prop :=
  exists it,
    it ∈ tracked /\ item_canonical it = Some v /\ v <> []
    /\ (nm v = k
        \/ exists a, a ∈ default [] (item_aliases it) /\ nm a = k).

(** [leaves_key] for the alias map of agent.py, under its own [norm]. *)
Definition agent_leaves_key `{CaseOps} (k : ustr) (it : item) : Prop :=
  match default [] (item_canonical it) with
  | [] => True
  | c' =>
      Agent.norm c' <> k
      /\ Forall (fun a => Agent.norm a <> k) (default [] (item_aliases it))
  end.

(** The two normalizers give the same key for every name of the entry;
    an entry without a canonical name is skipped by both copies. *)
Definition same_keys `{CaseOps} (it : item) : Prop :=
  match default [] (item_canonical it) with
  | [] => True
  | c =>
      Agent.norm c = ChatResolver.norm c
      /\ Forall (fun a => Agent.norm a = ChatResolver.norm a)
                (default [] (item_aliases it))
  end.

(** A whitelist entry whose name has the letter "ё". *)
Definition artyom : item :=
  {| item_canonical := Some (U "Артём");
     item_aliases := None;
     item_result_index := None |}.

(** An entry does not set the index of the canonical name [c]. *)
Definition keeps_index (c : ustr) (it : item) : Prop :=
  item_canonical it = Some c -> item_result_index it = None.

(** The request of the send step. *)
Definition send_payload (text : ustr) : jval :=
  JDict [("cmd", JStr (U "send")); ("text", JStr text);
         ("use_clipboard", JBool true); ("draft", JBool true)].

(** A whitelist with an entry whose alias is blank. *)
Definition blank_alias : item :=
  {| item_canonical := Some (U "Избранное");
     item_aliases := Some [U "  "; U "saved"];
     item_result_index := Some None |}.

(** A daemon that answers every request with status 200 and the JSON
    body [[]], which is not an object. *)
Definition list_daemon (tr : list jval) (payload : jval) : post_result :=
  PostReturned {| status_code := 200; text := U "[]";
                  json := Some (JList []) |}.

(** The results [parse_command] can return: nothing, or one of the four
    intents with a target, carrying a message exactly for the two typing
    intents. *)
Definition shape_ok (p : Agent.parsed) : Prop :=
  exists tg,
    (exists m, p = (Some "open_and_type"%string, Some tg, Some m))
    \/ (exists m, p = (Some "type_to_chat"%string, Some tg, Some m))
    \/ p = (Some "paste_to_chat"%string, Some tg, None)
    \/ p = (Some "open_chat_only"%string, Some tg, None).

(** The commands [TelegramCommandParser.parse] can return for a driver. *)
Definition command_ok (driver_name : string) (pc : ParsedCommand) : Prop :=
  driver pc = driver_name
  /\ (exists tg, target pc = Some tg)
  /\ (intent pc = "send_message"%string /\ (exists m, message pc = Some m)
      \/ intent pc = "paste_to_chat"%string /\ message pc = None
      \/ intent pc = "open_chat_only"%string /\ message pc = None).

(** Every match of the pattern begins with a character matched by a
    literal that satisfies [d]: the pattern starts with such a literal on
    each of its branches. *)
Fixpoint begins_with (d : N -> bool) (r : regex) : bool :=
  match r with
  | Chr (CLit a) => d a
  | Seq r1 _ => begins_with d r1
  | Alt r1 r2 => begins_with d r1 && begins_with d r2
  | Grp _ r1 => begins_with d r1
  | _ => false
  end.

(** U+2013 and U+2014, the Mac Roman readings of the bytes D0 and D1 with
    which the UTF-8 form of a Cyrillic letter begins. *)
Definition is_dash (a : N) : bool := (a =? 8211) || (a =? 8212).

(** The three tests of the line matcher, on a normalized target and a
    line of the recognised text. *)
Definition exact_hit `{CaseOps} (target_norm line : ustr) : bool :=
  bool_decide (OcrFindChat.normalize_text line = target_norm).
Definition close_hit `{CaseOps} (target_norm line : ustr) : bool :=
  (contains target_norm (OcrFindChat.normalize_text line)
   || contains (OcrFindChat.normalize_text line) target_norm)
  && (OcrFindChat.len_diff (OcrFindChat.normalize_text line) target_norm
      <=? 2)%Z.
Definition fuzzy_hit `{CaseOps} (target_norm line : ustr) : bool :=
  OcrFindChat.Qgt_b (OcrFindChat.score target_norm line) (7 # 10).
Definition accepts `{CaseOps} (target_norm line : ustr) : bool :=
  exact_hit target_norm line || close_hit target_norm line
  || fuzzy_hit target_norm line.

(** Three search results of which the second and the third normalize to
    "смета". *)
Definition smeta_results : list ustr :=
  [U "Смета фин"; U "  СМЕТА "; U "смета"].

(** напиши в избранное: купить хлеб *)
Definition note_text : ustr := U "напиши в избранное: купить хлеб".

(** The same commands in the spelling agent.py stores its literals in, the
    Mac Roman reading of their UTF-8 bytes: the texts its patterns
    accept. *)
Definition paste_text_stored : ustr :=
  U "–æ—Ç–ø—Ä–∞–≤—å –∏–∑ –±—É—Ñ–µ—Ä–∞ –≤ –∏–∑–±—Ä–∞–Ω–Ω–æ–µ".
Definition izbrannoe_stored : ustr := U "–∏–∑–±—Ä–∞–Ω–Ω–æ–µ".
Definition note_text_stored : ustr :=
  U "–Ω–∞–ø–∏—à–∏ –≤ –∏–∑–±—Ä–∞–Ω–Ω–æ–µ: –∫—É–ø–∏—Ç—å —Ö–ª–µ–±".
Definition hleb_stored : ustr := U "–∫—É–ø–∏—Ç—å —Ö–ª–µ–±".
Definition double_command_stored : ustr :=
  U "–æ—Ç–ø—Ä–∞–≤—å —Å–æ–æ–±—â–µ–Ω–∏–µ –ò–≤–∞–Ω—É –≤—Å—Ç–∞–≤—å –≤ —á–∞—Ç".
(** открой чат Максим и напиши " ", with the ASCII quotation mark, which
    the quote classes of rule 1 hold in either spelling. *)
Definition blank_quote_stored : ustr :=
  U "–æ—Ç–∫—Ä–æ–π —á–∞—Ç –ú–∞–∫—Å–∏–º –∏ –Ω–∞–ø–∏—à–∏" ++ [32; 34; 32; 34].
Definition maksim_stored : ustr := U "–ú–∞–∫—Å–∏–º".

(** The daemon acknowledges a request: it answers with status 200 and a
    JSON object whose [ok] entry is true. *)
Definition acknowledged (daemon : list jval -> jval -> post_result)
    (tr : list jval) (payload : jval) : bool :=
  match daemon tr payload with
  | PostRaised _ => false
  | PostReturned r =>
      (status_code r =? 200)%Z
      && match json r with
         | Some (JDict d) => truthy (default (JBool false) (dict_get "ok" d))
         | _ => false
         end
  end.

(** The request [open_chat] of the driver for a chat name and the index
    parameter of the action context. *)
Definition driver_open_payload (q : ustr) (idx : jval) : jval :=
  JDict ([("cmd", JStr (U "open_chat")); ("query", JStr q);
          ("auto_select", JBool true)]
         ++ match idx with
            | JNull => []
            | ri => [("result_index", ri)]
            end).

(** * Properties *)

#[local] Arguments U : simpl never.
#[local] Arguments show_Z : simpl never.
#[local] Arguments take : simpl never.

(** ** The engine and the parsers on sample inputs *)

Example lazy_target_greedy_message :
  re_search true TelegramParser.rx_2 (U "Напиши в избранное: тест: два")
  = Some (RMatch 0 29 [("msg", U "тест: два"); ("target", U "избранное")]).
Proof. by vm_compute. Qed.

Example sub_leading_preposition :
  re_sub false TelegramParser.rx_lead_v [] (U "в  чат в") = U "чат в"
  /\ re_sub false TelegramParser.rx_lead_v [] (U "В чат") = U "В чат".
Proof. split; by vm_compute. Qed.

(** Scenario A, "напиши в избранное: тест": the Telegram parser recognises
    it; [parse_command] of agent.py does not, and recognises the same
    bytes read as Mac Roman. *)
Example scenario_a :
  TelegramParser.parse "telegram" (U "напиши в избранное: тест")
  = Some {| intent := "send_message"; target := Some (U "избранное");
            message := Some (U "тест"); driver := "telegram" |}
  /\ Agent.parse_command (U "напиши в избранное: тест") = (None, None, None)
  /\ Agent.parse_command (U "–Ω–∞–ø–∏—à–∏ –≤ –∏–∑–±—Ä–∞–Ω–Ω–æ–µ: —Ç–µ—Å—Ç")
     = Agent.type_to_chat (U "–∏–∑–±—Ä–∞–Ω–Ω–æ–µ") (U "—Ç–µ—Å—Ç").
Proof. repeat split; by vm_compute. Qed.

Example open_chat_parsed :
  TelegramParser.parse "telegram" (U "открой чат Максим")
  = Some {| intent := "open_chat_only"; target := Some (U "Максим");
            message := None; driver := "telegram" |}.
Proof. by vm_compute. Qed.

(** "отправь ершову Максиму в Telegram сообщение Привет" in the stored
    spelling. *)
Example voice_command_parsed :
  Agent.parse_command
    (U "–æ—Ç–ø—Ä–∞–≤—å –µ—Ä—à–æ–≤—É –ú–∞–∫—Å–∏–º—É –≤ Telegram —Å–æ–æ–±—â–µ–Ω–∏–µ –ü—Ä–∏–≤–µ—Ç")
  = Agent.type_to_chat (U "–µ—Ä—à–æ–≤—É –ú–∞–∫—Å–∏–º—É") (U "–ü—Ä–∏–≤–µ—Ç").
Proof. by vm_compute. Qed.

Example split_join :
  split_ws (U "  Максиму   ершову Привет ") = [U "Максиму"; U "ершову"; U "Привет"]
  /\ join_sp [U "Привет"; U "мир"] = U "Привет мир".
Proof. split; by vm_compute. Qed.

(** ** Strings *)

Lemma lstrip_rstrip (s : ustr) : lstrip (rstrip s) = rstrip (lstrip s).
Proof.
  induction s as [|c r IH]; [done|].
  simpl. destruct (is_space c) eqn:Hc.
  - rewrite <- IH. destruct (rstrip r) as [|x r'] eqn:Hr; [done|].
    simpl. by rewrite Hc.
  - destruct (rstrip r) as [|x r'] eqn:Hr; simpl; by rewrite Hc, ?Hr.
Qed.

Lemma lstrip_idem (s : ustr) : lstrip (lstrip s) = lstrip s.
Proof.
  induction s as [|c r IH]; [done|].
  simpl. destruct (is_space c) eqn:Hc; [done|]. simpl. by rewrite Hc.
Qed.

Lemma rstrip_idem (s : ustr) : rstrip (rstrip s) = rstrip s.
Proof.
  induction s as [|c r IH]; [done|].
  simpl. destruct (rstrip r) as [|x r'] eqn:Hr.
  - destruct (is_space c) eqn:Hc; [done|]. simpl. by rewrite Hc.
  - change (rstrip (c :: x :: r')) with
      (match rstrip (x :: r') with
       | [] => if is_space c then [] else [c]
       | y :: r'' => c :: y :: r''
       end).
    by rewrite IH.
Qed.

Lemma strip_idem (s : ustr) : strip (strip s) = strip s.
Proof.
  unfold strip. by rewrite lstrip_rstrip, lstrip_idem, rstrip_idem.
Qed.

Lemma rstrip_nil (s : ustr) : rstrip s = [] <-> forallb is_space s = true.
Proof.
  induction s as [|c r IH]; [done|].
  simpl. destruct (rstrip r) as [|x r'] eqn:Hr.
  - destruct (is_space c); simpl; [tauto|]. split; [done|]. intros [=].
  - split; [done|]. intros [_ Hf]%andb_true_iff. apply IH in Hf. done.
Qed.

Lemma lstrip_nil (s : ustr) : lstrip s = [] <-> forallb is_space s = true.
Proof.
  induction s as [|c r IH]; [done|].
  simpl. destruct (is_space c); simpl; [done|]. split; intros [=].
Qed.

Lemma strip_all_space (s : ustr) : forallb is_space s = true -> strip s = [].
Proof. intros Hs. unfold strip. by apply lstrip_nil in Hs as ->. Qed.

Section MapStrip.
Variable f : N -> N.
Hypothesis f_space : forall c, is_space (f c) = is_space c.

Lemma lstrip_map (s : ustr) : lstrip (map f s) = map f (lstrip s).
Proof.
  induction s as [|c r IH]; [done|].
  simpl. rewrite f_space. by destruct (is_space c).
Qed.

Lemma rstrip_map (s : ustr) : rstrip (map f s) = map f (rstrip s).
Proof.
  induction s as [|c r IH]; [done|].
  simpl. rewrite IH, f_space.
  destruct (rstrip r); simpl; by destruct (is_space c).
Qed.

Lemma strip_map (s : ustr) : strip (map f s) = map f (strip s).
Proof. unfold strip. by rewrite lstrip_map, rstrip_map. Qed.
End MapStrip.

(** Replacing one character by another is a [map]. *)
Lemma str_replace_char (a b : N) (s : ustr) :
  str_replace [a] [b] s = map (fun c => if a =? c then b else c) s.
Proof.
  unfold str_replace. induction s as [|c r IH]; [done|].
  simpl. rewrite andb_true_r. rewrite IH. by destruct (a =? c).
Qed.

(** Collapsing and trimming. *)
Lemma lstrip_collapse (b : bool) (s : ustr) :
  lstrip (collapse_go b s) = collapse_go false (lstrip s).
Proof.
  revert b. induction s as [|c r IH]; intros b; [done|].
  simpl. destruct (is_space c) eqn:Hc.
  - destruct b; simpl; by rewrite ?IH.
  - simpl. by rewrite Hc.
Qed.

Lemma collapse_true_nil (s : ustr) :
  collapse_go true s = [] <-> forallb is_space s = true.
Proof.
  induction s as [|c r IH]; [done|].
  simpl. destruct (is_space c); simpl; [done|]. split; intros [=].
Qed.

Lemma rstrip_collapse (b : bool) (s : ustr) :
  rstrip (collapse_go b s) = collapse_go b (rstrip s).
Proof.
  revert b. induction s as [|c r IH]; intros b; [done|].
  simpl. destruct (is_space c) eqn:Hc.
  - destruct (rstrip r) as [|x r'] eqn:Hr.
    + assert (Hn : rstrip (collapse_go true r) = []).
      { by rewrite IH. }
      destruct b; simpl; by rewrite Hn.
    + assert (Hn : rstrip (collapse_go true r) = collapse_go true (x :: r'))
        by (by rewrite IH).
      assert (Hx : collapse_go true (x :: r') <> []).
      { intros Hx%collapse_true_nil. rewrite <- Hr in Hx.
        apply rstrip_nil in Hx. rewrite rstrip_idem in Hx. congruence. }
      change (collapse_go b (c :: x :: r')) with
        (if is_space c
         then (if b then collapse_go true (x :: r')
               else 32 :: collapse_go true (x :: r'))
         else c :: collapse_go false (x :: r')).
      rewrite Hc. destruct b; [done|].
      change (rstrip (32 :: collapse_go true r)) with
        (match rstrip (collapse_go true r) with
         | [] => if is_space 32 then [] else [32]
         | y :: r'' => 32 :: y :: r''
         end).
      rewrite Hn. by destruct (collapse_go true (x :: r')).
  - change (rstrip (c :: collapse_go false r)) with
      (match rstrip (collapse_go false r) with
       | [] => if is_space c then [] else [c]
       | y :: r'' => c :: y :: r''
       end).
    rewrite IH, Hc. destruct (rstrip r) as [|x r'] eqn:Hr; simpl.
    + by rewrite Hc.
    + rewrite Hc. by destruct (is_space x).
Qed.

Lemma strip_collapse (s : ustr) : strip (collapse_ws s) = collapse_ws (strip s).
Proof.
  unfold strip, collapse_ws. by rewrite lstrip_collapse, rstrip_collapse.
Qed.

Lemma collapse_idem (s : ustr) :
  (forall b, collapse_go false (collapse_go b s) = collapse_go b s)
  /\ collapse_go true (collapse_go true s) = collapse_go true s.
Proof.
  induction s as [|c r [IH1 IH2]]; [done|].
  split; [intros b|]; simpl; destruct (is_space c) eqn:Hc; simpl;
    rewrite ?Hc; try destruct b; simpl; by rewrite ?IH1, ?IH2.
Qed.

Lemma collapse_ws_idem (s : ustr) : collapse_ws (collapse_ws s) = collapse_ws s.
Proof. apply collapse_idem. Qed.

Lemma collapse_elem (b : bool) (s : ustr) (x : N) :
  x ∈ collapse_go b s -> x = 32 \/ x ∈ s.
Proof.
  revert b. induction s as [|c r IH]; intros b; simpl; [by right|].
  destruct (is_space c).
  - destruct b.
    + intros [?|?]%IH; [by left|right; by constructor].
    + intros [->|[?|?]%IH]%elem_of_cons; [by left|by left|right; by constructor].
  - intros [->|[?|?]%IH]%elem_of_cons;
      [right; by constructor|by left|right; by constructor].
Qed.

(** ** [re.sub(r"\s+", " ", s)] is [collapse_ws] *)

Section SubSpaces.
Context `{CaseOps}.

Lemma reps_space_last (icase : bool) (p : nat) (s : ustr) cs :
  last (reps icase CSpace p s cs)
  = Some (MState (p + span_ws s) (drop (span_ws s) s) cs).
Proof.
  revert p. induction s as [|c r IH]; intros p; simpl.
  - by rewrite Nat.add_0_r.
  - destruct (is_space c); simpl.
    + specialize (IH (S p)).
      destruct (reps icase CSpace (S p) r cs) eqn:Hr; [done|].
      change (last (?x :: m :: l)) with (last (m :: l)).
      rewrite IH. by rewrite Nat.add_succ_r.
    + by rewrite Nat.add_0_r.
Qed.

Lemma run_ws1_head (icase : bool) (p : nat) (s : ustr) cs :
  head (run icase ws1 (MState p s cs))
  = match s with
    | c :: r =>
        if is_space c
        then Some (MState (S p + span_ws r) (drop (span_ws r) r) cs)
        else None
    | [] => None
    end.
Proof.
  unfold ws1. simpl. rewrite head_reverse.
  destruct s as [|c r]; simpl; [done|].
  destruct (is_space c); [|done].
  rewrite drop_0. apply reps_space_last.
Qed.

Lemma sub_go_ws1 (icase : bool) (s : ustr) :
  forall p,
    sub_go icase ws1 [32] 0 p s = collapse_go false s
    /\ sub_go icase ws1 [32] (span_ws s) p s = collapse_go true s.
Proof.
  induction s as [|c r IH]; intros p.
  - split; reflexivity.
  - assert (H0 : sub_go icase ws1 [32] 0 p (c :: r) = collapse_go false (c :: r)).
    { cbn [sub_go collapse_go].
      pose proof (run_ws1_head icase p (c :: r) []) as Hh.
      destruct (run icase ws1 (MState p (c :: r) [])) as [|st l] eqn:Hrun;
        cbn [head] in Hh; destruct (is_space c) eqn:Hc; try discriminate.
      - f_equal. apply IH.
      - injection Hh as ->. cbn [pos].
        match goal with
        | |- context [(?a =? ?b)%nat] => destruct (Nat.eqb_spec a b); [lia|]
        end.
        match goal with
        | |- context [sub_go _ _ _ ?k _ _] =>
            replace k with (span_ws r) by lia
        end.
        cbn [app]. f_equal. apply IH. }
    split; [exact H0|].
    cbn [span_ws]. destruct (is_space c) eqn:Hc.
    + cbn [sub_go collapse_go]. rewrite Hc. apply IH.
    + rewrite H0. cbn [collapse_go]. by rewrite Hc.
Qed.

Lemma re_sub_ws1 (icase : bool) (s : ustr) :
  re_sub icase ws1 [32] s = collapse_ws s.
Proof. apply sub_go_ws1. Qed.

End SubSpaces.

(** ** The text normalizer *)

Ltac bool_to_prop :=
  repeat match goal with
    | H : (_ || _) = true |- _ => apply orb_prop in H as [H|H]
    | H : (_ && _) = true |- _ => apply andb_prop in H as [? ?]
    | H : (_ <=? _) = true |- _ => apply N.leb_le in H
    | H : (_ <=? _) = false |- _ => apply N.leb_gt in H
    | H : (_ =? _) = true |- _ => apply N.eqb_eq in H
    | H : (_ =? _) = false |- _ => apply N.eqb_neq in H
    | H : negb _ = true |- _ => apply negb_true_iff in H
    | H : (_ && _) = false |- _ => apply andb_false_iff in H as [H|H]
    | H : negb _ = false |- _ => apply negb_false_iff in H
    end.

Lemma is_space_range (c : N) :
  is_space c = true -> c <= 32 \/ c = 133 \/ c = 160 \/ 5760 <= c.
Proof. unfold is_space. intros Hs. bool_to_prop; lia. Qed.

Lemma is_space_low (c : N) : is_space c = true -> 65 <= c -> c < 5760 ->
  c = 133 \/ c = 160.
Proof. intros Hs%is_space_range. lia. Qed.

Lemma lower_cp_spec (c : N) :
  ((65 <= c <= 90 \/ (192 <= c <= 222 /\ c <> 215)
    \/ (913 <= c <= 939 /\ c <> 930) \/ 1040 <= c <= 1071)
   /\ lower_cp c = c + 32)
  \/ (1024 <= c <= 1039 /\ lower_cp c = c + 80)
  \/ ((c < 65 \/ 90 < c) /\ (c < 192 \/ 222 < c \/ c = 215)
      /\ (c < 913 \/ 939 < c \/ c = 930)
      /\ (c < 1024 \/ 1071 < c) /\ lower_cp c = c).
Proof.
  unfold lower_cp. repeat case_match; bool_to_prop;
    first [ left; split; [lia|done]
          | right; left; split; [lia|done]
          | right; right; repeat split; (lia || done) ].
Qed.

Lemma lower_cp_space (c : N) : is_space (lower_cp c) = is_space c.
Proof.
  destruct (lower_cp_spec c) as [[Hc He]|[[Hc He]|(_ & _ & _ & _ & ->)]];
    [| |done];
    destruct (is_space c) eqn:H1, (is_space (lower_cp c)) eqn:H2; try done;
    try (apply is_space_low in H1; lia);
    apply is_space_low in H2; lia.
Qed.

Lemma lower_cp_idem (c : N) : lower_cp (lower_cp c) = lower_cp c.
Proof.
  destruct (lower_cp_spec (lower_cp c))
    as [[Hc He]|[[Hc He]|(_ & _ & _ & _ & ->)]]; [| |done];
    destruct (lower_cp_spec c)
      as [[Hc' He']|[[Hc' He']|(? & ? & ? & ? & He')]];
    lia.
Qed.

Lemma lower_cp_space_id (c : N) : is_space c = true -> lower_cp c = c.
Proof.
  intros Hs.
  destruct (lower_cp_spec c) as [[Hc He]|[[Hc He]|(_ & _ & _ & _ & ->)]];
    [| |done];
    apply is_space_low in Hs; lia.
Qed.

(** The Cyrillic instance has the properties asked of [str.lower()]. *)
Lemma cyrillic_laws : @CaseLaws cyrillic_case.
Proof.
  split; unfold lower_fixed; simpl.
  - intros s. apply Forall_forall. intros x [c [-> _]]%list_elem_of_fmap_1.
    by rewrite lower_cp_idem.
  - intros s Hs. induction Hs as [|c r Hc _ IH]; [done|].
    simpl. injection Hc as Hc. by rewrite Hc, IH.
  - intros c Hs. f_equal. by apply lower_cp_space_id.
  - done.
  - done.
  - done.
  - intros s Hs. rewrite (strip_map _ lower_cp_space). by rewrite Hs.
Qed.

Lemma yo_to_ie_space (c : N) : is_space (yo_to_ie c) = is_space c.
Proof. unfold yo_to_ie. destruct (N.eqb_spec 1105 c) as [<-|]; done. Qed.

Section Normalizer.
Context `{CaseOps}.

Lemma norm_unfold (s : ustr) :
  ChatResolver.norm s = collapse_ws (map yo_to_ie (str_lower (strip s))).
Proof.
  unfold ChatResolver.norm. by rewrite re_sub_ws1, str_replace_char.
Qed.

Lemma list_ind2 (P : ustr -> Prop) :
  P [] -> (forall a, P [a]) ->
  (forall a b r, P r -> P (b :: r) -> P (a :: b :: r)) ->
  forall s, P s.
Proof.
  intros H0 H1 H2 s. cut (P s /\ forall a, P (a :: s)); [by intros []|].
  induction s as [|b r [IH1 IH2]]; [by split|].
  split; [apply IH2|]. intros a. apply H2; [done|apply IH2].
Qed.

(** The replacement step of agent.py's [norm] as a recursive function. *)
Lemma str_replace_pair (s : ustr) :
  str_replace [8212; 235] [8211; 181] s = pair_to_ie s.
Proof.
  unfold str_replace. induction s as [|a|a b r IH1 IH2] using list_ind2.
  - done.
  - simpl. by rewrite andb_false_r.
  - change (replace_go [8212; 235] [8211; 181] 0 (a :: b :: r))
      with (if (8212 =? a) && ((235 =? b) && true)
            then 8211 :: 181 :: replace_go [8212; 235] [8211; 181] 0 r
            else a :: replace_go [8212; 235] [8211; 181] 0 (b :: r)).
    change (pair_to_ie (a :: b :: r))
      with (if (a =? 8212) && (b =? 235)
            then 8211 :: 181 :: pair_to_ie r
            else a :: pair_to_ie (b :: r)).
    rewrite andb_true_r, (N.eqb_sym 8212), (N.eqb_sym 235), IH1, IH2.
    done.
Qed.

Lemma agent_norm_unfold (s : ustr) :
  Agent.norm s = collapse_ws (pair_to_ie (str_lower (strip s))).
Proof.
  unfold Agent.norm. by rewrite re_sub_ws1, str_replace_pair.
Qed.

Lemma pair_to_ie_cons (a b : N) (r : ustr) :
  pair_to_ie (a :: b :: r)
  = if (a =? 8212) && (b =? 235)
    then 8211 :: 181 :: pair_to_ie r
    else a :: pair_to_ie (b :: r).
Proof. reflexivity. Qed.

Lemma pair_to_ie_other (a : N) (r : ustr) :
  a <> 8212 -> pair_to_ie (a :: r) = a :: pair_to_ie r.
Proof.
  intros Ha. destruct r as [|b r]; [done|]. rewrite pair_to_ie_cons.
  by destruct (N.eqb_spec a 8212).
Qed.

Lemma pair_to_ie_space (a : N) (r : ustr) :
  is_space a = true -> pair_to_ie (a :: r) = a :: pair_to_ie r.
Proof. intros Ha. apply pair_to_ie_other. by intros ->. Qed.

Lemma pair_to_ie_nil (s : ustr) : pair_to_ie s = [] -> s = [].
Proof.
  destruct s as [|a [|b r]]; [done|done|]. rewrite pair_to_ie_cons.
  by destruct (_ && _).
Qed.

(** What the result begins with: the text's first character, or U+2013
    where the text begins with the pair. *)
Lemma pair_to_ie_head (s : ustr) (x : N) :
  head (pair_to_ie s) = Some x -> x = 8211 \/ head s = Some x.
Proof.
  destruct s as [|a [|b r]]; [done|by right|]. rewrite pair_to_ie_cons.
  destruct (_ && _); simpl; intros [= <-]; [by left|by right].
Qed.

Lemma pair_to_ie_elem (s : ustr) (x : N) :
  x ∈ pair_to_ie s -> x = 8211 \/ x = 181 \/ x ∈ s.
Proof.
  induction s as [|a|a b r IH1 IH2] using list_ind2.
  - by right; right.
  - by right; right.
  - rewrite pair_to_ie_cons. destruct (_ && _).
    + intros [->|[->|Hx%IH1]%elem_of_cons]%elem_of_cons;
        [by left|by right; left|].
      destruct Hx as [?|[?|?]]; [by left|by right; left|].
      right; right. by do 2 constructor.
    + intros [->|Hx%IH2]%elem_of_cons; [right; right; by constructor|].
      destruct Hx as [?|[?|?]]; [by left|by right; left|].
      right; right. by constructor.
Qed.

Lemma pair_to_ie_lstrip (s : ustr) :
  lstrip (pair_to_ie s) = pair_to_ie (lstrip s).
Proof.
  induction s as [|a r IH]; [done|].
  destruct (is_space a) eqn:Ha.
  - rewrite pair_to_ie_space by done. simpl. by rewrite Ha.
  - simpl lstrip at 2. rewrite Ha.
    destruct r as [|b r]; [simpl; by rewrite Ha|].
    rewrite pair_to_ie_cons. destruct (_ && _); simpl; by rewrite ?Ha.
Qed.

Lemma rstrip_cons_nonspace (c : N) (r : ustr) :
  is_space c = false -> rstrip (c :: r) = c :: rstrip r.
Proof. intros Hc. simpl. rewrite Hc. by destruct (rstrip r). Qed.

Lemma rstrip_head (s : ustr) (x : N) :
  head (rstrip s) = Some x -> head s = Some x.
Proof.
  destruct s as [|c r]; [done|]. simpl.
  destruct (rstrip r); [by destruct (is_space c)|done].
Qed.

Lemma pair_to_ie_rstrip (s : ustr) :
  rstrip (pair_to_ie s) = pair_to_ie (rstrip s).
Proof.
  induction s as [|a|a b r IH1 IH2] using list_ind2.
  - done.
  - simpl. by destruct (is_space a).
  - destruct (is_space a) eqn:Ha.
    + rewrite pair_to_ie_space by done.
      change (rstrip (a :: pair_to_ie (b :: r)))
        with (match rstrip (pair_to_ie (b :: r)) with
              | [] => if is_space a then [] else [a]
              | y :: r' => a :: y :: r'
              end).
      change (rstrip (a :: b :: r))
        with (match rstrip (b :: r) with
              | [] => if is_space a then [] else [a]
              | y :: r' => a :: y :: r'
              end).
      rewrite IH2, Ha. destruct (rstrip (b :: r)) as [|y r'] eqn:Hr; [done|].
      rewrite (pair_to_ie_space a) by done.
      destruct (pair_to_ie (y :: r')) eqn:Hp; [|done].
      by apply pair_to_ie_nil in Hp.
    + rewrite pair_to_ie_cons. destruct (_ && _) eqn:Hab.
      * apply andb_prop in Hab as [->%N.eqb_eq ->%N.eqb_eq].
        rewrite !rstrip_cons_nonspace by done.
        by rewrite IH1, pair_to_ie_cons.
      * rewrite !rstrip_cons_nonspace by done. rewrite IH2.
        destruct (rstrip (b :: r)) as [|y r'] eqn:Hr; [done|].
        rewrite pair_to_ie_cons.
        assert (Hy : y = b).
        { pose proof (rstrip_head (b :: r) y) as Hh. rewrite Hr in Hh.
          specialize (Hh eq_refl). by injection Hh. }
        subst y. by rewrite Hab.
Qed.

Lemma pair_to_ie_strip (s : ustr) : strip (pair_to_ie s) = pair_to_ie (strip s).
Proof. unfold strip. by rewrite pair_to_ie_lstrip, pair_to_ie_rstrip. Qed.

Lemma pair_to_ie_collapse (s : ustr) :
  forall b, pair_to_ie (collapse_go b s) = collapse_go b (pair_to_ie s).
Proof.
  induction s as [|a|a c r IH1 IH2] using list_ind2; intros b.
  - done.
  - simpl. by destruct (is_space a), b.
  - destruct (is_space a) eqn:Ha.
    + rewrite (pair_to_ie_space a) by done.
      change (collapse_go b (a :: c :: r))
        with (if is_space a
              then (if b then collapse_go true (c :: r)
                    else 32 :: collapse_go true (c :: r))
              else a :: collapse_go false (c :: r)).
      change (collapse_go b (a :: pair_to_ie (c :: r)))
        with (if is_space a
              then (if b then collapse_go true (pair_to_ie (c :: r))
                    else 32 :: collapse_go true (pair_to_ie (c :: r)))
              else a :: collapse_go false (pair_to_ie (c :: r))).
      rewrite Ha. destruct b; [apply IH2|].
      rewrite (pair_to_ie_space 32) by done. by rewrite IH2.
    + change (collapse_go b (a :: c :: r))
        with (if is_space a
              then (if b then collapse_go true (c :: r)
                    else 32 :: collapse_go true (c :: r))
              else a :: collapse_go false (c :: r)).
      rewrite Ha, pair_to_ie_cons.
      destruct (is_space c) eqn:Hc.
      * assert (Hn : (a =? 8212) && (c =? 235) = false).
        { destruct (N.eqb_spec c 235) as [->|]; [done|apply andb_false_r]. }
        rewrite Hn. simpl collapse_go at 2. rewrite Ha, <- IH2.
        simpl collapse_go. rewrite Hc.
        destruct (N.eqb_spec a 8212) as [->|Hne].
        -- by rewrite pair_to_ie_cons.
        -- by rewrite (pair_to_ie_other a) by done.
      * simpl collapse_go at 1. rewrite Hc, pair_to_ie_cons.
        destruct ((a =? 8212) && (c =? 235)).
        -- simpl. by rewrite IH1.
        -- simpl collapse_go at 2. rewrite Ha, <- IH2. simpl. by rewrite Hc.
Qed.

Lemma pair_to_ie_idem (s : ustr) : pair_to_ie (pair_to_ie s) = pair_to_ie s.
Proof.
  induction s as [|a|a b r IH1 IH2] using list_ind2; [done|done|].
  rewrite pair_to_ie_cons. destruct (_ && _) eqn:Hab.
  - rewrite !pair_to_ie_other by done. by rewrite IH1.
  - destruct (pair_to_ie (b :: r)) as [|y t] eqn:Hp.
    { by apply pair_to_ie_nil in Hp. }
    assert (Hy : y = 8211 \/ y = b).
    { destruct (pair_to_ie_head (b :: r) y) as [?|[= ?]];
        [by rewrite Hp|by left|by right]. }
    assert (Hn : (a =? 8212) && (y =? 235) = false).
    { destruct Hy as [-> | ->]; [apply andb_false_r|done]. }
    by rewrite pair_to_ie_cons, Hn, IH2.
Qed.

Context `{!CaseLaws}.

(** A normalized string is trimmed, in lowercase and free of U+0451. *)
Lemma norm_shape (s : ustr) :
  let r := ChatResolver.norm s in
  strip r = r /\ Forall lower_fixed r /\ Forall (fun c => c <> 1105) r.
Proof.
  intros r. subst r. rewrite norm_unfold.
  set (y := str_lower (strip s)).
  assert (Hy : strip y = y) by (apply lower_trim, strip_idem).
  split; [|split].
  - rewrite strip_collapse, (strip_map _ yo_to_ie_space). by rewrite Hy.
  - apply Forall_forall. intros x [->|Hx]%collapse_elem.
    + by apply lower_space.
    + apply list_elem_of_fmap_1 in Hx as [c [-> Hc]].
      unfold yo_to_ie. destruct (1105 =? c); [apply lower_ie|].
      pose proof (lower_out (strip s)) as Ho.
      rewrite Forall_forall in Ho. by apply Ho.
  - apply Forall_forall. intros x [->|Hx]%collapse_elem; [done|].
    apply list_elem_of_fmap_1 in Hx as [c [-> Hc]].
    unfold yo_to_ie. destruct (N.eqb_spec 1105 c); [done|congruence].
Qed.

Lemma yo_to_ie_id (s : ustr) :
  Forall (fun c => c <> 1105) s -> map yo_to_ie s = s.
Proof.
  induction 1 as [|c r Hc _ IH]; [done|]. simpl. rewrite IH. f_equal.
  unfold yo_to_ie. destruct (N.eqb_spec 1105 c); congruence.
Qed.

(** C8.  The text normalizer is idempotent: normalizing a normalized
    string changes nothing, for [norm] of utils/chat_resolver.py, which
    replaces U+0451 by U+0435, and for [norm] of agent.py, which replaces
    the pair U+2014 U+00EB by the pair U+2013 U+00B5 and keeps U+0451. *)
Theorem norm_idempotent (s : ustr) :
  ChatResolver.norm (ChatResolver.norm s) = ChatResolver.norm s
  /\ Agent.norm (Agent.norm s) = Agent.norm s.
Proof.
  assert (Hn : ChatResolver.norm (ChatResolver.norm s) = ChatResolver.norm s).
  { destruct (norm_shape s) as (Ht & Hl & Hy).
    rewrite (norm_unfold (ChatResolver.norm s)).
    rewrite Ht, (lower_id _ Hl), (yo_to_ie_id _ Hy).
    rewrite norm_unfold. apply collapse_ws_idem. }
  split; [exact Hn|].
  rewrite (agent_norm_unfold (Agent.norm s)), agent_norm_unfold.
  set (y := str_lower (strip s)).
  assert (Hy : strip y = y) by (apply lower_trim, strip_idem).
  assert (Ht : strip (collapse_ws (pair_to_ie y)) = collapse_ws (pair_to_ie y))
    by (by rewrite strip_collapse, pair_to_ie_strip, Hy).
  assert (Hl : Forall lower_fixed (collapse_ws (pair_to_ie y))).
  { apply Forall_forall. intros x [->|Hx]%collapse_elem.
    - by apply lower_space.
    - apply pair_to_ie_elem in Hx as [->|[->|Hx]];
        [apply lower_dash|apply lower_micro|].
      pose proof (lower_out (strip s)) as Ho.
      rewrite Forall_forall in Ho. by apply Ho. }
  rewrite Ht, (lower_id _ Hl). unfold collapse_ws.
  rewrite pair_to_ie_collapse, pair_to_ie_idem. apply collapse_idem.
Qed.

End Normalizer.

Lemma norm_idempotent_witness :
  ChatResolver.norm (ChatResolver.norm (U "  Ёлка   И  ЕЖ "))
  = ChatResolver.norm (U "  Ёлка   И  ЕЖ ")
  /\ Agent.norm (Agent.norm (U "  Ёлка   И  ЕЖ "))
     = Agent.norm (U "  Ёлка   И  ЕЖ ").
Proof. exact (@norm_idempotent cyrillic_case cyrillic_laws (U "  Ёлка   И  ЕЖ ")). Defined.

(** ** The alias map *)

Section AliasMap.
Context `{CaseOps}.

Lemma add_aliases_hit (c : ustr) (aliases : list ustr)
    (m : gmap ustr ustr) (k : ustr) :
  m !! k = Some c -> ChatResolver.add_aliases c aliases m !! k = Some c.
Proof.
  unfold ChatResolver.add_aliases. revert m.
  induction aliases as [|a l IH]; intros m Hm; [done|].
  simpl. apply IH. destruct (decide (ChatResolver.norm a = k)) as [->|Hne].
  - by rewrite lookup_insert_eq.
  - by rewrite lookup_insert_ne.
Qed.

Lemma add_aliases_miss (c : ustr) (aliases : list ustr)
    (m : gmap ustr ustr) (k : ustr) :
  Forall (fun a => ChatResolver.norm a <> k) aliases ->
  ChatResolver.add_aliases c aliases m !! k = m !! k.
Proof.
  unfold ChatResolver.add_aliases. intros Hall. revert m.
  induction Hall as [|a l Ha _ IH]; intros m; [done|].
  simpl. rewrite IH. by rewrite lookup_insert_ne.
Qed.

Lemma build_step_miss (k : ustr) (it : item) acc :
  leaves_key k it -> (ChatResolver.build_step acc it).1 !! k = acc.1 !! k.
Proof.
  unfold leaves_key, ChatResolver.build_step. destruct acc as [m rim].
  destruct (default [] (item_canonical it)) as [|x c']; [done|].
  intros [Hc Ha]. simpl. rewrite add_aliases_miss by done.
  by rewrite lookup_insert_ne.
Qed.

Lemma build_fold_miss (k : ustr) (post : list item) acc :
  Forall (leaves_key k) post ->
  (fold_left ChatResolver.build_step post acc).1 !! k = acc.1 !! k.
Proof.
  intros Hall. revert acc.
  induction Hall as [|it l Hit _ IH]; intros acc; [done|].
  simpl. rewrite IH. by apply build_step_miss.
Qed.

(** C2, amended.  An entry's non-empty canonical name resolves to itself
    provided no entry loaded after it has a canonical name or an alias
    with the same normalized key. *)
Theorem self_alias_unless_overridden
    (pre post : list item) (it : item) (c : ustr) :
  item_canonical it = Some c ->
  c <> [] ->
  Forall (leaves_key (ChatResolver.norm c)) post ->
  ChatResolver.resolve_chat
    c (ChatResolver.build_alias_map (pre ++ it :: post)).1 = Some c.
Proof.
  intros Hc Hne Hpost.
  unfold ChatResolver.resolve_chat, ChatResolver.build_alias_map.
  rewrite fold_left_app. simpl. rewrite build_fold_miss by done.
  unfold ChatResolver.build_step at 1.
  destruct (fold_left ChatResolver.build_step pre (∅, ∅)) as [m rim].
  rewrite Hc. simpl. destruct c as [|x c]; [done|].
  simpl. apply add_aliases_hit. by rewrite lookup_insert_eq.
Qed.

End AliasMap.

Lemma self_alias_unless_overridden_witness :
  ChatResolver.resolve_chat
    (U "Смета фин")
    (ChatResolver.build_alias_map ([smeta] ++ smeta_fin :: [izbrannoe])).1
  = Some (U "Смета фин").
Proof.
  apply (self_alias_unless_overridden [smeta] [izbrannoe] smeta_fin
                                      (U "Смета фин")).
  - reflexivity.
  - discriminate.
  - constructor; [|constructor].
    split; [by vm_compute|]. repeat constructor; by vm_compute.
Defined.

(** C2 as stated fails: a later entry whose alias normalizes to the key of
    an earlier canonical name takes the key over. *)
Lemma self_alias_counterexample :
  smeta ∈ [smeta; smeta_fin]
  /\ item_canonical smeta = Some (U "Смета")
  /\ U "Смета" <> []
  /\ ChatResolver.resolve_chat
       (U "Смета") (ChatResolver.build_alias_map [smeta; smeta_fin]).1
     = Some (U "Смета фин")
  /\ Some (U "Смета фин") <> Some (U "Смета").
Proof.
  split; [by constructor|]. split; [reflexivity|]. split; [discriminate|].
  split; [by vm_compute|discriminate].
Qed.

(** ** The daemon call *)

Section HsCall.
#[local] Opaque raw_limit.
Variable daemon : list jval -> jval -> post_result.
Variable hammer_url : ustr.

Lemma hs_call_trace (payload : jval) (tr : list jval) :
  (Agent.hs_call daemon hammer_url payload tr).2 = tr ++ [payload].
Proof.
  unfold Agent.hs_call, io_bind, try_except, session_post, io_ret.
  destruct (daemon tr payload) as [e|r]; simpl; [done|].
  destruct (negb (status_code r =? 200)%Z); simpl; [done|].
  unfold response_json. by destruct (json r).
Qed.

Lemma hs_call_returns (payload : jval) (tr : list jval) :
  exists v, (Agent.hs_call daemon hammer_url payload tr).1 = Ok v.
Proof.
  unfold Agent.hs_call, io_bind, try_except, session_post, io_ret.
  destruct (daemon tr payload) as [e|r]; simpl; [by eexists|].
  destruct (negb (status_code r =? 200)%Z); simpl; [by eexists|].
  unfold response_json. destruct (json r); by eexists.
Qed.

Lemma hs_call_ack (payload : jval) (tr : list jval) :
  exists v,
    Agent.hs_call daemon hammer_url payload tr = (Ok v, tr ++ [payload])
    /\ succeeded v = acknowledged daemon tr payload.
Proof.
  unfold Agent.hs_call, acknowledged, io_bind, try_except, session_post, io_ret.
  destruct (daemon tr payload) as [e|r]; simpl; [by eexists|].
  destruct (status_code r =? 200)%Z; simpl; [|by eexists].
  unfold response_json. destruct (json r) as [v|]; [|by eexists].
  exists v. split; [done|]. by destruct v.
Qed.

(** C9.  [hs_call] never raises; when the request raises, the status is
    not 200 or the body is not JSON it returns a dictionary with
    [ok: false], and the body it reports under [raw] (in the last two
    cases) is cut to at most 5000 characters. *)
Theorem hs_call_never_raises (payload : jval) (tr : list jval) :
  (exists v, (Agent.hs_call daemon hammer_url payload tr).1 = Ok v)
  /\ (transport_failed (daemon tr payload) = true ->
      exists d,
        (Agent.hs_call daemon hammer_url payload tr).1 = Ok (JDict d)
        /\ dict_get "ok" d = Some (JBool false)
        /\ match daemon tr payload with
           | PostRaised _ => dict_get "raw" d = None
           | PostReturned r =>
               exists raw,
                 dict_get "raw" d = Some (JStr raw)
                 /\ raw = take raw_limit (text r)
                 /\ (length raw <= raw_limit)%nat
           end).
Proof.
  unfold Agent.hs_call, io_bind, try_except, session_post, io_ret,
    transport_failed.
  destruct (daemon tr payload) as [e|r]; simpl.
  - split; [by eexists|]. intros _. eexists. by repeat split.
  - destruct (negb (status_code r =? 200)%Z); simpl.
    + split; [by eexists|]. intros _. eexists. repeat split.
      eexists. repeat split. rewrite length_take. apply Nat.le_min_l.
    + unfold response_json. destruct (json r) as [v|]; simpl.
      * split; [by eexists|]. discriminate.
      * split; [by eexists|]. intros _. eexists. repeat split.
        eexists. repeat split. rewrite length_take. apply Nat.le_min_l.
Qed.

End HsCall.

Lemma hs_call_never_raises_witness :
  exists d,
    (Agent.hs_call broken_daemon (U "http://127.0.0.1:7733")
                   (JDict [("cmd", JStr (U "paste")); ("draft", JBool true)])
                   []).1 = Ok (JDict d)
    /\ dict_get "ok" d = Some (JBool false)
    /\ exists raw,
         dict_get "raw" d = Some (JStr raw)
         /\ raw = take raw_limit (repeat 97 (N.to_nat 6000))
         /\ (length raw <= raw_limit)%nat.
Proof.
  apply (proj2 (hs_call_never_raises
                  broken_daemon (U "http://127.0.0.1:7733")
                  (JDict [("cmd", JStr (U "paste")); ("draft", JBool true)])
                  [])).
  reflexivity.
Defined.

(** ** The dispatcher *)

Section Dispatcher.
Context `{CaseOps}.
Variable daemon : list jval -> jval -> post_result.
Variable hammer_url : ustr.

(** C1.  A command whose target has no entry in the alias map is rejected
    when the whitelist is enforced: the result is a failure and the list of
    requests sent to the daemon is unchanged.  This holds for
    [execute_command] of agent.py and for [CommandExecutor.execute]. *)
Theorem unresolved_target_no_daemon_call :
  (forall (tracked : list item) (user_text : ustr) intent_ (target_ : ustr) msg
          (tr : list jval),
      Agent.parse_command user_text = (intent_, Some target_, msg) ->
      Agent.resolve_chat target_ (Agent.build_alias_map tracked).1 = None ->
      Agent.execute_command daemon hammer_url (Some tracked) false user_text tr
      = (Ok false, tr))
  /\ (forall (drivers : gmap string driver_config) (pc : ParsedCommand)
             (alias_map : gmap ustr ustr)
             (result_index_map : gmap ustr (option Z)) (tr : list jval),
        ChatResolver.resolve_chat (default [] (target pc)) alias_map = None ->
        Executor.execute daemon hammer_url drivers pc alias_map
                         result_index_map false tr
        = (Ok false, tr)).
Proof.
  split.
  - intros tracked user_text i t m tr Hp Hr.
    unfold Agent.execute_command, Agent.run_parsed. rewrite Hp.
    destruct i as [[|a i]|]; [done| |done].
    destruct (Agent.build_alias_map tracked) as [am rim]. simpl in Hr |- *.
    unfold Agent.whitelist_gate. by rewrite Hr.
  - intros drivers pc am rim tr Hr. unfold Executor.execute.
    destruct (Executor.get_driver hammer_url drivers (driver pc)); [|done].
    by rewrite Hr.
Qed.

End Dispatcher.

Section AgentAliasMap.
Context `{CaseOps}.

Lemma agent_add_aliases_nonempty (c : ustr) (aliases : list ustr)
    (m : gmap ustr ustr) :
  c <> [] -> nonempty_values m ->
  nonempty_values (Agent.add_aliases c aliases m).
Proof.
  intros Hc. unfold Agent.add_aliases. revert m.
  induction aliases as [|a l IH]; intros m Hm; [done|].
  simpl. apply IH. destruct (Agent.norm a) as [|x a_n]; [done|].
  intros k v. destruct (decide (x :: a_n = k)) as [->|Hne].
  - rewrite lookup_insert_eq. by intros [= <-].
  - rewrite lookup_insert_ne by done. apply Hm.
Qed.

Lemma agent_build_step_nonempty acc (it : item) :
  nonempty_values acc.1 -> nonempty_values (Agent.build_step acc it).1.
Proof.
  destruct acc as [m rim]. unfold Agent.build_step.
  destruct (default [] (item_canonical it)) as [|x c] eqn:Hc; [done|].
  intros Hm. simpl. apply agent_add_aliases_nonempty; [done|].
  intros k v. destruct (decide (Agent.norm (x :: c) = k)) as [->|Hne].
  - rewrite lookup_insert_eq. by intros [= <-].
  - rewrite lookup_insert_ne by done. apply Hm.
Qed.

(** The canonical names stored in the alias map are never empty. *)
Lemma agent_alias_map_nonempty (tracked : list item) :
  nonempty_values (Agent.build_alias_map tracked).1.
Proof.
  unfold Agent.build_alias_map.
  assert (Hi : nonempty_values (∅ : gmap ustr ustr, ∅ : gmap ustr (option Z)).1)
    by (intros k v; simpl; by rewrite lookup_empty).
  revert Hi. generalize (∅ : gmap ustr ustr, ∅ : gmap ustr (option Z)).
  induction tracked as [|it l IH]; intros acc Hacc; [done|].
  simpl. apply IH. by apply agent_build_step_nonempty.
Qed.

(** A fixed index stored for a canonical name was configured by an entry
    with that canonical name. *)
Lemma agent_index_configured (tracked : list item) (c : ustr) (ri : option Z) :
  (Agent.build_alias_map tracked).2 !! c = Some ri ->
  exists it, it ∈ tracked /\ item_canonical it = Some c
             /\ item_result_index it = Some ri.
Proof.
  unfold Agent.build_alias_map.
  induction tracked as [|it l IH] using rev_ind.
  - simpl. by rewrite lookup_empty.
  - rewrite fold_left_app. simpl. unfold Agent.build_step at 1.
    destruct (fold_left Agent.build_step l (∅, ∅)) as [m rim].
    assert (Hold : rim !! c = Some ri ->
                   exists it0, it0 ∈ l ++ [it] /\ item_canonical it0 = Some c
                               /\ item_result_index it0 = Some ri).
    { intros (it0 & Hin & ?)%IH. exists it0. split; [|done].
      apply elem_of_app. by left. }
    destruct (item_canonical it) as [[|x cn]|] eqn:Hc; simpl; try done.
    destruct (item_result_index it) as [ri'|] eqn:Hri; [|done].
    destruct (decide (x :: cn = c)) as [<-|Hne].
    + rewrite lookup_insert_eq. intros [= <-]. exists it.
      split; [|done]. apply elem_of_app. right. by constructor.
    + by rewrite lookup_insert_ne.
Qed.

End AgentAliasMap.

Lemma paste_text_stored_parsed :
  Agent.parse_command paste_text_stored
  = (Some "paste_to_chat", Some izbrannoe_stored, None).
Proof. by vm_compute. Qed.

(** C5.  agent.py does not recognise "отправь из буфера в избранное": its
    patterns are stored in a re-encoded spelling, so [parse_command]
    returns nothing for the text and [execute_command] sends no request.
    The Telegram parser, whose patterns are Cyrillic, returns the paste
    intent with target "избранное" and no message.  agent.py accepts the
    same command in the stored spelling, and then sends [open_chat]
    first and, only if the daemon acknowledges it, [paste] with [draft]
    true second, and nothing else. *)
Theorem paste_scenario_not_recognised
    (daemon : list jval -> jval -> post_result) (hammer_url : ustr)
    (tracked_file : option (list item)) (disable_whitelist : bool)
    (tr : list jval) :
  Agent.parse_command paste_text = (None, None, None)
  /\ Agent.execute_command daemon hammer_url tracked_file disable_whitelist
                           paste_text tr
     = (Ok false, tr)
  /\ TelegramParser.parse "telegram" paste_text
     = Some {| intent := "paste_to_chat"; target := Some (U "избранное");
               message := None; driver := "telegram" |}
  /\ Agent.parse_command paste_text_stored
     = (Some "paste_to_chat", Some izbrannoe_stored, None)
  /\ let open_request :=
       JDict [("cmd", JStr (U "open_chat")); ("query", JStr izbrannoe_stored);
              ("auto_select", JBool true); ("result_index", JInt 0)] in
     (Agent.execute_command daemon hammer_url (Some []) true
                            paste_text_stored tr).2
     = tr ++ open_request
          :: (if acknowledged daemon tr open_request
              then [JDict [("cmd", JStr (U "paste")); ("draft", JBool true)]]
              else []).
Proof.
  assert (Hp : Agent.parse_command paste_text = (None, None, None))
    by (by vm_compute).
  split; [exact Hp|]. split.
  { unfold Agent.execute_command. by rewrite Hp. }
  split; [by vm_compute|]. split; [apply paste_text_stored_parsed|].
  intros open_request.
  unfold Agent.execute_command. rewrite paste_text_stored_parsed.
  unfold Agent.run_parsed.
  change (Agent.build_alias_map []) with ((∅, ∅) : gmap ustr ustr * gmap ustr (option Z)).
  cbn [default].
  assert (Hg : Agent.whitelist_gate true ∅ ∅ izbrannoe_stored
               = Some (izbrannoe_stored, Some 0%Z)) by (by vm_compute).
  change (id izbrannoe_stored) with izbrannoe_stored. rewrite Hg.
  change (Agent.open_chat_payload izbrannoe_stored (Some 0%Z))
    with open_request.
  unfold io_bind at 1.
  destruct (hs_call_ack daemon hammer_url open_request tr) as (v & -> & Hs).
  rewrite <- Hs. unfold io_bind at 1, Agent.get_ok, succeeded.
  destruct v as [| | | | |d]; try done.
  unfold io_ret at 1.
  destruct (truthy (default (JBool false) (dict_get "ok" d))); [|done].
  simpl. unfold io_bind at 1.
  destruct (hs_call_ack daemon hammer_url
              (JDict [("cmd", JStr (U "paste")); ("draft", JBool true)])
              (tr ++ [open_request])) as (v2 & -> & _).
  unfold io_bind, Agent.get_ok, io_ret, io_raise.
  rewrite <- app_assoc. by destruct v2.
Qed.

(** Opening a chat without sending anything issues one request. *)
Lemma run_open_only
    (daemon : list jval -> jval -> post_result) (hammer_url : ustr)
    (tracked : list item) (disable_whitelist : bool)
    (target_ canonical : ustr) (result_index : option Z) (tr : list jval) :
  Agent.whitelist_gate disable_whitelist
                       (Agent.build_alias_map tracked).1
                       (Agent.build_alias_map tracked).2 target_
  = Some (canonical, result_index) ->
  (Agent.run_parsed daemon hammer_url (Some tracked) disable_whitelist
                    (Some "open_chat_only", Some target_, None) tr).2
  = tr ++ [Agent.open_chat_payload canonical result_index].
Proof.
  intros Hg. unfold Agent.run_parsed.
  destruct (Agent.build_alias_map tracked) as [am rim].
  cbn [fst snd default] in Hg |- *. change (id target_) with target_.
  rewrite Hg. unfold io_bind at 1.
  pose proof (hs_call_trace daemon hammer_url
                (Agent.open_chat_payload canonical result_index) tr) as Htr.
  destruct (hs_call_returns daemon hammer_url
              (Agent.open_chat_payload canonical result_index) tr)
    as [v Hv].
  destruct (Agent.hs_call daemon hammer_url
              (Agent.open_chat_payload canonical result_index) tr) as [o tr1].
  simpl in Hv, Htr. subst o tr1.
  unfold io_bind, Agent.get_ok, io_ret, io_raise.
  destruct v as [| | | | |d]; try done.
  by destruct (truthy (default (JBool false) (dict_get "ok" d))).
Qed.

(** C6.  With the single entry "Максим Ершов" (alias "Максим", no
    [result_index] key) the target "Максим" resolves to "Максим Ершов",
    no index is stored for it, and the [open_chat] request carries no
    [result_index] field.  In general the request of a resolved target
    carries [result_index] only with a value that an entry of that
    canonical name configures. *)
Theorem maksim_scenario
    (daemon : list jval -> jval -> post_result) (hammer_url : ustr)
    (tr : list jval) :
  ChatResolver.resolve_chat (U "Максим") (ChatResolver.build_alias_map [maksim]).1
  = Some (U "Максим Ершов")
  /\ (ChatResolver.build_alias_map [maksim]).2 !! U "Максим Ершов" = None
  /\ Agent.resolve_chat (U "Максим") (Agent.build_alias_map [maksim]).1
     = Some (U "Максим Ершов")
  /\ Agent.whitelist_gate false (Agent.build_alias_map [maksim]).1
                          (Agent.build_alias_map [maksim]).2 (U "Максим")
     = Some (U "Максим Ершов", None)
  /\ (Agent.run_parsed daemon hammer_url (Some [maksim]) false
                       (Some "open_chat_only", Some (U "Максим"), None) tr).2
     = tr ++ [JDict [("cmd", JStr (U "open_chat"));
                     ("query", JStr (U "Максим Ершов"));
                     ("auto_select", JBool true)]]
  /\ (forall (tracked : list item) (c : ustr) (d : list (string * jval))
             (v : jval),
        Agent.open_chat_payload
          c (mjoin ((Agent.build_alias_map tracked).2 !! c)) = JDict d ->
        dict_get "result_index" d = Some v ->
        exists (it : item) (i : Z),
          v = JInt i /\ it ∈ tracked /\ item_canonical it = Some c
          /\ item_result_index it = Some (Some i)).
Proof.
  do 4 (split; [by vm_compute|]). split.
  - by rewrite (run_open_only daemon hammer_url [maksim] false (U "Максим")
                              (U "Максим Ершов") None tr) by (by vm_compute).
  - intros tracked c d v Hp Hd.
    destruct ((Agent.build_alias_map tracked).2 !! c) as [[i|]|] eqn:Hl;
      simpl in Hp; injection Hp as <-; try discriminate Hd.
    simpl in Hd. injection Hd as <-.
    apply agent_index_configured in Hl as (it & ? & ? & ?).
    by exists it, i.
Qed.

Lemma maksim_scenario_witness :
  exists (it : item) (i : Z),
    JInt 0 = JInt i /\ it ∈ [maksim; izbrannoe]
    /\ item_canonical it = Some (U "Избранное")
    /\ item_result_index it = Some (Some i).
Proof.
  apply (proj2 (proj2 (proj2 (proj2 (proj2
           (maksim_scenario healthy_daemon local_url [])))))
           [maksim; izbrannoe] (U "Избранное")
           [("cmd", JStr (U "open_chat")); ("query", JStr (U "Избранное"));
            ("auto_select", JBool true); ("result_index", JInt 0)]
           (JInt 0)).
  - by vm_compute.
  - reflexivity.
Defined.

(** The text given to agent.py is "напиши в бот поддержки: привет" in the
    stored spelling. *)
Lemma unresolved_target_no_daemon_call_witness :
  Agent.execute_command healthy_daemon local_url (Some [smeta; izbrannoe]) false
    (U "–Ω–∞–ø–∏—à–∏ –≤ –±–æ—Ç –ø–æ–¥–¥–µ—Ä–∂–∫–∏: –ø—Ä–∏–≤–µ—Ç") []
  = (Ok false, [])
  /\ Executor.execute healthy_daemon local_url telegram_only
       {| intent := "send_message"; target := Some (U "бот поддержки");
          message := Some (U "привет"); driver := "telegram" |}
       (ChatResolver.build_alias_map [smeta; izbrannoe]).1
       (ChatResolver.build_alias_map [smeta; izbrannoe]).2 false []
     = (Ok false, []).
Proof.
  split.
  - apply (proj1 (unresolved_target_no_daemon_call healthy_daemon local_url)
                 [smeta; izbrannoe]
                 (U "–Ω–∞–ø–∏—à–∏ –≤ –±–æ—Ç –ø–æ–¥–¥–µ—Ä–∂–∫–∏: –ø—Ä–∏–≤–µ—Ç")
                 (Some "type_to_chat"%string)
                 (U "–±–æ—Ç –ø–æ–¥–¥–µ—Ä–∂–∫–∏")
                 (Some (U "–ø—Ä–∏–≤–µ—Ç")) []); by vm_compute.
  - apply (proj2 (unresolved_target_no_daemon_call healthy_daemon local_url)).
    by vm_compute.
Defined.

(** ** The line matcher *)

Section Matcher.
Context `{CaseOps}.

Lemma strategy2_sound (t : ustr) (lines : list ustr) (i j : nat) :
  OcrFindChat.strategy2 t i lines = Some j ->
  exists line,
    lines !! (j - i)%nat = Some line /\ (i <= j)%nat
    /\ (contains t (OcrFindChat.normalize_text line)
        || contains (OcrFindChat.normalize_text line) t) = true
    /\ (OcrFindChat.len_diff (OcrFindChat.normalize_text line) t <= 2)%Z.
Proof.
  revert i. induction lines as [|l ls IH]; intros i; simpl; [done|].
  destruct (_ && _) eqn:Hc.
  - intros [= <-]. exists l. rewrite Nat.sub_diag.
    apply andb_prop in Hc as [Hc Hd]. apply Z.leb_le in Hd. done.
  - intros (line & Hl & Hle & ?)%IH. exists line.
    replace (j - i)%nat with (S (j - S i)) by lia. split; [done|].
    split; [lia|done].
Qed.

Lemma strategy3_sound (t : ustr) (lines : list ustr) (i : nat)
    (best : Z) (bs : Q) :
  OcrFindChat.strategy3 t i lines best bs = best
  \/ exists (j : nat) line,
       OcrFindChat.strategy3 t i lines best bs = Z.of_nat (i + j)
       /\ lines !! j = Some line
       /\ OcrFindChat.Qgt_b (OcrFindChat.score t line) (7 # 10) = true.
Proof.
  revert i best bs. induction lines as [|l ls IH]; intros i best bs; simpl.
  - by left.
  - destruct (_ && _) eqn:Hc.
    + apply andb_prop in Hc as [_ Hc].
      destruct (IH (S i) (Z.of_nat i) (OcrFindChat.score t l))
        as [->|(j & line & -> & ? & ?)].
      * right. exists 0%nat, l. by rewrite Nat.add_0_r.
      * right. exists (S j), line. split; [f_equal; lia|done].
    + destruct (IH (S i) best bs) as [->|(j & line & -> & ? & ?)].
      * by left.
      * right. exists (S j), line. split; [f_equal; lia|done].
Qed.

End Matcher.

(** C7.  For the lines "Иван Петров", "Мария Смета" and the target "смета":
    no line equals the target; the second line contains it but is 6
    characters longer, so the containment tier, which accepts a length
    difference of at most 2, selects nothing; the character-overlap scores
    are 3/5 and 5/5, the second is above 0.7, and the matcher returns
    index 1.  In general the containment tier returns only lines within a
    length difference of 2, and the overlap tier returns only lines whose
    score is above 0.7, the index it started with otherwise. *)
Theorem smeta_scenario :
  let t := OcrFindChat.normalize_text (U "смета") in
  OcrFindChat.strategy1 t 0 search_results = None
  /\ OcrFindChat.strategy2 t 0 search_results = None
  /\ contains t (OcrFindChat.normalize_text (U "Мария Смета")) = true
  /\ OcrFindChat.len_diff (OcrFindChat.normalize_text (U "Мария Смета")) t = 6%Z
  /\ OcrFindChat.score t (U "Иван Петров") = (3 # 5)%Q
  /\ OcrFindChat.score t (U "Мария Смета") = (5 # 5)%Q
  /\ OcrFindChat.Qgt_b (5 # 5) (7 # 10) = true
  /\ OcrFindChat.strategy3 t 0 search_results (-1) 0 = 1%Z
  /\ OcrFindChat.find_chat search_results (U "смета") = 1%Z
  /\ (forall (lines : list ustr) (tn : ustr) (j : nat),
        OcrFindChat.strategy2 tn 0 lines = Some j ->
        exists line,
          lines !! j = Some line
          /\ (OcrFindChat.len_diff (OcrFindChat.normalize_text line) tn <= 2)%Z)
  /\ (forall (lines : list ustr) (tn : ustr),
        OcrFindChat.strategy3 tn 0 lines (-1) 0 = (-1)%Z
        \/ exists (j : nat) line,
             OcrFindChat.strategy3 tn 0 lines (-1) 0 = Z.of_nat j
             /\ lines !! j = Some line
             /\ OcrFindChat.Qgt_b (OcrFindChat.score tn line) (7 # 10) = true).
Proof.
  do 9 (split; [by vm_compute|]). split.
  - intros lines tn j (line & Hl & _ & _ & Hd)%strategy2_sound.
    exists line. by rewrite Nat.sub_0_r in Hl.
  - intros lines tn. apply (strategy3_sound tn lines 0).
Qed.

Lemma smeta_scenario_witness :
  exists line,
    [U "Смета"; U "Смета фин"] !! 0%nat = Some line
    /\ (OcrFindChat.len_diff (OcrFindChat.normalize_text line)
                             (OcrFindChat.normalize_text (U "смета!")) <= 2)%Z.
Proof.
  destruct smeta_scenario as (_ & _ & _ & _ & _ & _ & _ & _ & _ & Htier2 & _).
  apply (Htier2 [U "Смета"; U "Смета фин"]
                (OcrFindChat.normalize_text (U "смета!")) 0%nat).
  by vm_compute.
Defined.

(** ** The regex engine: what a match consumes *)

Section EngineFacts.
Context `{CaseOps}.

Lemma reach_refl (st : mstate) : reach st st.
Proof. exists []. split; [done|]. simpl. lia. Qed.

Lemma reach_trans (a b c : mstate) : reach a b -> reach b c -> reach a c.
Proof.
  intros (w1 & H1 & P1) (w2 & H2 & P2). exists (w1 ++ w2).
  rewrite <- app_assoc, <- H2, H1, length_app. split; [done|lia].
Qed.

Lemma reps_lookup (icase : bool) (k : cclass) (s : ustr) :
  forall (p i : nat) cs (st' : mstate),
    reps icase k p s cs !! i = Some st' ->
    st' = MState (p + i) (drop i s) cs
    /\ (i <= length s)%nat
    /\ forallb (cmatch icase k) (take i s) = true.
Proof.
  induction s as [|c r IH]; intros p i cs st'; simpl.
  - destruct i as [|i]; [|done]. intros [= <-].
    by rewrite Nat.add_0_r.
  - destruct i as [|i]; simpl.
    + intros [= <-]. rewrite Nat.add_0_r. split; [done|]. split; [lia|done].
    + destruct (cmatch icase k c) eqn:Hc; [|done].
      intros (-> & Hle & Hall)%IH. rewrite Nat.add_succ_r.
      split; [done|]. split; [lia|].
      change (take (S i) (c :: r)) with (c :: take i r). cbn [forallb].
      by rewrite ?Hc, Hall.
Qed.

(** The states of a repetition: some [i >= min] characters, all of the
    class, were consumed. *)
Lemma run_rep (icase greedy : bool) (min : nat) (k : cclass)
    (st st' : mstate) :
  st' ∈ run icase (Rep greedy min k) st ->
  exists i, (min <= i <= length (rest st))%nat
            /\ st' = MState (pos st + i) (drop i (rest st)) (caps st)
            /\ forallb (cmatch icase k) (take i (rest st)) = true.
Proof.
  simpl. intros Hin.
  assert (Hd : st' ∈ drop min (reps icase k (pos st) (rest st) (caps st))).
  { destruct greedy; [by apply elem_of_reverse|done]. }
  apply list_elem_of_lookup in Hd as [j Hj]. rewrite lookup_drop in Hj.
  apply reps_lookup in Hj as (-> & Hle & Hall).
  exists (min + j)%nat. split; [lia|done].
Qed.

(** [$] consumes nothing and needs the rest to be empty or one newline. *)
Lemma run_eol (icase : bool) (st st' : mstate) :
  st' ∈ run icase Eol st ->
  st' = st /\ forallb is_space (rest st) = true.
Proof.
  simpl. destruct (rest st) as [|c s].
  - by intros ->%list_elem_of_singleton.
  - repeat match goal with
      | |- context [match ?x with [] => _ | _ :: _ => _ end] => destruct x
      | |- context [match ?x with N0 => _ | Npos _ => _ end] => destruct x
      | |- context [match ?q with xI _ => _ | xO _ => _ | xH => _ end] =>
          destruct q
      end; try (by intros ?%elem_of_nil).
    by intros ->%list_elem_of_singleton.
Qed.

Lemma run_reach (icase : bool) (r : regex) :
  forall st st', st' ∈ run icase r st -> reach st st'.
Proof.
  induction r as [|k|r1 IH1 r2 IH2|r1 IH1 r2 IH2|r1 IH1|g m k|n r1 IH1| |];
    intros st st'; simpl.
  - intros ->%list_elem_of_singleton. apply reach_refl.
  - destruct (rest st) as [|c s'] eqn:Hs; [by intros ?%elem_of_nil|].
    destruct (cmatch icase k c); [|by intros ?%elem_of_nil].
    intros ->%list_elem_of_singleton. exists [c]. simpl. split; [done|lia].
  - intros (mid & H2 & H1)%list_elem_of_In%in_flat_map.
    apply list_elem_of_In in H2, H1.
    eapply reach_trans; eauto.
  - intros [?|?]%elem_of_app; eauto.
  - intros [?|Hs%list_elem_of_singleton]%elem_of_app;
      [eauto|subst; apply reach_refl].
  - intros Hin. apply (run_rep icase g m k) in Hin as (i & Hi & -> & _).
    exists (take i (rest st)). simpl. rewrite take_drop, length_take.
    split; [done|lia].
  - intros (x & -> & Hx)%list_elem_of_fmap_1. apply IH1 in Hx.
    destruct Hx as (w & ? & ?). by exists w.
  - destruct (Nat.eqb (pos st) 0); [|by intros ?%elem_of_nil].
    intros ->%list_elem_of_singleton. apply reach_refl.
  - intros [-> _]%(run_eol icase). apply reach_refl.
Qed.

End EngineFacts.

Section MessageCapture.
Context `{CaseOps}.

Lemma run_seq (icase : bool) (r1 r2 : regex) (st st' : mstate) :
  st' ∈ run icase (Seq r1 r2) st ->
  exists mid, mid ∈ run icase r1 st /\ st' ∈ run icase r2 mid.
Proof.
  cbn [run]. intros (mid & H1 & H2)%list_elem_of_In%in_flat_map.
  exists mid. by rewrite !list_elem_of_In.
Qed.

Lemma run_cat_app (icase : bool) (pre tl : list regex) :
  forall st st',
    st' ∈ run icase (cat (pre ++ tl)) st ->
    exists st1, reach st st1 /\ st' ∈ run icase (cat tl) st1.
Proof.
  induction pre as [|a pre IH]; intros st st' Hin.
  - exists st. split; [apply reach_refl|done].
  - change (cat ((a :: pre) ++ tl)) with (Seq a (cat (pre ++ tl))) in Hin.
    apply run_seq in Hin as (mid & Ha & Hin).
    apply IH in Hin as (st1 & Hr & Hin). exists st1. split; [|done].
    eapply reach_trans; [|exact Hr]. by eapply run_reach.
Qed.

(** What [(?P<msg>.+)\s*$] leaves behind: a non-empty [msg] followed by
    whitespace only. *)
Lemma run_msg_tail (icase : bool) (st st' : mstate) :
  st' ∈ run icase (cat Agent.msg_tail) st ->
  exists w sp,
    lookup_cap "msg" (caps st') = Some w /\ w <> []
    /\ rest st = w ++ sp /\ forallb is_space sp = true.
Proof.
  change (cat Agent.msg_tail)
    with (Seq (Grp "msg" any1) (Seq ws0 (Seq Eol Eps))).
  intros (a & Ha & Hin)%run_seq.
  apply run_seq in Hin as (c & Hc & Hin).
  apply run_seq in Hin as (d & Hd & Hin).
  apply run_eol in Hd as [-> Hsp].
  cbn [run] in Hin. apply list_elem_of_singleton in Hin as ->.
  cbn [run] in Ha. apply list_elem_of_fmap_1 in Ha as (b & -> & Hb).
  apply (run_rep icase true 1 CAny) in Hb as (i & Hi & -> & _).
  apply (run_rep icase true 0 CSpace) in Hc as (j & Hj & -> & Hall).
  cbn [pos rest caps] in *.
  exists (take i (rest st)), (drop i (rest st)).
  replace (pos st + i - pos st)%nat with i by lia.
  split; [done|]. split.
  - intros Hn. apply (f_equal length) in Hn. rewrite length_take in Hn.
    simpl in Hn. lia.
  - split; [by rewrite take_drop|].
    change (cmatch icase CSpace) with is_space in Hall.
    rewrite <- (take_drop j (drop i (rest st))), forallb_app.
    by rewrite Hall, Hsp.
Qed.

Lemma search_from_found (icase : bool) (r : regex) (s : ustr) :
  forall (p : nat) (m : rmatch),
    search_from icase r p s = Some m ->
    exists u s' st' l,
      s = u ++ s'
      /\ run icase r (MState (p + length u) s' []) = st' :: l
      /\ m_caps m = caps st'.
Proof.
  induction s as [|c s IH]; intros p m; cbn [search_from].
  - destruct (run icase r (MState p [] [])) as [|st' l] eqn:Hr; [done|].
    intros [= <-]. exists [], [], st', l. simpl. by rewrite Nat.add_0_r.
  - destruct (run icase r (MState p (c :: s) [])) as [|st' l] eqn:Hr.
    + intros (u & s' & st' & l & -> & Hrun & Hm)%IH.
      exists (c :: u), s', st', l. split; [done|]. split; [|done].
      simpl. by rewrite Nat.add_succ_r.
    + intros [= <-]. exists [], (c :: s), st', l. simpl.
      by rewrite Nat.add_0_r.
Qed.

Lemma rstrip_app_space (x z : ustr) :
  forallb is_space z = true -> rstrip (x ++ z) = rstrip x.
Proof.
  intros Hz. induction x as [|c x IH]; simpl.
  - by apply rstrip_nil.
  - by rewrite IH.
Qed.

Lemma rstrip_length (s : ustr) : (length (rstrip s) <= length s)%nat.
Proof.
  induction s as [|c r IH]; simpl; [done|].
  destruct (rstrip r); [destruct (is_space c)|]; simpl in *; lia.
Qed.

Lemma no_trailing_space (x z : ustr) :
  rstrip (x ++ z) = x ++ z -> forallb is_space z = true -> z = [].
Proof.
  intros Ht Hz. rewrite rstrip_app_space in Ht by done.
  pose proof (rstrip_length x) as Hl. rewrite Ht, length_app in Hl.
  destruct z; [done|]. simpl in Hl. lia.
Qed.

Lemma lstrip_all_space (s : ustr) :
  forallb is_space (lstrip s) = true -> forallb is_space s = true.
Proof.
  induction s as [|c r IH]; simpl; [done|].
  destruct (is_space c) eqn:Hc; [done|]. simpl. by rewrite Hc.
Qed.

Lemma strip_nil (s : ustr) : strip s = [] -> forallb is_space s = true.
Proof. intros Hs%rstrip_nil. by apply lstrip_all_space. Qed.

Lemma rstrip_strip (s : ustr) : rstrip (strip s) = strip s.
Proof. apply rstrip_idem. Qed.

(** On a text without trailing whitespace, a rule whose pattern ends in
    [(?P<msg>.+)\s*$] captures a message that is not empty after
    trimming. *)
Lemma search_msg_nonempty (pre : list regex) (t : ustr) (m : rmatch) :
  rstrip t = t ->
  re_search true (cat (pre ++ Agent.msg_tail)) t = Some m ->
  Agent.msg_of m <> [].
Proof.
  intros Ht (u & s' & st' & l & -> & Hrun & Hm)%search_from_found.
  assert (Hin : st' ∈ run true (cat (pre ++ Agent.msg_tail))
                         (MState (0 + length u) s' []))
    by (rewrite Hrun; by constructor).
  apply run_cat_app in Hin as (st1 & (w0 & Hw0 & _) & Hin).
  apply run_msg_tail in Hin as (w & sp & Hcap & Hne & Hrest & Hsp).
  cbn [rest] in Hw0. rewrite Hrest in Hw0. subst s'.
  unfold Agent.msg_of, group. rewrite Hm, Hcap.
  change (default [] (Some w)) with w. intros Hw%strip_nil.
  assert (Hz : w ++ sp = []).
  { apply (no_trailing_space (u ++ w0)).
    - by rewrite <- app_assoc.
    - by rewrite forallb_app, Hw, Hsp. }
  by destruct w.
Qed.

Lemma split_go_ok (s : ustr) :
  forall acc, acc = [] \/ word_ok acc -> Forall word_ok (split_go acc s).
Proof.
  induction s as [|c r IH]; intros acc Hacc; simpl.
  - destruct acc; [constructor|]. destruct Hacc as [?|?]; [done|].
    by repeat constructor.
  - destruct (is_space c) eqn:Hc.
    + destruct acc as [|a acc]; [apply IH; by left|].
      destruct Hacc as [?|?]; [done|]. constructor; [done|]. apply IH. by left.
    + apply IH. right. destruct acc as [|a acc]; simpl; [done|].
      by destruct Hacc.
Qed.

Lemma join_sp_head (ws : list ustr) (c : N) (r : ustr) :
  Forall word_ok ws -> join_sp ws = c :: r -> is_space c = false.
Proof.
  intros [|w ws' Hw _]; [done|].
  destruct w as [|a w]; [done|]. simpl in Hw.
  destruct ws'; simpl; by intros [= <- _].
Qed.

Lemma strip_cons_nonspace (c : N) (r : ustr) :
  is_space c = false -> strip (c :: r) <> [].
Proof.
  intros Hc Hs%strip_nil. simpl in Hs. by rewrite Hc in Hs.
Qed.

End MessageCapture.

(** ** The rule cascades *)

Section Cascade.
Context `{CaseOps}.

Lemma rule_shape (rx : regex) body (t : ustr) (p : Agent.parsed) :
  Agent.rule rx body t = Some p ->
  exists m, re_search true rx t = Some m /\ body m = Some p.
Proof.
  unfold Agent.rule. destruct (re_search true rx t) as [m|]; [|done].
  intros Hb. by exists m.
Qed.

Ltac tail_rule :=
  let Hs := fresh "Hs" in
  let Hb := fresh "Hb" in
  intros t p Ht (m & Hs & Hb)%rule_shape;
  eapply search_msg_nonempty in Hs; [|exact Ht];
  cbv beta zeta in Hb;
  repeat match type of Hb with
    | context [match ?x with _ => _ end] => destruct x
    end;
  try discriminate;
  injection Hb as <-; unfold msg_ok, Agent.type_to_chat;
  by destruct (Agent.msg_of m).

Ltac no_msg_rule :=
  let Hb := fresh "Hb" in
  intros t p (m & _ & Hb)%rule_shape; cbv beta zeta in Hb;
  by injection Hb as <-.

Lemma rule_2_msg : forall t p, rstrip t = t -> Agent.rule_2 t = Some p -> msg_ok p.
Proof. tail_rule. Qed.
Lemma rule_3_msg : forall t p, rstrip t = t -> Agent.rule_3 t = Some p -> msg_ok p.
Proof. tail_rule. Qed.
Lemma rule_4_msg : forall t p, rstrip t = t -> Agent.rule_4 t = Some p -> msg_ok p.
Proof. tail_rule. Qed.
Lemma rule_4a_msg : forall t p, rstrip t = t -> Agent.rule_4a t = Some p -> msg_ok p.
Proof. tail_rule. Qed.
Lemma rule_5_msg : forall t p, rstrip t = t -> Agent.rule_5 t = Some p -> msg_ok p.
Proof. tail_rule. Qed.
Lemma rule_5a_msg : forall t p, rstrip t = t -> Agent.rule_5a t = Some p -> msg_ok p.
Proof. tail_rule. Qed.
Lemma rule_5b_msg : forall t p, rstrip t = t -> Agent.rule_5b t = Some p -> msg_ok p.
Proof. tail_rule. Qed.
Lemma rule_5c_msg : forall t p, rstrip t = t -> Agent.rule_5c t = Some p -> msg_ok p.
Proof. tail_rule. Qed.
Lemma rule_5c1_msg : forall t p, rstrip t = t -> Agent.rule_5c1 t = Some p -> msg_ok p.
Proof. tail_rule. Qed.
Lemma rule_5c2_msg : forall t p, rstrip t = t -> Agent.rule_5c2 t = Some p -> msg_ok p.
Proof. tail_rule. Qed.
Lemma rule_5c1'_msg : forall t p, rstrip t = t -> Agent.rule_5c1' t = Some p -> msg_ok p.
Proof. tail_rule. Qed.
Lemma rule_5c3_msg : forall t p, rstrip t = t -> Agent.rule_5c3 t = Some p -> msg_ok p.
Proof. tail_rule. Qed.
Lemma rule_5e_msg : forall t p, rstrip t = t -> Agent.rule_5e t = Some p -> msg_ok p.
Proof. tail_rule. Qed.
Lemma rule_5f_msg : forall t p, rstrip t = t -> Agent.rule_5f t = Some p -> msg_ok p.
Proof. tail_rule. Qed.
Lemma rule_5d_msg : forall t p, Agent.rule_5d t = Some p -> msg_ok p.
Proof. no_msg_rule. Qed.
Lemma rule_6_msg : forall t p, Agent.rule_6 t = Some p -> msg_ok p.
Proof. no_msg_rule. Qed.
Lemma rule_7_msg : forall t p, Agent.rule_7 t = Some p -> msg_ok p.
Proof. no_msg_rule. Qed.
Lemma rule_8_msg : forall t p, Agent.rule_8 t = Some p -> msg_ok p.
Proof. no_msg_rule. Qed.
Lemma rule_9_msg : forall t p, Agent.rule_9 t = Some p -> msg_ok p.
Proof. no_msg_rule. Qed.

Lemma words_body_ok (words : list ustr) (k : nat) (tg msg : ustr)
    (p : Agent.parsed) :
  Forall word_ok words ->
  msg = join_sp (drop k words) \/ msg = [] ->
  match tg, msg with
  | _ :: _, _ :: _ => Some (Agent.type_to_chat tg (strip msg))
  | _, _ => None
  end = Some p ->
  msg_ok p.
Proof.
  intros Hw Hmsg. destruct tg as [|x tg]; [done|].
  destruct msg as [|c r] eqn:Hx; [done|]. intros [= <-].
  assert (Hc : is_space c = false).
  { destruct Hmsg as [Hm|Hm]; [|done].
    eapply join_sp_head; [|symmetry; exact Hm]. by apply Forall_drop. }
  apply strip_cons_nonspace with (r := r) in Hc.
  unfold msg_ok, Agent.type_to_chat. by destruct (strip (c :: r)).
Qed.

(** The word-count rule returns nothing when its message is empty, and a
    message it returns is not empty after trimming. *)
Lemma rule_words_msg : forall t p, Agent.rule_words t = Some p -> msg_ok p.
Proof.
  intros t p (m & _ & Hb)%rule_shape. cbv beta zeta in Hb.
  set (words := split_ws (strip (group m "rest"))) in Hb.
  assert (Hw : Forall word_ok words) by (apply split_go_ok; by left).
  destruct (3 <=? length words)%nat;
    [|destruct (2 <=? length words)%nat].
  - eapply (words_body_ok words 2); [done|by left|exact Hb].
  - eapply (words_body_ok words 1); [done|by left|exact Hb].
  - eapply (words_body_ok words 0); [done|by right|exact Hb].
Qed.

Lemma first_match_prop (P : Agent.parsed -> Prop) rs (t : ustr) p :
  Forall (fun r => forall p, r t = Some p -> P p) rs ->
  Agent.first_match rs t = Some p -> P p.
Proof.
  induction 1 as [|r rs Hr _ IH]; simpl; [done|].
  destruct (r t) as [q|] eqn:Hq; [|done]. intros [= <-]. by apply Hr.
Qed.

Lemma first_match_app rs1 rs2 (t : ustr) :
  Agent.first_match (rs1 ++ rs2) t
  = match Agent.first_match rs1 t with
    | Some p => Some p
    | None => Agent.first_match rs2 t
    end.
Proof.
  induction rs1 as [|r rs1 IH]; simpl; [done|]. by destruct (r t).
Qed.

(** Every rule of agent.py other than the first keeps [msg_ok]. *)
Lemma later_rules_msg_ok (t : ustr) (p : Agent.parsed) :
  rstrip t = t ->
  Agent.first_match
    (tail Agent.rules_before ++ Agent.rule_words :: Agent.rules_after) t
  = Some p ->
  msg_ok p.
Proof.
  intros Ht. apply first_match_prop.
  repeat (apply Forall_cons; split;
          [intros q;
           eauto using rule_2_msg, rule_3_msg, rule_4_msg, rule_4a_msg,
             rule_5_msg, rule_5a_msg, rule_5b_msg, rule_5c_msg, rule_5c1_msg,
             rule_5c2_msg, rule_5c1'_msg, rule_words_msg, rule_5c3_msg,
             rule_5d_msg, rule_5e_msg, rule_5f_msg, rule_6_msg, rule_7_msg,
             rule_8_msg, rule_9_msg|]).
  constructor.
Qed.

End Cascade.

Section ParserTheorems.
Context `{CaseOps}.

Lemma tp_rule_shape (rx : regex) body (t : ustr) (pc : ParsedCommand) :
  TelegramParser.rule rx body t = Some pc ->
  exists m, re_search true rx t = Some m /\ body m = Some pc.
Proof.
  unfold TelegramParser.rule. destruct (re_search true rx t) as [m|]; [|done].
  intros Hb. by exists m.
Qed.

Lemma tp_tail_rule (pre : list regex) body (t : ustr) (pc : ParsedCommand) :
  rstrip t = t ->
  (forall m pc', body m = Some pc' -> message pc' = Some (Agent.msg_of m)) ->
  TelegramParser.rule (cat (pre ++ Agent.msg_tail)) body t = Some pc ->
  message pc <> Some [].
Proof.
  intros Ht Hbody (m & Hs & Hb)%tp_rule_shape.
  apply search_msg_nonempty in Hs; [|done].
  rewrite (Hbody _ _ Hb). by intros [= ?].
Qed.

(** C3, amended.  A command with an empty message is returned only by the
    quoted-message rule (rule 1), by [parse_command] of agent.py, whose
    rules are in the stored spelling, and by [TelegramCommandParser.parse],
    whose rules are Cyrillic, alike; every other rule that returns a
    message returns one that is not empty after trimming, and the
    word-count rule falls through when its message is empty. *)
Theorem empty_message_only_from_quoted_rule :
  (forall (text : ustr) i tg,
      Agent.parse_command text = (i, tg, Some []) ->
      Agent.rule_1 (strip text) = Some (i, tg, Some []))
  /\ (forall (driver_name : string) (text : ustr) (pc : ParsedCommand),
        TelegramParser.parse driver_name text = Some pc ->
        message pc = Some [] ->
        TelegramParser.rule TelegramParser.rx_1 (TelegramParser.send driver_name)
                            (strip text) = Some pc)
  /\ (forall (t : ustr) (p : Agent.parsed),
        Agent.rule_words t = Some p -> msg_ok p).
Proof.
  split; [|split].
  - intros text i tg. unfold Agent.parse_command.
    pose proof (rstrip_strip text) as Ht. revert Ht.
    generalize (strip text). intros t Ht.
    change (Agent.rules_before ++ Agent.rule_words :: Agent.rules_after)
      with (Agent.rule_1
              :: (tail Agent.rules_before
                    ++ Agent.rule_words :: Agent.rules_after)).
    cbn [Agent.first_match].
    destruct (Agent.rule_1 t) as [p|]; [by intros <-|].
    destruct (Agent.first_match _ t) as [p|] eqn:Hf; [|done].
    apply later_rules_msg_ok in Hf; [|done]. simpl. by intros ->.
  - intros dn text pc. unfold TelegramParser.parse.
    pose proof (rstrip_strip text) as Ht. revert Ht.
    generalize (strip text). intros t Ht.
    destruct t as [|c t]; [done|]. revert Ht. generalize (c :: t).
    clear c t. intros t Ht. unfold TelegramParser.rules.
    cbn [TelegramParser.first_match].
    destruct (TelegramParser.rule TelegramParser.rx_1 _ t) as [p|]; [by intros [= <-]|].
    assert (Hsend : forall m pc', TelegramParser.send dn m = Some pc' ->
                                  message pc' = Some (Agent.msg_of m))
      by (by intros m pc' [= <-]).
    repeat match goal with
      | |- context [TelegramParser.rule ?rx ?body t] =>
          lazymatch rx with
          | TelegramParser.rx_6 => fail
          | TelegramParser.rx_7 => fail
          | _ =>
              let Hr := fresh "Hr" in
              destruct (TelegramParser.rule rx body t) as [p|] eqn:Hr;
              [intros [= <-] Hm; exfalso; revert Hm;
               eapply tp_tail_rule; [exact Ht| |exact Hr];
               first [exact Hsend | by intros m pc' [= <-]]|]
          end
      end.
    destruct (TelegramParser.rule TelegramParser.rx_6 _ t) as [p|] eqn:Hr6.
    { apply tp_rule_shape in Hr6 as (m & _ & [= <-]). by intros [= <-]. }
    destruct (TelegramParser.rule TelegramParser.rx_7 _ t) as [p|] eqn:Hr7;
      [|done].
    apply tp_rule_shape in Hr7 as (m & _ & Hb).
    destruct (contains _ _); [done|]. injection Hb as <-. by intros [= <-].
  - apply rule_words_msg.
Qed.

(** C10.  A text that is empty or all whitespace is not parsed: neither
    parser produces a command from it. *)
Theorem blank_input_not_parsed (driver_name : string) (text : ustr) :
  forallb is_space text = true ->
  TelegramParser.parse driver_name text = None
  /\ Agent.parse_command text = (None, None, None).
Proof.
  intros Hs%strip_all_space.
  unfold TelegramParser.parse, Agent.parse_command. rewrite Hs.
  split; [done|]. by vm_compute.
Qed.

(** C4, amended.  In [parse_command] of agent.py, when one of the
    structured rules placed before the word-count rule returns a result,
    that result is the parser's, whether or not the word-count rule
    matches too; when none of them does and the word-count rule returns a
    result, that result is the parser's, whatever the rules placed after
    it would return.  Of the rules placed
    after it, 5c3 and 5e repeat the patterns of 5c2 and 5c1, which have
    already returned whenever these match. *)
Theorem structured_rules_before_word_count (text : ustr) :
  (forall p, Agent.first_match Agent.rules_before (strip text) = Some p ->
             Agent.parse_command text = p)
  /\ (forall w, Agent.first_match Agent.rules_before (strip text) = None ->
                Agent.rule_words (strip text) = Some w ->
                Agent.parse_command text = w)
  /\ (forall p, Agent.rule_5c3 (strip text) = Some p ->
                exists q, Agent.rule_5c2 (strip text) = Some q)
  /\ (forall p, Agent.rule_5e (strip text) = Some p ->
                exists q, Agent.rule_5c1 (strip text) = Some q).
Proof.
  split; [|split; [|split]].
  - unfold Agent.parse_command. rewrite first_match_app. by intros p ->.
  - unfold Agent.parse_command. rewrite first_match_app.
    intros w -> Hw. cbn [Agent.first_match]. by rewrite Hw.
  - intros p (m & Hs & _)%rule_shape.
    unfold Agent.rule_5c2, Agent.rule. rewrite Hs. by eexists.
  - intros p (m & Hs & _)%rule_shape.
    unfold Agent.rule_5c1, Agent.rule. rewrite Hs. by eexists.
Qed.

End ParserTheorems.

Lemma blank_input_not_parsed_witness :
  TelegramParser.parse "telegram" [32; 9; 10; 160; 32] = None
  /\ Agent.parse_command [32; 9; 10; 160; 32] = (None, None, None).
Proof.
  apply (blank_input_not_parsed "telegram" [32; 9; 10; 160; 32]).
  reflexivity.
Defined.

(** C3 as stated fails: the quoted-message rule returns a command whose
    message is empty after trimming, in the Telegram parser on the Cyrillic
    text and in agent.py on the text in its stored spelling. *)
Lemma empty_message_counterexample :
  TelegramParser.parse "telegram" blank_quote
  = Some {| intent := "send_message"; target := Some (U "Максим");
            message := Some []; driver := "telegram" |}
  /\ Agent.parse_command blank_quote_stored
     = (Some "open_and_type", Some maksim_stored, Some []).
Proof. split; by vm_compute. Qed.

Lemma empty_message_only_from_quoted_rule_witness :
  Agent.rule_1 (strip blank_quote_stored)
  = Some (Some "open_and_type"%string, Some maksim_stored, Some [])
  /\ TelegramParser.rule TelegramParser.rx_1 (TelegramParser.send "telegram")
                         (strip blank_quote)
     = Some {| intent := "send_message"; target := Some (U "Максим");
               message := Some []; driver := "telegram" |}.
Proof.
  split.
  - apply (proj1 empty_message_only_from_quoted_rule blank_quote_stored).
    by vm_compute.
  - apply (proj1 (proj2 empty_message_only_from_quoted_rule)
                 "telegram" blank_quote); by vm_compute.
Defined.

(** C4 as stated fails: this text, "отправь сообщение Ивану вставь в чат" in
    the stored spelling, matches the structured rule 8 and the word-count
    rule, and the parser returns the word-count result. *)
Lemma word_count_counterexample :
  Agent.rule_8 (strip double_command_stored)
  = Some (Some "paste_to_chat"%string, Some (U "—á–∞—Ç"), None)
  /\ Agent.rule_words (strip double_command_stored)
     = Some (Agent.type_to_chat (U "–ò–≤–∞–Ω—É –≤—Å—Ç–∞–≤—å") (U "–≤ —á–∞—Ç"))
  /\ Agent.parse_command double_command_stored
     = Agent.type_to_chat (U "–ò–≤–∞–Ω—É –≤—Å—Ç–∞–≤—å") (U "–≤ —á–∞—Ç")
  /\ Agent.parse_command double_command_stored
     <> (Some "paste_to_chat"%string, Some (U "—á–∞—Ç"), None).
Proof. repeat split; by vm_compute. Qed.

(** The text is "отправь сообщение Пете сообщение привет" in the stored
    spelling: rule 5c1 and the word-count rule both match it. *)
Lemma structured_rules_before_word_count_witness :
  Agent.parse_command (U "–æ—Ç–ø—Ä–∞–≤—å —Å–æ–æ–±—â–µ–Ω–∏–µ –ü–µ—Ç–µ —Å–æ–æ–±—â–µ–Ω–∏–µ –ø—Ä–∏–≤–µ—Ç")
  = Agent.type_to_chat (U "—Å–æ–æ–±—â–µ–Ω–∏–µ –ü–µ—Ç–µ") (U "–ø—Ä–∏–≤–µ—Ç")
  /\ Agent.rule_words (strip (U "–æ—Ç–ø—Ä–∞–≤—å —Å–æ–æ–±—â–µ–Ω–∏–µ –ü–µ—Ç–µ —Å–æ–æ–±—â–µ–Ω–∏–µ –ø—Ä–∏–≤–µ—Ç"))
     = Some (Agent.type_to_chat (U "–ü–µ—Ç–µ —Å–æ–æ–±—â–µ–Ω–∏–µ") (U "–ø—Ä–∏–≤–µ—Ç")).
Proof.
  split; [|by vm_compute].
  apply (proj1 (structured_rules_before_word_count (U "–æ—Ç–ø—Ä–∞–≤—å —Å–æ–æ–±—â–µ–Ω–∏–µ –ü–µ—Ç–µ —Å–æ–æ–±—â–µ–Ω–∏–µ –ø—Ä–∏–≤–µ—Ç"))).
  by vm_compute.
Defined.

(** * Further properties of the pipeline *)

(** ** [clean_one_line] *)

Lemma lstrip_elem (s : ustr) (x : N) : x ∈ lstrip s -> x ∈ s.
Proof.
  induction s as [|c r IH]; simpl; [done|].
  destruct (is_space c); [|done]. intros ?%IH. by constructor.
Qed.

Lemma rstrip_elem (s : ustr) (x : N) : x ∈ rstrip s -> x ∈ s.
Proof.
  induction s as [|c r IH]; simpl; [done|].
  destruct (rstrip r) as [|y r'].
  - destruct (is_space c); [by intros ?%elem_of_nil|].
    intros ->%list_elem_of_singleton. by constructor.
  - intros [->|?]%elem_of_cons; [by constructor|]. constructor. by apply IH.
Qed.

Lemma strip_elem (s : ustr) (x : N) : x ∈ strip s -> x ∈ s.
Proof. intros ?%rstrip_elem. by apply lstrip_elem. Qed.

(** The whitespace that collapsing leaves is U+0020. *)
Lemma collapse_space (b : bool) (s : ustr) (x : N) :
  x ∈ collapse_go b s -> is_space x = true -> x = 32.
Proof.
  revert b. induction s as [|c r IH]; intros b; simpl; [by intros ?%elem_of_nil|].
  destruct (is_space c) eqn:Hc.
  - destruct b; [apply IH|].
    intros [->|?]%elem_of_cons; [done|]. by eapply IH.
  - intros [->|?]%elem_of_cons; [congruence|]. by eapply IH.
Qed.

Lemma map_fixed (f : N -> N) (s : ustr) :
  Forall (fun c => f c = c) s -> map f s = s.
Proof. induction 1 as [|c r Hc _ IH]; simpl; [done|]. by rewrite Hc, IH. Qed.

Section CleanOneLine.
Context `{CaseOps}.

Lemma clean_one_line_unfold (s : ustr) :
  Agent.clean_one_line s
  = strip (collapse_ws
             (map (fun c => if 10 =? c then 32 else c)
                  (map (fun c => if 13 =? c then 32 else c) s))).
Proof.
  unfold Agent.clean_one_line. by rewrite re_sub_ws1, !str_replace_char.
Qed.

(** X1.  The cleaned message is one line: the only whitespace left in it is
    U+0020, never at either end and never doubled; cleaning it again
    changes nothing. *)
Theorem clean_one_line_single_line (s : ustr) :
  let r := Agent.clean_one_line s in
  Forall (fun c => is_space c = true -> c = 32) r
  /\ strip r = r
  /\ collapse_ws r = r
  /\ Agent.clean_one_line r = r.
Proof.
  intros r. subst r. rewrite clean_one_line_unfold.
  set (x := map _ (map _ s)).
  assert (Hsp : Forall (fun c => is_space c = true -> c = 32)
                       (strip (collapse_ws x))).
  { apply Forall_forall. intros c Hc%strip_elem. by eapply collapse_space. }
  assert (Hcol : collapse_ws (strip (collapse_ws x)) = strip (collapse_ws x)).
  { by rewrite <- strip_collapse, collapse_ws_idem. }
  split; [done|]. split; [apply strip_idem|]. split; [done|].
  rewrite clean_one_line_unfold.
  rewrite (map_fixed (fun c => if 13 =? c then 32 else c)).
  2:{ eapply Forall_impl; [exact Hsp|]. intros c Hc. cbv beta.
      destruct (N.eqb_spec 13 c) as [<-|]; [|done]. by specialize (Hc eq_refl). }
  rewrite (map_fixed (fun c => if 10 =? c then 32 else c)).
  2:{ eapply Forall_impl; [exact Hsp|]. intros c Hc. cbv beta.
      destruct (N.eqb_spec 10 c) as [<-|]; [|done]. by specialize (Hc eq_refl). }
  by rewrite Hcol, strip_idem.
Qed.

End CleanOneLine.

(** ** The alias maps of agent.py and utils/chat_resolver.py *)

Section AliasMaps.
Context `{CaseOps}.

Lemma agent_add_aliases_hit (c : ustr) (aliases : list ustr)
    (m : gmap ustr ustr) (k : ustr) :
  m !! k = Some c -> Agent.add_aliases c aliases m !! k = Some c.
Proof.
  unfold Agent.add_aliases. revert m.
  induction aliases as [|a l IH]; intros m Hm; [done|].
  simpl. apply IH. destruct (Agent.norm a) as [|x a_n]; [done|].
  destruct (decide (x :: a_n = k)) as [<-|Hne].
  - by rewrite lookup_insert_eq.
  - by rewrite lookup_insert_ne.
Qed.

Lemma agent_add_aliases_in (c : ustr) (aliases : list ustr)
    (m : gmap ustr ustr) (a : ustr) :
  a ∈ aliases -> Agent.norm a <> [] ->
  Agent.add_aliases c aliases m !! Agent.norm a = Some c.
Proof.
  unfold Agent.add_aliases. intros Hin Hne. revert m.
  induction Hin as [a l|a b l Hin IH]; intros m; simpl.
  - apply (agent_add_aliases_hit c l).
    destruct (Agent.norm a) as [|x a_n]; [done|]. by rewrite lookup_insert_eq.
  - by apply IH.
Qed.

Lemma agent_add_aliases_miss (c : ustr) (aliases : list ustr)
    (m : gmap ustr ustr) (k : ustr) :
  Forall (fun a => Agent.norm a <> k) aliases ->
  Agent.add_aliases c aliases m !! k = m !! k.
Proof.
  unfold Agent.add_aliases. intros Hall. revert m.
  induction Hall as [|a l Ha _ IH]; intros m; [done|].
  simpl. rewrite IH.
  destruct (Agent.norm a) as [|x a_n]; [done|].
  by rewrite lookup_insert_ne.
Qed.

Lemma agent_build_step_miss (k : ustr) (it : item) acc :
  agent_leaves_key k it -> (Agent.build_step acc it).1 !! k = acc.1 !! k.
Proof.
  unfold agent_leaves_key, Agent.build_step. destruct acc as [m rim].
  destruct (default [] (item_canonical it)) as [|x c']; [done|].
  intros [Hc Ha]. simpl. rewrite agent_add_aliases_miss by done.
  by rewrite lookup_insert_ne.
Qed.

Lemma agent_build_fold_miss (k : ustr) (post : list item) acc :
  Forall (agent_leaves_key k) post ->
  (fold_left Agent.build_step post acc).1 !! k = acc.1 !! k.
Proof.
  intros Hall. revert acc.
  induction Hall as [|it l Hit _ IH]; intros acc; [done|].
  simpl. rewrite IH. by apply agent_build_step_miss.
Qed.

Lemma add_aliases_in (c : ustr) (aliases : list ustr)
    (m : gmap ustr ustr) (a : ustr) :
  a ∈ aliases ->
  ChatResolver.add_aliases c aliases m !! ChatResolver.norm a = Some c.
Proof.
  unfold ChatResolver.add_aliases. intros Hin. revert m.
  induction Hin as [a l|a b l Hin IH]; intros m; simpl.
  - apply (add_aliases_hit c l). by rewrite lookup_insert_eq.
  - apply IH.
Qed.

(** X2.  Every spelling of a name of an entry, its canonical name or an
    alias, resolves to the entry's canonical name unless an entry loaded
    later takes the normalized key over.  Each copy of the resolver
    compares spellings under its own [norm]; in agent.py the name must not
    normalize to the empty string, which is never looked up there. *)
Theorem names_resolve_to_canonical
    (pre post : list item) (it : item) (c n t : ustr) :
  item_canonical it = Some c ->
  c <> [] ->
  n = c \/ n ∈ default [] (item_aliases it) ->
  (ChatResolver.norm t = ChatResolver.norm n ->
   Forall (leaves_key (ChatResolver.norm n)) post ->
   ChatResolver.resolve_chat
     t (ChatResolver.build_alias_map (pre ++ it :: post)).1 = Some c)
  /\ (Agent.norm t = Agent.norm n ->
      Agent.norm n <> [] ->
      Forall (agent_leaves_key (Agent.norm n)) post ->
      Agent.resolve_chat t (Agent.build_alias_map (pre ++ it :: post)).1
      = Some c).
Proof.
  intros Hc Hne Hn. split.
  - intros Ht Hpost.
    unfold ChatResolver.resolve_chat, ChatResolver.build_alias_map.
    rewrite Ht, fold_left_app. simpl. rewrite build_fold_miss by done.
    unfold ChatResolver.build_step at 1.
    destruct (fold_left ChatResolver.build_step pre (∅, ∅)) as [m rim].
    rewrite Hc. simpl. destruct c as [|x c]; [done|]. simpl.
    destruct Hn as [->|Hn].
    + apply add_aliases_hit. by rewrite lookup_insert_eq.
    + by apply add_aliases_in.
  - intros Ht Hk Hpost. unfold Agent.resolve_chat, Agent.build_alias_map.
    rewrite Ht.
    destruct (Agent.norm n) as [|y k] eqn:Hnorm; [done|].
    rewrite fold_left_app. simpl.
    rewrite agent_build_fold_miss by done.
    unfold Agent.build_step at 1.
    destruct (fold_left Agent.build_step pre (∅, ∅)) as [m rim].
    rewrite Hc. simpl. destruct c as [|x c]; [done|]. simpl.
    rewrite <- Hnorm. destruct Hn as [->|Hn].
    + apply agent_add_aliases_hit. by rewrite lookup_insert_eq.
    + apply (agent_add_aliases_in (x :: c) _ _ n); [done|]. by rewrite Hnorm.
Qed.

(** Folding the aliases of one entry keeps an invariant of the bindings. *)
Lemma add_aliases_inv (P : ustr -> ustr -> Prop) (c : ustr)
    (aliases : list ustr) (m : gmap ustr ustr) :
  (forall k v, m !! k = Some v -> P k v) ->
  (forall a, a ∈ aliases -> P (ChatResolver.norm a) c) ->
  forall k v, ChatResolver.add_aliases c aliases m !! k = Some v -> P k v.
Proof.
  unfold ChatResolver.add_aliases. revert m.
  induction aliases as [|a l IH]; intros m Hm Ha; [done|].
  simpl. apply IH; [|intros b Hb; apply Ha; by constructor].
  intros k v. destruct (decide (ChatResolver.norm a = k)) as [<-|Hne].
  - rewrite lookup_insert_eq. intros [= <-]. apply Ha. by constructor.
  - rewrite lookup_insert_ne by done. apply Hm.
Qed.

Lemma agent_add_aliases_inv (P : ustr -> ustr -> Prop) (c : ustr)
    (aliases : list ustr) (m : gmap ustr ustr) :
  (forall k v, m !! k = Some v -> P k v) ->
  (forall a, a ∈ aliases -> P (Agent.norm a) c) ->
  forall k v, Agent.add_aliases c aliases m !! k = Some v -> P k v.
Proof.
  unfold Agent.add_aliases. revert m.
  induction aliases as [|a l IH]; intros m Hm Ha; [done|].
  simpl. apply IH; [|intros b Hb; apply Ha; by constructor].
  pose proof (Ha a (list_elem_of_here a l)) as Hpa.
  destruct (Agent.norm a) as [|x a_n]; [done|].
  intros k v. destruct (decide (x :: a_n = k)) as [<-|Hne].
  - rewrite lookup_insert_eq. by intros [= <-].
  - rewrite lookup_insert_ne by done. apply Hm.
Qed.

Lemma listed_mono (nm : ustr -> ustr) (tracked : list item) (it : item)
    (k v : ustr) :
  listed nm tracked k v -> listed nm (tracked ++ [it]) k v.
Proof.
  intros (it0 & Hin & ?). exists it0. split; [|done].
  apply elem_of_app. by left.
Qed.

Lemma listed_last (nm : ustr -> ustr) (tracked : list item) (it : item)
    (c : ustr) :
  item_canonical it = Some c -> c <> [] ->
  listed nm (tracked ++ [it]) (nm c) c
  /\ forall a, a ∈ default [] (item_aliases it) ->
               listed nm (tracked ++ [it]) (nm a) c.
Proof.
  intros Hcan Hne.
  assert (Hit : it ∈ tracked ++ [it])
    by (apply elem_of_app; right; by constructor).
  split.
  - exists it. repeat split; try done. by left.
  - intros a Hin. exists it. repeat split; try done. right. by exists a.
Qed.

Lemma build_step_listed (tracked : list item) (it : item) acc :
  (forall k v, acc.1 !! k = Some v -> listed ChatResolver.norm tracked k v) ->
  forall k v, (ChatResolver.build_step acc it).1 !! k = Some v ->
              listed ChatResolver.norm (tracked ++ [it]) k v.
Proof.
  intros Hc. destruct acc as [mc rc]. unfold ChatResolver.build_step.
  destruct (item_canonical it) as [[|x c]|] eqn:Hcan; simpl;
    try (intros k v Hl; apply listed_mono; by eauto).
  destruct (listed_last ChatResolver.norm tracked it (x :: c)) as [Hself Hal];
    [done|done|].
  apply (add_aliases_inv (listed ChatResolver.norm (tracked ++ [it])));
    [|done].
  intros k v. destruct (decide (ChatResolver.norm (x :: c) = k)) as [<-|Hne].
  - rewrite lookup_insert_eq. by intros [= <-].
  - rewrite lookup_insert_ne by done. intros ?%Hc. by apply listed_mono.
Qed.

Lemma agent_build_step_listed (tracked : list item) (it : item) acc :
  (forall k v, acc.1 !! k = Some v -> listed Agent.norm tracked k v) ->
  forall k v, (Agent.build_step acc it).1 !! k = Some v ->
              listed Agent.norm (tracked ++ [it]) k v.
Proof.
  intros Hc. destruct acc as [mc rc]. unfold Agent.build_step.
  destruct (item_canonical it) as [[|x c]|] eqn:Hcan; simpl;
    try (intros k v Hl; apply listed_mono; by eauto).
  destruct (listed_last Agent.norm tracked it (x :: c)) as [Hself Hal];
    [done|done|].
  apply (agent_add_aliases_inv (listed Agent.norm (tracked ++ [it])));
    [|done].
  intros k v. destruct (decide (Agent.norm (x :: c) = k)) as [<-|Hne].
  - rewrite lookup_insert_eq. by intros [= <-].
  - rewrite lookup_insert_ne by done. intros ?%Hc. by apply listed_mono.
Qed.

Lemma alias_map_listed (tracked : list item) :
  (forall k v, (ChatResolver.build_alias_map tracked).1 !! k = Some v ->
               listed ChatResolver.norm tracked k v)
  /\ (forall k v, (Agent.build_alias_map tracked).1 !! k = Some v ->
                  listed Agent.norm tracked k v).
Proof.
  unfold ChatResolver.build_alias_map, Agent.build_alias_map.
  induction tracked as [|it l [IHc IHa]] using rev_ind.
  - split; intros k v; simpl; by rewrite lookup_empty.
  - rewrite !fold_left_app. simpl. split.
    + by apply build_step_listed.
    + by apply agent_build_step_listed.
Qed.

(** X3.  Resolution is sound for the whitelist: a target resolves only to
    the non-empty canonical name of an entry that lists the target, as its
    canonical name or as an alias, up to the normalization of the copy that
    resolves. *)
Theorem resolve_chat_listed (tracked : list item) (t c : ustr) :
  (ChatResolver.resolve_chat t (ChatResolver.build_alias_map tracked).1
   = Some c -> listed ChatResolver.norm tracked (ChatResolver.norm t) c)
  /\ (Agent.resolve_chat t (Agent.build_alias_map tracked).1 = Some c ->
      listed Agent.norm tracked (Agent.norm t) c).
Proof.
  destruct (alias_map_listed tracked) as [Hc Ha]. split.
  - apply Hc.
  - unfold Agent.resolve_chat.
    destruct (Agent.norm t) eqn:Hn; [done|]. apply Ha.
Qed.

End AliasMaps.

(** The Telegram-side resolver folds "ё" and finds the alias; agent.py
    keeps "ё" and finds it for the spelling with "е" only. *)
Lemma names_resolve_to_canonical_witness :
  ChatResolver.resolve_chat
    (U "  СОХРАНЁНКИ ")
    (ChatResolver.build_alias_map ([smeta] ++ izbrannoe :: [maksim])).1
  = Some (U "Избранное")
  /\ Agent.resolve_chat
       (U "  СОХРАНЕНКИ ")
       (Agent.build_alias_map ([smeta] ++ izbrannoe :: [maksim])).1
     = Some (U "Избранное")
  /\ Agent.resolve_chat
       (U "  СОХРАНЁНКИ ")
       (Agent.build_alias_map ([smeta] ++ izbrannoe :: [maksim])).1
     = None.
Proof.
  split; [|split; [|by vm_compute]].
  - apply (proj1 (names_resolve_to_canonical [smeta] [maksim] izbrannoe
                    (U "Избранное") (U "сохраненки") (U "  СОХРАНЁНКИ ")
                    eq_refl ltac:(discriminate)
                    ltac:(right; by vm_compute; repeat constructor))).
    + by vm_compute.
    + constructor; [|constructor].
      split; [by vm_compute|]. repeat constructor; by vm_compute.
  - apply (proj2 (names_resolve_to_canonical [smeta] [maksim] izbrannoe
                    (U "Избранное") (U "сохраненки") (U "  СОХРАНЕНКИ ")
                    eq_refl ltac:(discriminate)
                    ltac:(right; by vm_compute; repeat constructor))).
    + by vm_compute.
    + by vm_compute.
    + constructor; [|constructor].
      split; [by vm_compute|]. repeat constructor; by vm_compute.
Defined.

Lemma resolve_chat_listed_witness :
  listed ChatResolver.norm [smeta; izbrannoe; maksim]
         (ChatResolver.norm (U "МАКСИМ")) (U "Максим Ершов")
  /\ listed Agent.norm [smeta; izbrannoe; maksim]
            (Agent.norm (U "МАКСИМ")) (U "Максим Ершов").
Proof.
  split.
  - apply (proj1 (resolve_chat_listed [smeta; izbrannoe; maksim]
                                      (U "МАКСИМ") (U "Максим Ершов"))).
    by vm_compute.
  - apply (proj2 (resolve_chat_listed [smeta; izbrannoe; maksim]
                                      (U "МАКСИМ") (U "Максим Ершов"))).
    by vm_compute.
Defined.

Section TwoCopies.
Context `{CaseOps}.

Lemma add_aliases_agree (c : ustr) (aliases : list ustr)
    (ma mc : gmap ustr ustr) :
  Forall (fun a => Agent.norm a = ChatResolver.norm a) aliases ->
  (forall k, k <> [] -> ma !! k = mc !! k) ->
  forall k, k <> [] ->
    Agent.add_aliases c aliases ma !! k
    = ChatResolver.add_aliases c aliases mc !! k.
Proof.
  unfold Agent.add_aliases, ChatResolver.add_aliases. intros Hall.
  revert ma mc.
  induction Hall as [|a l Ha _ IH]; intros ma mc Hm; [done|].
  simpl. apply IH. intros k Hk. rewrite Ha.
  destruct (ChatResolver.norm a) as [|x a_n] eqn:Hn.
  - rewrite lookup_insert_ne by done. by apply Hm.
  - destruct (decide (x :: a_n = k)) as [<-|Hne].
    + by rewrite !lookup_insert_eq.
    + rewrite !lookup_insert_ne by done. by apply Hm.
Qed.

Lemma build_step_index_agree (it : item) acc_a acc_c :
  acc_a.2 = acc_c.2 ->
  (Agent.build_step acc_a it).2 = (ChatResolver.build_step acc_c it).2.
Proof.
  destruct acc_a as [ma ra], acc_c as [mc rc]. simpl. intros ->.
  unfold Agent.build_step, ChatResolver.build_step.
  by destruct (default [] (item_canonical it)).
Qed.

Lemma build_step_agree (it : item) acc_a acc_c :
  same_keys it ->
  (forall k, k <> [] -> acc_a.1 !! k = acc_c.1 !! k) ->
  forall k, k <> [] ->
    (Agent.build_step acc_a it).1 !! k
    = (ChatResolver.build_step acc_c it).1 !! k.
Proof.
  destruct acc_a as [ma ra], acc_c as [mc rc]. simpl.
  unfold same_keys, Agent.build_step, ChatResolver.build_step.
  destruct (default [] (item_canonical it)) as [|x c]; [done|].
  intros [Hc Ha] Hm. simpl. apply add_aliases_agree; [done|]. intros k Hk.
  rewrite Hc.
  destruct (decide (ChatResolver.norm (x :: c) = k)) as [<-|Hne].
  - by rewrite !lookup_insert_eq.
  - rewrite !lookup_insert_ne by done. by apply Hm.
Qed.

Lemma pair_to_ie_id (s : ustr) : 8212 ∉ s -> pair_to_ie s = s.
Proof.
  induction s as [|a r IH]; [done|]. intros Hs.
  rewrite pair_to_ie_other.
  - rewrite IH; [done|]. intros ?. apply Hs. by constructor.
  - intros ->. apply Hs. by constructor.
Qed.

(** X4.  agent.py and utils/chat_resolver.py each have a [build_alias_map].
    They build the same index map.  Their alias maps differ only through
    their normalizers: for a whitelist on whose names both normalizers
    give the same key, the maps agree on every key but the empty one, and
    a target with the same non-empty key under both resolves alike.  The
    normalizers give the same key for a text that, trimmed and in lower
    case, has neither U+0451, which only chat_resolver.py replaces, nor
    U+2014, with which the pair that only agent.py replaces begins. *)
Theorem alias_maps_agree (tracked : list item) :
  (Agent.build_alias_map tracked).2 = (ChatResolver.build_alias_map tracked).2
  /\ (Forall same_keys tracked ->
      (forall k, k <> [] ->
         (Agent.build_alias_map tracked).1 !! k
         = (ChatResolver.build_alias_map tracked).1 !! k)
      /\ (forall t, Agent.norm t = ChatResolver.norm t ->
            ChatResolver.norm t <> [] ->
            Agent.resolve_chat t (Agent.build_alias_map tracked).1
            = ChatResolver.resolve_chat
                t (ChatResolver.build_alias_map tracked).1))
  /\ (forall s, 1105 ∉ str_lower (strip s) -> 8212 ∉ str_lower (strip s) ->
        Agent.norm s = ChatResolver.norm s).
Proof.
  split; [|split].
  - unfold Agent.build_alias_map, ChatResolver.build_alias_map.
    induction tracked as [|it l IH] using rev_ind; [done|].
    rewrite !fold_left_app. simpl. by apply build_step_index_agree.
  - intros Hall.
    assert (H1 : forall k, k <> [] ->
              (Agent.build_alias_map tracked).1 !! k
              = (ChatResolver.build_alias_map tracked).1 !! k).
    { unfold Agent.build_alias_map, ChatResolver.build_alias_map.
      induction tracked as [|it l IH] using rev_ind; [done|].
      apply Forall_app in Hall as [Hl [Hit _]%Forall_cons].
      rewrite !fold_left_app. simpl. apply build_step_agree; [done|].
      by apply IH. }
    split; [done|].
    intros t Ht Hne. unfold Agent.resolve_chat, ChatResolver.resolve_chat.
    rewrite Ht.
    destruct (ChatResolver.norm t) as [|x k] eqn:Hn; [done|]. by apply H1.
  - intros s H1 H2. rewrite agent_norm_unfold, norm_unfold.
    rewrite pair_to_ie_id by done. f_equal. symmetry. apply yo_to_ie_id.
    apply Forall_forall. by intros x Hx ->.
Qed.

Lemma build_step_keeps_index (c : ustr) (it : item) acc_a acc_c :
  keeps_index c it ->
  (Agent.build_step acc_a it).2 !! c = acc_a.2 !! c
  /\ (ChatResolver.build_step acc_c it).2 !! c = acc_c.2 !! c.
Proof.
  unfold keeps_index. destruct acc_a as [ma ra], acc_c as [mc rc].
  unfold Agent.build_step, ChatResolver.build_step.
  destruct (item_canonical it) as [[|x c']|] eqn:Hc; simpl; try done.
  intros Hk. destruct (decide (x :: c' = c)) as [<-|Hne].
  - by rewrite Hk.
  - destruct (item_result_index it); [|done]. by rewrite !lookup_insert_ne.
Qed.

(** X5.  The index stored for a canonical name is the one of the last entry of
    that name that has a [result_index] key. *)
Theorem index_of_last_configured
    (pre post : list item) (it : item) (c : ustr) (ri : option Z) :
  item_canonical it = Some c ->
  c <> [] ->
  item_result_index it = Some ri ->
  Forall (keeps_index c) post ->
  (Agent.build_alias_map (pre ++ it :: post)).2 !! c = Some ri
  /\ (ChatResolver.build_alias_map (pre ++ it :: post)).2 !! c = Some ri.
Proof.
  intros Hc Hne Hri Hpost.
  assert (Hfold : forall acc_a acc_c,
            (fold_left Agent.build_step post acc_a).2 !! c = acc_a.2 !! c
            /\ (fold_left ChatResolver.build_step post acc_c).2 !! c
               = acc_c.2 !! c).
  { induction Hpost as [|it' l Hit _ IH]; intros acc_a acc_c; [done|].
    simpl. destruct (IH (Agent.build_step acc_a it')
                        (ChatResolver.build_step acc_c it')) as [-> ->].
    by apply build_step_keeps_index. }
  unfold Agent.build_alias_map, ChatResolver.build_alias_map.
  rewrite !fold_left_app. simpl.
  destruct (Hfold (Agent.build_step (fold_left Agent.build_step pre (∅, ∅)) it)
                  (ChatResolver.build_step
                     (fold_left ChatResolver.build_step pre (∅, ∅)) it))
    as [-> ->].
  generalize (fold_left Agent.build_step pre (∅, ∅)).
  generalize (fold_left ChatResolver.build_step pre (∅, ∅)).
  intros [mc rc] [ma ra].
  unfold Agent.build_step, ChatResolver.build_step.
  rewrite Hc, Hri. simpl. destruct c as [|x c]; [done|]. simpl.
  by rewrite !lookup_insert_eq.
Qed.

End TwoCopies.

Lemma alias_maps_agree_witness :
  Agent.resolve_chat (U " Saved") (Agent.build_alias_map [blank_alias; smeta]).1
  = ChatResolver.resolve_chat
      (U " Saved") (ChatResolver.build_alias_map [blank_alias; smeta]).1.
Proof.
  apply (proj1 (proj2 (alias_maps_agree [blank_alias; smeta]))).
  - repeat constructor; by vm_compute.
  - by vm_compute.
  - by vm_compute.
Defined.

(** Where the normalizers differ the two copies differ: the name "Артём"
    is found under "Артем" by chat_resolver.py only, and under the stored
    spelling of "Артём" with U+2013 U+00B5 for the pair by agent.py
    only. *)
Example alias_maps_differ :
  ChatResolver.resolve_chat (U "Артем") (ChatResolver.build_alias_map [artyom]).1
  = Some (U "Артём")
  /\ Agent.resolve_chat (U "Артем") (Agent.build_alias_map [artyom]).1 = None
  /\ Agent.norm (U "Артём") = U "артём"
  /\ Agent.norm [8212; 235] = [8211; 181]
  /\ ChatResolver.norm [8212; 235] = [8212; 235].
Proof. repeat split; by vm_compute. Qed.

Lemma index_of_last_configured_witness :
  (Agent.build_alias_map ([blank_alias] ++ izbrannoe :: [smeta; maksim])).2
    !! U "Избранное" = Some (Some 0%Z)
  /\ (ChatResolver.build_alias_map
        ([blank_alias] ++ izbrannoe :: [smeta; maksim])).2
       !! U "Избранное" = Some (Some 0%Z).
Proof.
  apply (index_of_last_configured [blank_alias] [smeta; maksim] izbrannoe
                                  (U "Избранное") (Some 0%Z)).
  - reflexivity.
  - discriminate.
  - reflexivity.
  - repeat constructor; by vm_compute.
Defined.

(** ** [execute_command] *)

Section ExecuteCommand.
Context `{CaseOps}.
Variable daemon : list jval -> jval -> post_result.
Variable hammer_url : ustr.

Lemma hs_call_result (payload : jval) (tr : list jval) :
  exists v, Agent.hs_call daemon hammer_url payload tr = (Ok v, tr ++ [payload]).
Proof.
  destruct (hs_call_returns daemon hammer_url payload tr) as [v Hv].
  pose proof (hs_call_trace daemon hammer_url payload tr) as Ht.
  destruct (Agent.hs_call daemon hammer_url payload tr) as [o t].
  simpl in Hv, Ht. subst. by exists v.
Qed.

Ltac hs_step H v :=
  unfold io_bind at 1 in H;
  match type of H with
  | context [Agent.hs_call ?d ?u ?p ?tr] =>
      let Hv := fresh "Hv" in
      destruct (hs_call_result p tr) as [v Hv]; rewrite Hv in H
  end.

Ltac hs_ack_step H v Hs :=
  unfold io_bind at 1 in H;
  match type of H with
  | context [Agent.hs_call ?d ?u ?p ?tr] =>
      let Hv := fresh "Hv" in
      destruct (hs_call_ack d u p tr) as (v & Hv & Hs); rewrite Hv in H
  end.

Lemma agent_resolve_listed (tracked : list item) (t c : ustr) :
  Agent.resolve_chat t (Agent.build_alias_map tracked).1 = Some c ->
  listed Agent.norm tracked (Agent.norm t) c.
Proof.
  unfold Agent.resolve_chat.
  destruct (Agent.norm t) eqn:Hn; [done|].
  apply (proj2 (alias_map_listed tracked)).
Qed.

(** X6.  The whitelist step lets a command through only for a canonical
    name of the whitelist that lists the target, up to agent.py's [norm],
    with the index configured for it; with the whitelist disabled, also
    for the target as typed, with index 0. *)
Theorem whitelist_gate_admits (tracked : list item) (dw : bool)
    (t c : ustr) (ri : option Z) :
  Agent.whitelist_gate dw (Agent.build_alias_map tracked).1
                       (Agent.build_alias_map tracked).2 t = Some (c, ri) ->
  (listed Agent.norm tracked (Agent.norm t) c
   /\ ri = mjoin ((Agent.build_alias_map tracked).2 !! c))
  \/ (dw = true /\ c = t /\ ri = Some 0%Z
      /\ Agent.resolve_chat t (Agent.build_alias_map tracked).1 = None).
Proof.
  unfold Agent.whitelist_gate.
  destruct (Agent.resolve_chat t _) as [[|x cn]|] eqn:Hr.
  - apply agent_resolve_listed in Hr. by destruct Hr as (? & ? & ? & ? & ?).
  - intros [= <- <-]. left. split; [|done]. by apply agent_resolve_listed.
  - destruct dw; [|done]. intros [= <- <-]. by right.
Qed.

(** X7.  What [execute_command] sends: nothing, or [open_chat] for the name and
    index the whitelist step gave, followed by at most one more request,
    [paste] for the paste intent or [send] with the cleaned, non-empty
    message for a typing intent.  No request is ever repeated. *)
Theorem execute_command_requests
    (tracked : list item) (dw : bool) (user_text : ustr)
    i tg msg (tr : list jval) :
  Agent.parse_command user_text = (i, tg, msg) ->
  let sent :=
    (Agent.execute_command daemon hammer_url (Some tracked) dw user_text tr).2 in
  sent = tr
  \/ exists c ri,
       Agent.whitelist_gate dw (Agent.build_alias_map tracked).1
                            (Agent.build_alias_map tracked).2 (default [] tg)
       = Some (c, ri)
       /\ (sent = tr ++ [Agent.open_chat_payload c ri]
           \/ (i = Some "paste_to_chat"%string
               /\ sent = tr ++ [Agent.open_chat_payload c ri; paste_payload])
           \/ (i <> Some "paste_to_chat"%string
               /\ i <> Some "open_chat_only"%string
               /\ Agent.clean_one_line (default [] msg) <> []
               /\ sent = tr ++ [Agent.open_chat_payload c ri;
                                send_payload
                                  (Agent.clean_one_line (default [] msg))])).
Proof.
  intros Hp sent.
  remember (Agent.execute_command daemon hammer_url (Some tracked) dw
                                  user_text tr) as out eqn:Hout.
  subst sent. unfold Agent.execute_command in Hout. rewrite Hp in Hout.
  unfold Agent.run_parsed in Hout.
  destruct i as [[|a i]|]; [left; by subst out| |left; by subst out].
  destruct (Agent.build_alias_map tracked) as [am rim]. cbn [fst snd].
  destruct (Agent.whitelist_gate dw am rim (default [] tg)) as [[c ri]|];
    [|left; by subst out].
  right. exists c, ri. split; [done|].
  hs_step Hout v1. unfold io_bind at 1, Agent.get_ok in Hout.
  destruct v1 as [| | | | |d1]; try (left; by subst out).
  unfold io_ret at 1 in Hout.
  destruct (truthy (default (JBool false) (dict_get "ok" d1)));
    [|left; by subst out].
  cbn [negb] in Hout.
  destruct (String.eqb (String a i) "open_chat_only") eqn:Ho;
    [left; by subst out|].
  destruct (String.eqb (String a i) "paste_to_chat") eqn:Hpa.
  - right. left. apply String.eqb_eq in Hpa. split; [by rewrite Hpa|].
    hs_step Hout v2. unfold io_bind, Agent.get_ok, io_ret, io_raise in Hout.
    subst out. rewrite <- app_assoc. by destruct v2.
  - apply String.eqb_neq in Ho, Hpa.
    destruct (Agent.clean_one_line (default [] msg)) as [|x m] eqn:Hm;
      [left; by subst out|].
    right. right. split; [congruence|]. split; [congruence|].
    split; [done|].
    hs_step Hout v2. unfold io_bind, Agent.get_ok, io_ret, io_raise in Hout.
    subst out. rewrite <- app_assoc. by destruct v2.
Qed.

(** X8.  [execute_command] returns [True] only for a recognised command
    that passed the whitelist step, after the daemon acknowledged the
    [open_chat] request for the name and index of that step and, unless
    the intent was to open the chat only, acknowledged the second request
    too: [paste] for the paste intent, [send] with the cleaned, non-empty
    message otherwise.  Exactly these requests have been sent. *)
Theorem execute_command_success
    (tracked_file : option (list item)) (dw : bool) (user_text : ustr)
    (tr tr' : list jval) :
  Agent.execute_command daemon hammer_url tracked_file dw user_text tr
  = (Ok true, tr') ->
  exists tracked i tg msg c ri,
    tracked_file = Some tracked
    /\ Agent.parse_command user_text = (Some i, tg, msg)
    /\ Agent.whitelist_gate dw (Agent.build_alias_map tracked).1
                            (Agent.build_alias_map tracked).2 (default [] tg)
       = Some (c, ri)
    /\ acknowledged daemon tr (Agent.open_chat_payload c ri) = true
    /\ ((i = "open_chat_only"%string
         /\ tr' = tr ++ [Agent.open_chat_payload c ri])
        \/ exists second,
             (i = "paste_to_chat"%string /\ second = paste_payload
              \/ i <> "open_chat_only"%string /\ i <> "paste_to_chat"%string
                 /\ Agent.clean_one_line (default [] msg) <> []
                 /\ second
                    = send_payload (Agent.clean_one_line (default [] msg)))
             /\ acknowledged daemon (tr ++ [Agent.open_chat_payload c ri])
                             second = true
             /\ tr' = tr ++ [Agent.open_chat_payload c ri; second]).
Proof.
  unfold Agent.execute_command, Agent.run_parsed.
  destruct (Agent.parse_command user_text) as [[i tg] msg].
  destruct i as [[|a i]|]; [done| |done].
  destruct tracked_file as [tracked|]; [|done].
  destruct (Agent.build_alias_map tracked) as [am rim] eqn:Hmaps.
  destruct (Agent.whitelist_gate dw am rim (default [] tg)) as [[c ri]|] eqn:Hg;
    [|done].
  intros Hout. hs_ack_step Hout v1 Hs1.
  unfold io_bind at 1, Agent.get_ok in Hout.
  destruct v1 as [| | | | |d1]; try done.
  unfold io_ret at 1 in Hout. cbn [succeeded] in Hs1.
  destruct (truthy (default (JBool false) (dict_get "ok" d1))); [|done].
  cbn [negb] in Hout.
  exists tracked, (String a i), tg, msg, c, ri.
  split; [done|]. split; [done|]. split; [by rewrite Hmaps|]. split; [done|].
  destruct (String.eqb (String a i) "open_chat_only") eqn:Ho.
  { left. apply String.eqb_eq in Ho. by injection Hout as <-. }
  right. apply String.eqb_neq in Ho.
  destruct (String.eqb (String a i) "paste_to_chat") eqn:Hpa.
  - apply String.eqb_eq in Hpa. exists paste_payload.
    split; [by left|].
    hs_ack_step Hout v2 Hs2.
    unfold io_bind, Agent.get_ok, io_ret, io_raise in Hout.
    destruct v2 as [| | | | |d2]; try done. cbn [succeeded] in Hs2.
    injection Hout as Hok2 <-. rewrite <- app_assoc.
    split; [|done]. unfold paste_payload, send_payload. by rewrite <- Hs2.
  - apply String.eqb_neq in Hpa.
    destruct (Agent.clean_one_line (default [] msg)) as [|x m] eqn:Hm; [done|].
    exists (send_payload (x :: m)). split; [by right|].
    hs_ack_step Hout v2 Hs2.
    unfold io_bind, Agent.get_ok, io_ret, io_raise in Hout.
    destruct v2 as [| | | | |d2]; try done. cbn [succeeded] in Hs2.
    injection Hout as Hok2 <-. rewrite <- app_assoc.
    split; [|done]. unfold paste_payload, send_payload. by rewrite <- Hs2.
Qed.

(** X9.  [hs_call] does not raise, but [execute_command] does when the daemon
    answers [open_chat] with status 200 and a JSON value that is not an
    object: the reply has no [get].  One request has been sent by then. *)
Theorem execute_command_raises
    (tracked : list item) (dw : bool) (user_text : ustr)
    (c : ustr) (ri : option Z) (tr : list jval) (r : response) (v : jval) :
  (Agent.parse_command user_text).1.1 <> None ->
  (Agent.parse_command user_text).1.1 <> Some EmptyString ->
  Agent.whitelist_gate dw (Agent.build_alias_map tracked).1
                       (Agent.build_alias_map tracked).2
                       (default [] (Agent.parse_command user_text).1.2)
  = Some (c, ri) ->
  daemon tr (Agent.open_chat_payload c ri) = PostReturned r ->
  status_code r = 200%Z ->
  json r = Some v ->
  (forall d, v <> JDict d) ->
  Agent.execute_command daemon hammer_url (Some tracked) dw user_text tr
  = (Raise (U "AttributeError"), tr ++ [Agent.open_chat_payload c ri]).
Proof.
  unfold Agent.execute_command, Agent.run_parsed.
  destruct (Agent.parse_command user_text) as [[i tg] msg]. cbn [fst snd].
  intros Hi1 Hi2 Hg Hd Hs Hj Hv.
  destruct i as [[|a i]|]; [done| |done].
  destruct (Agent.build_alias_map tracked) as [am rim]. cbn [fst snd] in Hg.
  rewrite Hg. unfold io_bind at 1.
  unfold Agent.hs_call at 1, io_bind, try_except, session_post, io_ret.
  rewrite Hd. cbn [fst snd]. rewrite Hs. cbn [Z.eqb Pos.eqb negb].
  unfold response_json. rewrite Hj. unfold io_ret, Agent.get_ok, io_raise.
  destruct v as [| | | | |d]; try done. by destruct (Hv d).
Qed.

End ExecuteCommand.

Lemma whitelist_gate_admits_witness :
  (listed Agent.norm [smeta; izbrannoe] (Agent.norm (U "Saved")) (U "Избранное")
   /\ Some 0%Z
      = mjoin ((Agent.build_alias_map [smeta; izbrannoe]).2 !! U "Избранное"))
  \/ (false = true /\ U "Избранное" = U "Saved" /\ Some 0%Z = Some 0%Z
      /\ Agent.resolve_chat (U "Saved")
                            (Agent.build_alias_map [smeta; izbrannoe]).1 = None).
Proof.
  apply (whitelist_gate_admits [smeta; izbrannoe] false (U "Saved")
                               (U "Избранное") (Some 0%Z)).
  by vm_compute.
Defined.

(** The command is given in the stored spelling, the only one agent.py
    recognises; its target is then not a name of the whitelist, and the
    whitelist is switched off. *)
Lemma execute_command_requests_witness :
  let sent :=
    (Agent.execute_command healthy_daemon local_url (Some [izbrannoe]) true
                           note_text_stored []).2 in
  sent = []
  \/ exists c ri,
       Agent.whitelist_gate true (Agent.build_alias_map [izbrannoe]).1
                            (Agent.build_alias_map [izbrannoe]).2
                            (default [] (Some izbrannoe_stored))
       = Some (c, ri)
       /\ (sent = [] ++ [Agent.open_chat_payload c ri]
           \/ (Some "type_to_chat"%string = Some "paste_to_chat"%string
               /\ sent = [] ++ [Agent.open_chat_payload c ri; paste_payload])
           \/ (Some "type_to_chat"%string <> Some "paste_to_chat"%string
               /\ Some "type_to_chat"%string <> Some "open_chat_only"%string
               /\ Agent.clean_one_line (default [] (Some hleb_stored)) <> []
               /\ sent = [] ++ [Agent.open_chat_payload c ri;
                                send_payload
                                  (Agent.clean_one_line
                                     (default [] (Some hleb_stored)))])).
Proof.
  apply (execute_command_requests healthy_daemon local_url [izbrannoe] true
                                  note_text_stored (Some "type_to_chat"%string)
                                  (Some izbrannoe_stored)
                                  (Some hleb_stored) []).
  by vm_compute.
Defined.

Example execute_command_requests_sent :
  (Agent.execute_command healthy_daemon local_url (Some [izbrannoe]) true
                         note_text_stored []).2
  = [Agent.open_chat_payload izbrannoe_stored (Some 0%Z);
     send_payload hleb_stored].
Proof. by vm_compute. Qed.

Lemma execute_command_success_witness :
  exists tracked i tg msg c ri,
    Some [izbrannoe] = Some tracked
    /\ Agent.parse_command paste_text_stored = (Some i, tg, msg)
    /\ Agent.whitelist_gate true (Agent.build_alias_map tracked).1
                            (Agent.build_alias_map tracked).2 (default [] tg)
       = Some (c, ri)
    /\ acknowledged healthy_daemon [] (Agent.open_chat_payload c ri) = true
    /\ ((i = "open_chat_only"%string
         /\ [Agent.open_chat_payload izbrannoe_stored (Some 0%Z); paste_payload]
            = [] ++ [Agent.open_chat_payload c ri])
        \/ exists second,
             (i = "paste_to_chat"%string /\ second = paste_payload
              \/ i <> "open_chat_only"%string /\ i <> "paste_to_chat"%string
                 /\ Agent.clean_one_line (default [] msg) <> []
                 /\ second
                    = send_payload (Agent.clean_one_line (default [] msg)))
             /\ acknowledged healthy_daemon
                             ([] ++ [Agent.open_chat_payload c ri])
                             second = true
             /\ [Agent.open_chat_payload izbrannoe_stored (Some 0%Z);
                 paste_payload]
                = [] ++ [Agent.open_chat_payload c ri; second]).
Proof.
  apply (execute_command_success healthy_daemon local_url (Some [izbrannoe])
                                 true paste_text_stored []).
  by vm_compute.
Defined.

Lemma execute_command_raises_witness :
  Agent.execute_command list_daemon local_url (Some [izbrannoe]) true
                        paste_text_stored []
  = (Raise (U "AttributeError"),
     [] ++ [Agent.open_chat_payload izbrannoe_stored (Some 0%Z)]).
Proof.
  apply (execute_command_raises list_daemon local_url [izbrannoe] true
           paste_text_stored izbrannoe_stored (Some 0%Z) []
           {| status_code := 200; text := U "[]"; json := Some (JList []) |}
           (JList [])).
  - by vm_compute.
  - by vm_compute.
  - by vm_compute.
  - reflexivity.
  - reflexivity.
  - reflexivity.
  - discriminate.
Defined.

(** ** drivers/telegram.py and core/executor.py *)

Section ExecutorFacts.
Context `{CaseOps}.
Variable daemon : list jval -> jval -> post_result.
Variable env_hammer_url : ustr.

Lemma call_hammer_step (d : TelegramDriver) (payload : jval) (tr : list jval) :
  exists res, Executor.call_hammer daemon d payload tr = (Ok res, tr ++ [payload]).
Proof.
  unfold Executor.call_hammer, io_bind, try_except, session_post, io_ret.
  destruct (daemon tr payload) as [e|r]; cbn [fst snd]; [by eexists|].
  destruct (negb (status_code r =? 200)%Z); [by eexists|].
  unfold response_json, io_ret, io_raise.
  destruct (json r) as [[| | | | |dct]|]; try by eexists.
  destruct (truthy _); by eexists.
Qed.

(** X10.  [_call_hammer] sends one request and never raises.  Its result is [ok]
    exactly when the daemon answered with status 200 and a JSON object
    whose [ok] is true, and then [data] is that object; a reply that is
    not an object counts as a failure; the body reported under [raw] is
    cut to 5000 characters. *)
Theorem call_hammer_result
    (d : TelegramDriver) (payload : jval) (tr : list jval) :
  exists res,
    Executor.call_hammer daemon d payload tr = (Ok res, tr ++ [payload])
    /\ match daemon tr payload with
       | PostRaised e => ok res = false /\ data res = None
       | PostReturned r =>
           match (if (status_code r =? 200)%Z then json r else None) with
           | Some (JDict dct) =>
               ok res = truthy (default (JBool false) (dict_get "ok" dct))
               /\ data res = Some (JDict dct)
           | _ =>
               ok res = false
               /\ exists dd raw,
                    data res = Some (JDict dd)
                    /\ dict_get "raw" dd = Some (JStr raw)
                    /\ raw = take raw_limit (text r)
                    /\ (length raw <= raw_limit)%nat
           end
       end.
Proof.
  unfold Executor.call_hammer, io_bind, try_except, session_post, io_ret.
  destruct (daemon tr payload) as [e|r]; cbn [fst snd]; [by eexists|].
  assert (Hcap : (length (take raw_limit (text r)) <= raw_limit)%nat)
    by (rewrite length_take; apply Nat.le_min_l).
  destruct (status_code r =? 200)%Z; cbn [negb].
  2:{ eexists. split; [done|]. split; [done|]. by eexists _, _. }
  unfold response_json, io_ret, io_raise.
  destruct (json r) as [[| | | | |dct]|];
    try (eexists; split; [done|]; split; [done|]; by eexists _, _).
  destruct (truthy (default (JBool false) (dict_get "ok" dct))) eqn:Hok;
    eexists; (split; [done|]); by rewrite ?Hok.
Qed.

(** X11.  [CommandExecutor.execute] never raises.  It sends nothing, or
    [open_chat] followed by at most one more request: [paste] for the paste
    intent, [send] with the parsed message, which is then not empty, for
    the send intent. *)
Theorem executor_requests
    (drivers : gmap string driver_config) (pc : ParsedCommand)
    (alias_map : gmap ustr ustr) (result_index_map : gmap ustr (option Z))
    (dw : bool) (tr : list jval) :
  exists b sent,
    Executor.execute daemon env_hammer_url drivers pc alias_map
                     result_index_map dw tr = (Ok b, sent)
    /\ (sent = tr /\ b = false
        \/ exists q idx,
             q <> []
             /\ (sent = tr ++ [driver_open_payload q idx]
                 \/ (intent pc = "paste_to_chat"%string
                     /\ sent = tr ++ [driver_open_payload q idx; paste_payload])
                 \/ (intent pc = "send_message"%string
                     /\ exists m, message pc = Some m /\ m <> []
                          /\ sent = tr ++ [driver_open_payload q idx;
                                           send_payload m]))).
Proof.
  remember (Executor.execute daemon env_hammer_url drivers pc alias_map
                             result_index_map dw tr) as out eqn:Hout.
  unfold Executor.execute in Hout.
  destruct (Executor.get_driver env_hammer_url drivers (driver pc)) as [drv|];
    [|exists false, tr; subst out; split; [done|by left]].
  match type of Hout with
  | context [match ?x with Some _ => _ | None => io_ret false end] =>
      destruct x as [[canonical ri]|] eqn:Hres
  end; [|exists false, tr; subst out; split; [done|by left]].
  clear Hres.
  unfold Executor.action_registry, Executor.telegram_actions in Hout.
  destruct (String.eqb (driver pc) "telegram");
    [|exists false, tr; subst out; split; [done|by left]].
  destruct (String.eqb (intent pc) "open_chat_only") eqn:H1.
  { unfold io_bind at 1, Executor.open_chat_only_action in Hout.
    cbn [ctx_target] in Hout.
    destruct canonical as [[|c cn]|];
      try (exists false, tr; subst out; split; [done|by left]).
    unfold Executor.open_for, Executor.open_chat, Executor.param in Hout.
    cbn [extra_params ctx_driver dict_get String.eqb Ascii.eqb Bool.eqb
         default from_option id] in Hout.
    destruct (call_hammer_step drv
                (driver_open_payload (c :: cn) (Executor.index_value ri)) tr)
      as [res Hr].
    unfold driver_open_payload in Hr. rewrite Hr in Hout.
    unfold io_ret in Hout. exists (ok res), (tr ++ [driver_open_payload (c :: cn) (Executor.index_value ri)]).
    split; [done|]. right. exists (c :: cn), (Executor.index_value ri).
    split; [done|]. by left. }
  destruct (String.eqb (intent pc) "send_message") eqn:H2.
  { apply String.eqb_eq in H2.
    unfold io_bind at 1, Executor.send_message_action in Hout.
    cbn [ctx_target ctx_message] in Hout.
    destruct canonical as [[|c cn]|];
      try (exists false, tr; subst out; split; [by destruct (message pc) as [[|]|]|by left]).
    destruct (message pc) as [[|m ms]|] eqn:Hm;
      try (exists false, tr; subst out; split; [done|by left]).
    unfold Executor.open_for, Executor.open_chat, Executor.param in Hout.
    cbn [extra_params ctx_driver dict_get String.eqb Ascii.eqb Bool.eqb
         default from_option id] in Hout.
    unfold io_bind at 1 in Hout.
    destruct (call_hammer_step drv
                (driver_open_payload (c :: cn) (Executor.index_value ri)) tr)
      as [res Hr].
    unfold driver_open_payload in Hr. rewrite Hr in Hout.
    fold (driver_open_payload (c :: cn) (Executor.index_value ri)) in Hout.
    destruct (ok res) eqn:Hok; cbn [negb] in Hout.
    - unfold Executor.send_message in Hout.
      destruct (call_hammer_step drv (send_payload (m :: ms))
                  (tr ++ [driver_open_payload (c :: cn) (Executor.index_value ri)]))
        as [res2 Hr2].
      unfold send_payload in Hr2. rewrite Hr2 in Hout. unfold io_ret in Hout.
      eexists _, _. split; [exact Hout|]. right.
      exists (c :: cn), (Executor.index_value ri). split; [done|].
      right. right. split; [done|]. exists (m :: ms).
      rewrite <- app_assoc. by repeat split.
    - unfold io_ret in Hout. rewrite Hok in Hout.
      eexists _, _. split; [exact Hout|]. right.
      exists (c :: cn), (Executor.index_value ri). split; [done|]. by left. }
  destruct (String.eqb (intent pc) "paste_to_chat") eqn:H3;
    [|exists false, tr; subst out; split; [done|by left]].
  apply String.eqb_eq in H3.
  unfold io_bind at 1, Executor.paste_to_chat_action in Hout.
  cbn [ctx_target] in Hout.
  destruct canonical as [[|c cn]|];
    try (exists false, tr; subst out; split; [done|by left]).
  unfold Executor.open_for, Executor.open_chat, Executor.param in Hout.
  cbn [extra_params ctx_driver dict_get String.eqb Ascii.eqb Bool.eqb
       default from_option id] in Hout.
  unfold io_bind at 1 in Hout.
  destruct (call_hammer_step drv
              (driver_open_payload (c :: cn) (Executor.index_value ri)) tr)
    as [res Hr].
  unfold driver_open_payload in Hr. rewrite Hr in Hout.
  fold (driver_open_payload (c :: cn) (Executor.index_value ri)) in Hout.
  destruct (ok res) eqn:Hok; cbn [negb] in Hout.
  - unfold Executor.paste_from_clipboard in Hout.
    destruct (call_hammer_step drv paste_payload
                (tr ++ [driver_open_payload (c :: cn) (Executor.index_value ri)]))
      as [res2 Hr2].
    unfold paste_payload in Hr2. rewrite Hr2 in Hout. unfold io_ret in Hout.
    eexists _, _. split; [exact Hout|]. right.
    exists (c :: cn), (Executor.index_value ri). split; [done|].
    right. left. split; [done|]. by rewrite <- app_assoc.
  - unfold io_ret in Hout. rewrite Hok in Hout.
    eexists _, _. split; [exact Hout|]. right.
    exists (c :: cn), (Executor.index_value ri). split; [done|]. by left.
Qed.

End ExecutorFacts.

(** X12.  The modular executor checks the message before it opens the chat: a
    send command without a message sends nothing. *)
Theorem executor_checks_message_first `{CaseOps}
    (daemon : list jval -> jval -> post_result) (env_hammer_url : ustr)
    (drivers : gmap string driver_config) (pc : ParsedCommand)
    (alias_map : gmap ustr ustr) (result_index_map : gmap ustr (option Z))
    (dw : bool) (tr : list jval) :
  intent pc = "send_message"%string ->
  message pc = None \/ message pc = Some [] ->
  Executor.execute daemon env_hammer_url drivers pc alias_map
                   result_index_map dw tr = (Ok false, tr).
Proof.
  intros Hi Hm. unfold Executor.execute.
  destruct (Executor.get_driver env_hammer_url drivers (driver pc)); [|done].
  match goal with
  | |- context [match ?x with Some _ => _ | None => io_ret false end] =>
      destruct x as [[canonical ri]|]
  end; [|done].
  unfold Executor.action_registry, Executor.telegram_actions.
  destruct (String.eqb (driver pc) "telegram"); [|done].
  rewrite Hi. cbn [String.eqb Ascii.eqb Bool.eqb].
  unfold io_bind, Executor.send_message_action. cbn [ctx_target ctx_message].
  destruct canonical as [[|c cn]|]; destruct Hm as [Hm|Hm]; rewrite ?Hm; done.
Qed.

(** X13.  agent.py checks the message after it has opened the chat: a typing
    command whose message is empty after cleaning sends [open_chat] and
    nothing else, and does not succeed. *)
Theorem agent_opens_before_checking_message `{CaseOps}
    (daemon : list jval -> jval -> post_result) (hammer_url : ustr)
    (tracked : list item) (dw : bool) (user_text : ustr)
    (tg : option ustr) (msg : option ustr) (c : ustr) (ri : option Z)
    (tr : list jval) :
  (Agent.parse_command user_text = (Some "type_to_chat"%string, tg, msg)
   \/ Agent.parse_command user_text = (Some "open_and_type"%string, tg, msg)) ->
  Agent.clean_one_line (default [] msg) = [] ->
  Agent.whitelist_gate dw (Agent.build_alias_map tracked).1
                       (Agent.build_alias_map tracked).2 (default [] tg)
  = Some (c, ri) ->
  (Agent.execute_command daemon hammer_url (Some tracked) dw user_text tr).2
  = tr ++ [Agent.open_chat_payload c ri]
  /\ (Agent.execute_command daemon hammer_url (Some tracked) dw user_text tr).1
     <> Ok true.
Proof.
  intros Hp Hm Hg.
  remember (Agent.execute_command daemon hammer_url (Some tracked) dw
                                  user_text tr) as out eqn:Hout.
  unfold Agent.execute_command, Agent.run_parsed in Hout.
  destruct (Agent.build_alias_map tracked) as [am rim]. cbn [fst snd] in Hg.
  assert (Hrun : out =
    (let* resp1 := Agent.hs_call daemon hammer_url
                     (Agent.open_chat_payload c ri) in
     let* ok1 := Agent.get_ok resp1 in
     if negb ok1 then io_ret false else io_ret false) tr).
  { destruct Hp as [Hp|Hp]; rewrite Hp in Hout; rewrite Hg, Hm in Hout;
      exact Hout. }
  clear Hout. unfold io_bind at 1 in Hrun.
  destruct (hs_call_result daemon hammer_url
              (Agent.open_chat_payload c ri) tr) as [v Hv].
  rewrite Hv in Hrun. unfold io_bind, Agent.get_ok, io_ret, io_raise in Hrun.
  subst out. destruct v as [| | | | |d]; try done.
  by destruct (truthy (default (JBool false) (dict_get "ok" d))).
Qed.

Lemma executor_checks_message_first_witness :
  Executor.execute healthy_daemon local_url telegram_only
    {| intent := "send_message"; target := Some (U "Максим");
       message := Some []; driver := "telegram" |}
    (ChatResolver.build_alias_map [maksim]).1
    (ChatResolver.build_alias_map [maksim]).2 false []
  = (Ok false, []).
Proof.
  apply executor_checks_message_first; [reflexivity|by right].
Defined.

(** The command is rule 1 with a blank quotation, in the stored
    spelling; the whitelist is switched off. *)
Lemma agent_opens_before_checking_message_witness :
  (Agent.execute_command healthy_daemon local_url (Some [maksim]) true
                         blank_quote_stored []).2
  = [] ++ [Agent.open_chat_payload maksim_stored (Some 0%Z)]
  /\ (Agent.execute_command healthy_daemon local_url (Some [maksim]) true
                            blank_quote_stored []).1
     <> Ok true.
Proof.
  apply (agent_opens_before_checking_message healthy_daemon local_url [maksim]
           true blank_quote_stored (Some maksim_stored) (Some []) maksim_stored
           (Some 0%Z) []).
  - right. by vm_compute.
  - by vm_compute.
  - by vm_compute.
Defined.

(** ** The shape of what the parsers return *)

Section ParserShape.
Context `{CaseOps}.

Lemma rule_shape_ok (rx : regex) body (t : ustr) (p : Agent.parsed) :
  (forall m q, body m = Some q -> shape_ok q) ->
  Agent.rule rx body t = Some p -> shape_ok p.
Proof. intros Hb (m & _ & Hm)%rule_shape. by eapply Hb. Qed.

Ltac body_shape :=
  let Hq := fresh "Hq" in
  intros ? ? Hq; cbv beta zeta delta [Agent.plain Agent.paste] in Hq;
  repeat match type of Hq with
    | context [if ?x then _ else _] => destruct x
    | context [match ?x with [] => _ | _ :: _ => _ end] => destruct x
    | context [let '(_, _) := ?x in _] => destruct x
    end;
  try discriminate; injection Hq as <-;
  unfold shape_ok, Agent.type_to_chat; eexists;
  first [ left; eexists; reflexivity
        | right; left; eexists; reflexivity
        | right; right; left; reflexivity
        | right; right; right; reflexivity ].

Lemma rules_shape_ok (t : ustr) (p : Agent.parsed) :
  Agent.first_match
    (Agent.rules_before ++ Agent.rule_words :: Agent.rules_after) t = Some p ->
  shape_ok p.
Proof.
  apply first_match_prop.
  repeat (apply Forall_cons; split;
          [match goal with
           | |- forall q, ?r _ = Some q -> _ =>
               let r' := eval red in r in
               change (forall q, r' t = Some q -> shape_ok q)
           end;
           intros q; apply rule_shape_ok; body_shape|]).
  constructor.
Qed.

(** X14.  [parse_command] returns nothing at all or an intent with a target:
    one of the two typing intents, with a message, or the paste or
    open-only intent, without one. *)
Theorem parse_command_shape (text : ustr) :
  Agent.parse_command text = (None, None, None)
  \/ shape_ok (Agent.parse_command text).
Proof.
  unfold Agent.parse_command.
  destruct (Agent.first_match _ (strip text)) as [p|] eqn:Hf; [|by left].
  right. by apply rules_shape_ok in Hf.
Qed.

End ParserShape.

Section TelegramParserShape.
Context `{CaseOps}.
Variable daemon : list jval -> jval -> post_result.

Lemma tp_first_match_prop (P : ParsedCommand -> Prop) rs (t : ustr) pc :
  Forall (fun r => forall pc, r t = Some pc -> P pc) rs ->
  TelegramParser.first_match rs t = Some pc -> P pc.
Proof.
  induction 1 as [|r rs Hr _ IH]; simpl; [done|].
  destruct (r t) as [q|] eqn:Hq; [|done]. intros [= <-]. by apply Hr.
Qed.

Ltac tp_body :=
  let Hb := fresh "Hb" in
  intros ? (? & _ & Hb)%tp_rule_shape;
  cbv beta zeta delta [TelegramParser.send] in Hb;
  repeat match type of Hb with
    | context [if ?x then _ else _] => destruct x
    end;
  try discriminate; injection Hb as <-;
  cbv beta; unfold command_ok; cbn [intent target message driver];
  split; [|eexists; reflexivity];
  split; [reflexivity|]; split; [by eexists|];
  first [ by left; split; [|eexists]
        | by right; left
        | by right; right ].

(** X15.  Every command the Telegram parser returns carries the parser's driver
    name and a target, has one of the three intents of the Telegram action
    table, which has an action for it, and carries a message exactly when
    it is a send command. *)
Theorem telegram_parse_shape (driver_name : string) (text : ustr)
    (pc : ParsedCommand) :
  TelegramParser.parse driver_name text = Some pc ->
  command_ok driver_name pc
  /\ is_Some (Executor.action_registry daemon "telegram" (intent pc)).
Proof.
  unfold TelegramParser.parse. cbv zeta.
  destruct (strip text) as [|c t]; [done|]. generalize (c :: t).
  clear c t. intros t.
  apply (tp_first_match_prop
           (fun pc => command_ok driver_name pc
                      /\ is_Some (Executor.action_registry
                                    daemon "telegram" (intent pc)))).
  unfold TelegramParser.rules.
  repeat (apply Forall_cons; split; [tp_body|]).
  constructor.
Qed.

End TelegramParserShape.

Lemma telegram_parse_shape_witness :
  command_ok "telegram"
    {| intent := "paste_to_chat"; target := Some (U "избранное");
       message := None; driver := "telegram" |}
  /\ is_Some (Executor.action_registry healthy_daemon "telegram"
                                       "paste_to_chat").
Proof.
  apply (telegram_parse_shape healthy_daemon "telegram" paste_text).
  by vm_compute.
Defined.

(** ** agent.py recognises the stored spelling only *)

Section StoredSpelling.
Context `{CaseOps}.

Lemma run_begins (d : N -> bool) (r : regex) :
  begins_with d r = true ->
  forall st,
    match rest st with
    | [] => True
    | c :: _ => forall a, d a = true -> ci_eq a c = false
    end ->
    run true r st = [].
Proof.
  induction r as [|k|r1 IH1 r2 _|r1 IH1 r2 IH2|r1 _|g mn k|nm r1 IH1| |];
    simpl; try done.
  - destruct k as [| |a|l]; try done. intros Ha st Hst.
    destruct (rest st) as [|c s']; [done|].
    unfold cmatch, chr_eq. by rewrite (Hst a Ha).
  - intros Hb st Hst. by rewrite (IH1 Hb st Hst).
  - intros [Hb1 Hb2]%andb_prop st Hst.
    by rewrite (IH1 Hb1 st Hst), (IH2 Hb2 st Hst).
  - intros Hb st Hst. by rewrite (IH1 Hb st Hst).
Qed.

Lemma search_begins (d : N -> bool) (r : regex) (s : ustr) :
  begins_with d r = true ->
  Forall (fun c => forall a, d a = true -> ci_eq a c = false) s ->
  forall p, search_from true r p s = None.
Proof.
  intros Hb Hs. induction Hs as [|c s Hc _ IH]; intros p; simpl.
  - by rewrite (run_begins d r Hb).
  - rewrite (run_begins d r Hb); [apply IH|done].
Qed.

Ltac rule_none Ht :=
  match goal with
  | |- ?r _ = None =>
      let r' := eval red in r in
      change r with r'; unfold Agent.rule, re_search;
      match goal with
      | |- context [search_from true ?rx ?p ?s] =>
          rewrite (search_begins is_dash rx s eq_refl Ht p)
      end
  end.

(** X16.  [parse_command] recognises no text that is free of U+2013 and
    U+2014: each of its patterns begins with the stored spelling of a
    Cyrillic letter, which begins with one of the two.  So it returns
    nothing for every command typed or recognised in Cyrillic, and
    [execute_command] then sends no request, whatever the whitelist. *)
Theorem parse_command_needs_stored_spelling (text : ustr) :
  (forall c, ci_eq 8211 c = true -> c = 8211) ->
  (forall c, ci_eq 8212 c = true -> c = 8212) ->
  8211 ∉ text -> 8212 ∉ text ->
  Agent.parse_command text = (None, None, None)
  /\ forall daemon hammer_url tracked_file disable_whitelist tr,
       Agent.execute_command daemon hammer_url tracked_file disable_whitelist
                             text tr
       = (Ok false, tr).
Proof.
  intros H1 H2 Hn1 Hn2.
  assert (Ht : Forall (fun c => forall a, is_dash a = true -> ci_eq a c = false)
                      (strip text)).
  { apply Forall_forall. intros c Hc%strip_elem a Ha.
    destruct (ci_eq a c) eqn:Hac; [|done]. exfalso.
    apply orb_prop in Ha as [->%N.eqb_eq | ->%N.eqb_eq].
    - apply H1 in Hac as ->. by apply Hn1.
    - apply H2 in Hac as ->. by apply Hn2. }
  assert (Hp : Agent.parse_command text = (None, None, None)).
  { unfold Agent.parse_command. cbv zeta.
    assert (Hf : Forall (fun r : ustr -> option Agent.parsed =>
                           r (strip text) = None)
                   (Agent.rules_before ++ Agent.rule_words
                                       :: Agent.rules_after)).
    { unfold Agent.rules_before, Agent.rules_after.
      repeat (apply Forall_cons; split; [by rule_none Ht|]).
      constructor. }
    revert Hf. generalize (Agent.rules_before ++ Agent.rule_words
                                              :: Agent.rules_after).
    intros rs Hf. induction Hf as [|r rs Hr _ IH]; [done|].
    simpl. by rewrite Hr. }
  split; [done|]. intros daemon hammer_url tracked_file dw tr.
  unfold Agent.execute_command. by rewrite Hp.
Qed.

End StoredSpelling.

Lemma ci_eq_dash (a c : N) :
  is_dash a = true -> @ci_eq cyrillic_case a c = true -> c = a.
Proof.
  intros Ha Hc%N.eqb_eq.
  assert (Hl : lower_cp a = a)
    by (apply orb_prop in Ha as [->%N.eqb_eq | ->%N.eqb_eq]; reflexivity).
  rewrite Hl in Hc.
  assert (8211 <= a <= 8212)
    by (apply orb_prop in Ha as [->%N.eqb_eq | ->%N.eqb_eq]; lia).
  destruct (lower_cp_spec c) as [[? ?]|[[? ?]|(_ & _ & _ & _ & ?)]]; lia.
Qed.

Lemma parse_command_needs_stored_spelling_witness :
  Agent.parse_command note_text = (None, None, None)
  /\ forall daemon hammer_url tracked_file disable_whitelist tr,
       Agent.execute_command daemon hammer_url tracked_file disable_whitelist
                             note_text tr
       = (Ok false, tr).
Proof.
  apply parse_command_needs_stored_spelling.
  - intros c. by apply ci_eq_dash.
  - intros c. by apply ci_eq_dash.
  - apply (bool_decide_unpack _). by vm_compute.
  - apply (bool_decide_unpack _). by vm_compute.
Defined.

(** ** ocr_find_chat.py: what the line matcher returns *)

Section MatcherResult.
Context `{CaseOps}.

Lemma Qgt_b_lt (a b : Q) : OcrFindChat.Qgt_b a b = true <-> (b < a)%Q.
Proof.
  unfold OcrFindChat.Qgt_b. rewrite negb_true_iff.
  split.
  - intros Hb. apply Qnot_le_lt. intros Hle%Qle_bool_iff. congruence.
  - intros Hlt. destruct (Qle_bool a b) eqn:Hb; [|done].
    apply Qle_bool_iff in Hb. by apply Qlt_not_le in Hlt.
Qed.

Lemma Qgt_b_le (a b : Q) : OcrFindChat.Qgt_b a b = false <-> (a <= b)%Q.
Proof.
  unfold OcrFindChat.Qgt_b. rewrite negb_false_iff. apply Qle_bool_iff.
Qed.

Lemma strategy1_first (tn : ustr) (lines : list ustr) :
  forall (i k : nat) (l : ustr),
    lines !! k = Some l ->
    exact_hit tn l = true ->
    Forall (fun l' => exact_hit tn l' = false) (take k lines) ->
    OcrFindChat.strategy1 tn i lines = Some (i + k)%nat.
Proof.
  induction lines as [|x ls IH]; intros i k l Hl Hhit Hno; [done|].
  cbn [OcrFindChat.strategy1]. fold (exact_hit tn x).
  destruct k as [|k]; simpl in Hl.
  - injection Hl as ->. rewrite Hhit. by rewrite Nat.add_0_r.
  - rewrite firstn_cons in Hno. apply Forall_cons in Hno as [-> Hno].
    rewrite (IH (S i) k l Hl Hhit Hno). f_equal. lia.
Qed.

Lemma strategy1_spec (tn : ustr) (lines : list ustr) (i : nat) :
  match OcrFindChat.strategy1 tn i lines with
  | Some r => exists (k : nat) l,
      r = (i + k)%nat /\ lines !! k = Some l /\ exact_hit tn l = true
  | None => Forall (fun l => exact_hit tn l = false) lines
  end.
Proof.
  revert i. induction lines as [|x ls IH]; intros i; [by constructor|].
  cbn [OcrFindChat.strategy1]. fold (exact_hit tn x).
  destruct (exact_hit tn x) eqn:Hx.
  - exists 0%nat, x. by rewrite Nat.add_0_r.
  - specialize (IH (S i)). destruct (OcrFindChat.strategy1 tn (S i) ls).
    + destruct IH as (k & l & -> & Hl & Hh). exists (S k), l.
      split; [lia|done].
    + by constructor.
Qed.

Lemma strategy2_spec (tn : ustr) (lines : list ustr) (i : nat) :
  match OcrFindChat.strategy2 tn i lines with
  | Some r => exists (k : nat) l,
      r = (i + k)%nat /\ lines !! k = Some l /\ close_hit tn l = true
  | None => Forall (fun l => close_hit tn l = false) lines
  end.
Proof.
  revert i. induction lines as [|x ls IH]; intros i; [by constructor|].
  cbn [OcrFindChat.strategy2]. cbv zeta. fold (close_hit tn x).
  destruct (close_hit tn x) eqn:Hx.
  - exists 0%nat, x. by rewrite Nat.add_0_r.
  - specialize (IH (S i)). destruct (OcrFindChat.strategy2 tn (S i) ls).
    + destruct IH as (k & l & -> & Hl & Hh). exists (S k), l.
      split; [lia|done].
    + by constructor.
Qed.

Lemma strategy3_best (tn : ustr) (lines : list ustr) :
  forall (i : nat) (b : Z) (bs : Q),
    (OcrFindChat.strategy3 tn i lines b bs = b
     /\ Forall (fun l => (OcrFindChat.score tn l <= bs)%Q
                         \/ (OcrFindChat.score tn l <= 7 # 10)%Q) lines)
    \/ exists (k : nat) l,
         OcrFindChat.strategy3 tn i lines b bs = Z.of_nat (i + k)
         /\ lines !! k = Some l
         /\ (bs < OcrFindChat.score tn l)%Q
         /\ (7 # 10 < OcrFindChat.score tn l)%Q
         /\ forall (j : nat) l', lines !! j = Some l' ->
              (OcrFindChat.score tn l' <= OcrFindChat.score tn l)%Q
              /\ ((j < k)%nat ->
                  (OcrFindChat.score tn l' < OcrFindChat.score tn l)%Q).
Proof.
  induction lines as [|x ls IH]; intros i b bs.
  { left. by split. }
  cbn [OcrFindChat.strategy3]. cbv zeta.
  destruct (_ && _) eqn:Hc.
  - apply andb_prop in Hc as [H1%Qgt_b_lt H2%Qgt_b_lt].
    destruct (IH (S i) (Z.of_nat i) (OcrFindChat.score tn x))
      as [[-> Hall]|(k & l & -> & Hl & Hb & H7 & Hbest)].
    + right. exists 0%nat, x. rewrite Nat.add_0_r.
      do 4 (split; [done|]).
      intros [|j] l' Hj; simpl in Hj.
      * injection Hj as <-. split; [apply Qle_refl|lia].
      * split; [|lia]. rewrite Forall_lookup in Hall.
        destruct (Hall _ _ Hj) as [?|?]; [done|].
        apply Qlt_le_weak. by eapply Qle_lt_trans.
    + right. exists (S k), l. split; [f_equal; lia|]. split; [done|].
      split; [by eapply Qlt_trans|]. split; [done|].
      intros [|j] l' Hj; simpl in Hj.
      * injection Hj as <-. split; [by apply Qlt_le_weak|done].
      * destruct (Hbest _ _ Hj) as [? Hlt]. split; [done|].
        intros ?. apply Hlt. lia.
  - assert (Hx : (OcrFindChat.score tn x <= bs)%Q
                 \/ (OcrFindChat.score tn x <= 7 # 10)%Q).
    { apply andb_false_iff in Hc as [Hc|Hc]; apply Qgt_b_le in Hc; eauto. }
    destruct (IH (S i) b bs)
      as [[-> Hall]|(k & l & -> & Hl & Hb & H7 & Hbest)].
    + left. split; [done|]. by constructor.
    + right. exists (S k), l. split; [f_equal; lia|].
      do 3 (split; [done|]).
      intros [|j] l' Hj; simpl in Hj.
      * injection Hj as <-.
        assert (OcrFindChat.score tn x < OcrFindChat.score tn l)%Q
          by (destruct Hx; by eapply Qle_lt_trans).
        split; [by apply Qlt_le_weak|done].
      * destruct (Hbest _ _ Hj) as [? Hlt]. split; [done|].
        intros ?. apply Hlt. lia.
Qed.

(** X17.  The matcher returns -1 exactly when no line passes any of its three
    tests; otherwise it returns the index of a line of the list that
    passes one of them. *)
Theorem find_chat_result (lines : list ustr) (target_name : ustr) :
  let tn := OcrFindChat.normalize_text target_name in
  (OcrFindChat.find_chat lines target_name = (-1)%Z
   /\ Forall (fun l => accepts tn l = false) lines)
  \/ exists (k : nat) l,
       OcrFindChat.find_chat lines target_name = Z.of_nat k
       /\ lines !! k = Some l /\ accepts tn l = true.
Proof.
  intros tn. unfold OcrFindChat.find_chat.
  destruct lines as [|x ls]; [left; by split|].
  generalize (x :: ls). clear x ls. intros lines. cbv zeta. fold tn.
  pose proof (strategy1_spec tn lines 0) as H1.
  destruct (OcrFindChat.strategy1 tn 0 lines) as [r|].
  { destruct H1 as (k & l & -> & Hl & Hh). right. exists k, l.
    unfold accepts. by rewrite Hh. }
  pose proof (strategy2_spec tn lines 0) as H2.
  destruct (OcrFindChat.strategy2 tn 0 lines) as [r|].
  { destruct H2 as (k & l & -> & Hl & Hh). right. exists k, l.
    unfold accepts. rewrite Hh. by rewrite orb_true_r. }
  destruct (strategy3_best tn lines 0 (-1)%Z 0%Q)
    as [[-> H3]|(k & l & -> & Hl & _ & H7 & _)].
  - left. split; [done|]. apply Forall_lookup. intros j l Hj.
    rewrite Forall_lookup in H1, H2, H3. unfold accepts.
    rewrite (H1 _ _ Hj), (H2 _ _ Hj). simpl. apply Qgt_b_le.
    destruct (H3 _ _ Hj) as [H0|?]; [|done].
    eapply Qle_trans; [exact H0|done].
  - right. exists k, l. simpl (0 + k)%nat.
    destruct (Z.leb_spec 0 (Z.of_nat k)); [|lia].
    do 2 (split; [done|]). unfold accepts.
    apply Qgt_b_lt in H7. unfold fuzzy_hit. rewrite H7.
    by rewrite orb_true_r.
Qed.

(** X18.  The exact-match tier comes first: the matcher returns the index of the
    first line whose normalization equals the target's, whatever the other
    lines are. *)
Theorem find_chat_exact_first (lines : list ustr) (target_name : ustr)
    (k : nat) (l : ustr) :
  lines !! k = Some l ->
  OcrFindChat.normalize_text l = OcrFindChat.normalize_text target_name ->
  Forall (fun l' => OcrFindChat.normalize_text l'
                    <> OcrFindChat.normalize_text target_name)
         (take k lines) ->
  OcrFindChat.find_chat lines target_name = Z.of_nat k.
Proof.
  intros Hl Heq Hno. unfold OcrFindChat.find_chat.
  destruct lines as [|x ls]; [done|].
  revert Hl Hno. generalize (x :: ls). clear x ls. intros lines Hl Hno.
  cbv zeta.
  rewrite (strategy1_first _ lines 0 k l Hl); [done| |].
  - unfold exact_hit. by apply bool_decide_eq_true.
  - eapply Forall_impl; [exact Hno|]. intros l' Hne.
    unfold exact_hit. by apply bool_decide_eq_false.
Qed.

(** X19.  When no line passes the exact or the containment test, the line the
    matcher returns has a character-overlap score above 0.7 that is the
    best of the list, and strictly better than that of every earlier
    line: among equal best scores the first line wins. *)
Theorem find_chat_best_score (lines : list ustr) (target_name : ustr)
    (k j : nat) (l l' : ustr) :
  let tn := OcrFindChat.normalize_text target_name in
  Forall (fun x => exact_hit tn x = false) lines ->
  Forall (fun x => close_hit tn x = false) lines ->
  OcrFindChat.find_chat lines target_name = Z.of_nat k ->
  lines !! k = Some l ->
  lines !! j = Some l' ->
  (7 # 10 < OcrFindChat.score tn l)%Q
  /\ (OcrFindChat.score tn l' <= OcrFindChat.score tn l)%Q
  /\ ((j < k)%nat -> (OcrFindChat.score tn l' < OcrFindChat.score tn l)%Q).
Proof.
  intros tn Hno1 Hno2. unfold OcrFindChat.find_chat.
  destruct lines as [|x ls]; [done|].
  revert Hno1 Hno2. generalize (x :: ls). clear x ls.
  intros lines Hno1 Hno2. cbv zeta. fold tn.
  pose proof (strategy1_spec tn lines 0) as H1.
  destruct (OcrFindChat.strategy1 tn 0 lines) as [r|].
  { destruct H1 as (k1 & l1 & _ & Hl1 & Hh). rewrite Forall_lookup in Hno1.
    rewrite (Hno1 _ _ Hl1) in Hh. done. }
  pose proof (strategy2_spec tn lines 0) as H2.
  destruct (OcrFindChat.strategy2 tn 0 lines) as [r|].
  { destruct H2 as (k1 & l1 & _ & Hl1 & Hh). rewrite Forall_lookup in Hno2.
    rewrite (Hno2 _ _ Hl1) in Hh. done. }
  destruct (strategy3_best tn lines 0 (-1)%Z 0%Q)
    as [[-> H3]|(k3 & l3 & -> & Hl3 & _ & H7 & Hbest)].
  - simpl. lia.
  - simpl (0 + k3)%nat. destruct (Z.leb_spec 0 (Z.of_nat k3)); [|lia].
    intros ->%Nat2Z.inj Hl Hj. rewrite Hl3 in Hl. injection Hl as <-.
    split; [done|]. by apply Hbest.
Qed.

End MatcherResult.

Lemma find_chat_exact_first_witness :
  OcrFindChat.find_chat smeta_results (U "Смета") = Z.of_nat 1.
Proof.
  apply (find_chat_exact_first smeta_results (U "Смета") 1 (U "  СМЕТА ")).
  - reflexivity.
  - by vm_compute.
  - repeat constructor. by vm_compute.
Defined.

Lemma find_chat_best_score_witness :
  (7 # 10 < OcrFindChat.score (OcrFindChat.normalize_text (U "смета"))
                              (U "Мария Смета"))%Q
  /\ (OcrFindChat.score (OcrFindChat.normalize_text (U "смета"))
                        (U "Иван Петров")
      <= OcrFindChat.score (OcrFindChat.normalize_text (U "смета"))
                           (U "Мария Смета"))%Q
  /\ ((0 < 1)%nat ->
      (OcrFindChat.score (OcrFindChat.normalize_text (U "смета"))
                         (U "Иван Петров")
       < OcrFindChat.score (OcrFindChat.normalize_text (U "смета"))
                           (U "Мария Смета"))%Q).
Proof.
  apply (find_chat_best_score search_results (U "смета") 1 0
           (U "Мария Смета") (U "Иван Петров")).
  - repeat constructor; by vm_compute.
  - repeat constructor; by vm_compute.
  - by vm_compute.
  - reflexivity.
  - reflexivity.
Defined.

Section ScoreAndLines.
Context `{CaseOps}.

Lemma Zpos_of_nat (n : nat) :
  n <> 0%nat -> Z.pos (Pos.of_nat n) = Z.of_nat n.
Proof. intros Hn. by rewrite <- positive_nat_Z, Nat2Pos.id. Qed.

(** X20.  The overlap score lies between 0 and 1, and it is 1 exactly when the
    target has a character other than the space and every such character
    occurs in the normalized line. *)
Theorem score_range (target_norm line : ustr) :
  let target_chars := OcrFindChat.char_set target_norm in
  let line_chars :=
    OcrFindChat.char_set (OcrFindChat.normalize_text line) in
  (0 <= OcrFindChat.score target_norm line)%Q
  /\ (OcrFindChat.score target_norm line <= 1)%Q
  /\ ((OcrFindChat.score target_norm line == 1)%Q
      <-> target_chars <> ∅ /\ target_chars ⊆ line_chars).
Proof.
  intros A B. unfold OcrFindChat.score. cbv zeta. fold A B.
  assert (Hca : (size (A ∩ B) <= size A)%nat)
    by (apply subseteq_size, intersection_subseteq_l).
  assert (Hp : Z.pos (Pos.of_nat (Nat.max (size A) 1))
               = Z.of_nat (Nat.max (size A) 1))
    by (apply Zpos_of_nat; lia).
  unfold Qle, Qeq. cbn [Qnum Qden]. rewrite Hp.
  split; [lia|]. split; [lia|]. split.
  - intros He. assert (Hs : size (A ∩ B) = size A /\ size A <> 0%nat) by lia.
    destruct Hs as [Hs Hn]. split.
    + intros HE. apply Hn. rewrite HE. apply size_empty.
    + assert (HA : A ∩ B ≡ A)
        by (apply set_subseteq_size_equiv;
            [apply intersection_subseteq_l|lia]).
      intros x Hx. apply HA in Hx. by apply elem_of_intersection in Hx as [_ ?].
  - intros [Hne Hsub].
    assert (HA : A ∩ B = A) by (by apply subseteq_intersection_1_L).
    rewrite HA.
    assert (size A <> 0%nat); [|lia].
    apply size_non_empty_iff. intros HE. apply Hne. by apply leibniz_equiv.
Qed.

Lemma split_lines_no_newline (s : ustr) :
  forall cur : ustr,
    10 ∉ cur -> Forall (fun l => 10 ∉ l) (OcrFindChat.split_lines cur s).
Proof.
  induction s as [|c r IH]; intros cur Hcur; simpl.
  - by repeat constructor.
  - destruct (N.eqb_spec c 10) as [->|Hc].
    + constructor; [done|]. apply IH. by apply not_elem_of_nil.
    + apply IH. rewrite elem_of_app, list_elem_of_singleton.
      intros [?|?]; [done|]. by apply Hc.
Qed.

(** X21.  The lines handed to the matcher: each has at least two characters,
    begins and ends with a character that is not white space, and holds no
    line feed. *)
Theorem ocr_lines_clean (ocr_text : ustr) :
  Forall (fun line => (1 < length line)%nat /\ strip line = line
                      /\ 10 ∉ line)
         (OcrFindChat.ocr_lines ocr_text).
Proof.
  apply Forall_forall. intros line. unfold OcrFindChat.ocr_lines.
  intros [Hlen (raw & -> & Hraw)%list_elem_of_fmap]%list_elem_of_filter.
  split; [done|]. split; [apply strip_idem|].
  intros Hin%strip_elem.
  pose proof (split_lines_no_newline ocr_text []) as Hall.
  rewrite Forall_forall in Hall. eapply Hall; [|exact Hraw|exact Hin].
  by apply not_elem_of_nil.
Qed.

End ScoreAndLines.

(** ** agent.py, voice mode: the keyword and the command after it *)

Section VoiceModeFacts.
Context `{CaseOps}.

Lemma is_prefix_elem (k t : ustr) (c : N) :
  is_prefix k t = true -> c ∈ k -> c ∈ t.
Proof.
  revert t. induction k as [|x k IH]; intros t; [by intros _ ?%elem_of_nil|].
  destruct t as [|y t]; simpl; [done|].
  intros [->%N.eqb_eq Hp]%andb_prop [->|Hc]%elem_of_cons; [by constructor|].
  constructor. by apply IH.
Qed.

Lemma contains_elem (k t : ustr) (c : N) :
  contains k t = true -> c ∈ k -> c ∈ t.
Proof.
  induction t as [|y t IH]; simpl.
  - rewrite orb_false_r. apply is_prefix_elem.
  - intros [Hp|Hc]%orb_prop Hk; [by eapply is_prefix_elem|].
    constructor. by apply IH.
Qed.

(** X22.  In voice mode only the keywords "saydo" and "say do" can be
    found.  The fifteen others are stored re-encoded, and each of them
    then holds a capital letter (U+00C5, U+00C7 or U+00C9, the Mac Roman
    readings of the bytes 81, 82 and 83), while the text they are looked
    up in has been put in lower case: whatever is said, in whatever
    spelling, none of them is in it. *)
Theorem only_ascii_keywords_found (text keyword : ustr) :
  (forall s, Forall lower_fixed (str_lower s)) ->
  ~ lower_fixed 197 -> ~ lower_fixed 199 -> ~ lower_fixed 201 ->
  VoiceMode.first_keyword VoiceMode.keywords (str_lower text) = Some keyword ->
  keyword = U "saydo" \/ keyword = U "say do".
Proof.
  intros Hlow H197 H199 H201.
  assert (Hdead : forall (k : ustr) (c : N),
             contains k (str_lower text) = true ->
             ~ lower_fixed c -> c ∈ k -> False).
  { intros k c Hk Hc Hin. apply Hc.
    pose proof (Hlow text) as Hl. rewrite Forall_forall in Hl.
    apply Hl. by eapply contains_elem. }
  unfold VoiceMode.keywords. cbn [VoiceMode.first_keyword].
  repeat match goal with
    | |- context [contains ?k (str_lower text)] =>
        let Hk := fresh "Hk" in
        destruct (contains k (str_lower text)) eqn:Hk;
        [first [ intros [= <-]; by left
               | intros [= <-]; by right
               | exfalso; apply (Hdead k 197 Hk H197);
                 apply (bool_decide_unpack _); by vm_compute
               | exfalso; apply (Hdead k 199 Hk H199);
                 apply (bool_decide_unpack _); by vm_compute
               | exfalso; apply (Hdead k 201 Hk H201);
                 apply (bool_decide_unpack _); by vm_compute ]|]
    end.
  done.
Qed.

Lemma rstrip_split (s : ustr) :
  exists z, s = rstrip s ++ z /\ forallb is_space z = true.
Proof.
  induction s as [|c r (z & Hz & Hs)]; [by exists []|]. simpl.
  destruct (rstrip r) as [|c' r'] eqn:Hr.
  - destruct (is_space c) eqn:Hc.
    + exists (c :: r). split; [done|]. simpl. rewrite Hc.
      simpl in Hz. by rewrite Hz.
    + exists z. simpl in Hz. split; [simpl; by rewrite <- Hz|done].
  - exists z. split; [|done]. simpl. by f_equal.
Qed.

Lemma lstrip_split (s : ustr) : exists z, s = z ++ lstrip s.
Proof.
  induction s as [|c r (z & Hz)]; [by exists []|]. simpl.
  destruct (is_space c); [|by exists []].
  exists (c :: z). simpl. by rewrite <- Hz.
Qed.

Lemma lstrip_chars_split (chars s : ustr) :
  exists z, s = z ++ VoiceMode.lstrip_chars chars s.
Proof.
  induction s as [|c r (z & Hz)]; [by exists []|]. simpl.
  destruct (bool_decide (c ∈ chars)); [|by exists []].
  exists (c :: z). simpl. by rewrite <- Hz.
Qed.

Lemma lstrip_chars_head (chars s : ustr) (c : N) :
  head (VoiceMode.lstrip_chars chars s) = Some c -> c ∉ chars.
Proof.
  induction s as [|x r IH]; simpl; [done|].
  destruct (bool_decide (x ∈ chars)) eqn:Hx; [done|].
  apply bool_decide_eq_false in Hx. simpl. by intros [= <-].
Qed.

Lemma rstrip_suffix (a b : ustr) :
  rstrip (a ++ b) = a ++ b -> b <> [] -> rstrip b = b.
Proof.
  intros Hr Hb. induction a as [|c a IH]; [done|]. apply IH.
  simpl in Hr. destruct (rstrip (a ++ b)) as [|c' r'] eqn:Hab.
  - destruct (is_space c); [done|]. injection Hr as Hr.
    by destruct a, b.
  - by injection Hr.
Qed.

(** X23.  The command cut out of the recognised text is not empty, does not
    begin with a space or one of the marks [,.?!;:], has no white space at
    its end, and is a piece of the text followed by white space only. *)
Theorem command_after_keyword_shape (text command : ustr) :
  VoiceMode.command_after_keyword text = Some command ->
  command <> []
  /\ (forall c, head command = Some c -> c ∉ U " ,.?!;:")
  /\ rstrip command = command
  /\ exists before after,
       text = before ++ command ++ after
       /\ forallb is_space after = true.
Proof.
  unfold VoiceMode.command_after_keyword. cbv zeta.
  destruct (VoiceMode.first_keyword _ _) as [keyword|]; [|done].
  generalize (VoiceMode.str_find keyword (str_lower text)
              + Z.of_nat (length keyword))%Z.
  intros start.
  destruct (VoiceMode.lstrip_chars _ _) as [|c cmd] eqn:Hcmd; [done|].
  intros [= <-]. rewrite <- Hcmd. split; [by rewrite Hcmd|].
  split; [intros x; apply lstrip_chars_head|].
  destruct (lstrip_chars_split (U " ,.?!;:")
              (strip (VoiceMode.slice_from start text))) as (z4 & H4).
  split.
  - apply (rstrip_suffix z4); [|by rewrite Hcmd].
    rewrite <- H4. apply rstrip_strip.
  - assert (exists z1, text = z1 ++ VoiceMode.slice_from start text)
      as (z1 & H1).
    { unfold VoiceMode.slice_from. destruct (start <? 0)%Z;
        eexists; symmetry; apply take_drop. }
    destruct (lstrip_split (VoiceMode.slice_from start text)) as (z2 & H2).
    destruct (rstrip_split (lstrip (VoiceMode.slice_from start text)))
      as (z3 & H3 & Hs3).
    fold (strip (VoiceMode.slice_from start text)) in H3.
    exists (z1 ++ z2 ++ z4), z3. split; [|done].
    rewrite H1 at 1. rewrite H2 at 1. rewrite H3 at 1. rewrite H4 at 1.
    by rewrite <- !app_assoc.
Qed.

End VoiceModeFacts.

(** The text says "агент" in the stored spelling and then "Say do". *)
Lemma only_ascii_keywords_found_witness :
  U "say do" = U "saydo" \/ U "say do" = U "say do".
Proof.
  apply (only_ascii_keywords_found
           (U "–∞–≥–µ–Ω—Ç, Say do, –æ—Ç–∫—Ä–æ–π —á–∞—Ç")).
  - apply (@lower_out _ cyrillic_laws).
  - by intros [=].
  - by intros [=].
  - by intros [=].
  - by vm_compute.
Defined.

(** A text that says only "агент" has no keyword, in Cyrillic and in the
    stored spelling alike. *)
Example agent_keyword_not_found :
  VoiceMode.command_after_keyword (U "Агент, открой чат Максим") = None
  /\ VoiceMode.command_after_keyword (U "–∞–≥–µ–Ω—Ç, –æ—Ç–∫—Ä–æ–π —á–∞—Ç") = None.
Proof. split; by vm_compute. Qed.

Lemma command_after_keyword_shape_witness :
  U "открой чат Максим" <> []
  /\ (forall c, head (U "открой чат Максим") = Some c -> c ∉ U " ,.?!;:")
  /\ rstrip (U "открой чат Максим") = U "открой чат Максим"
  /\ exists before after,
       U "Так, Saydo, открой чат Максим  "
       = before ++ U "открой чат Максим" ++ after
       /\ forallb is_space after = true.
Proof.
  apply command_after_keyword_shape. by vm_compute.
Defined.

(** X24.  The modular executor sends nothing and reports failure when the
    command's driver is not configured, is disabled or is not the Telegram
    driver, and when the intent is not one of the three of the action
    table: the typing intents of agent.py's parser, [type_to_chat] and
    [open_and_type], are among those it refuses. *)
Theorem executor_refuses `{CaseOps}
    (daemon : list jval -> jval -> post_result) (env_hammer_url : ustr)
    (drivers : gmap string driver_config) (pc : ParsedCommand)
    (alias_map : gmap ustr ustr) (result_index_map : gmap ustr (option Z))
    (dw : bool) (tr : list jval) :
  drivers !! driver pc = None
  \/ (exists cfg, drivers !! driver pc = Some cfg /\ cfg_enabled cfg = false)
  \/ driver pc <> "telegram"%string
  \/ intent pc ∉ ["open_chat_only"; "send_message"; "paste_to_chat"]%string ->
  Executor.execute daemon env_hammer_url drivers pc alias_map
                   result_index_map dw tr = (Ok false, tr).
Proof.
  intros Hc. unfold Executor.execute, Executor.get_driver.
  destruct (drivers !! driver pc) as [cfg|] eqn:Hd; [|done].
  destruct (cfg_enabled cfg) eqn:He; simpl; [|done].
  destruct (String.eqb_spec (driver pc) "telegram") as [Ht|Ht]; [|done].
  destruct Hc as [?|[(cfg' & ? & ?)|[?|Hi]]]; [done|congruence|done|].
  match goal with
  | |- context [match ?x with Some _ => _ | None => io_ret false end] =>
      destruct x as [[canonical ri]|]
  end; [|done].
  unfold Executor.action_registry, Executor.telegram_actions.
  destruct (String.eqb (driver pc) "telegram"); [|done].
  repeat match goal with
    | |- context [String.eqb (intent pc) ?k] =>
        let Hk := fresh "Hk" in
        destruct (String.eqb_spec (intent pc) k) as [Hk|Hk];
        [exfalso; apply Hi; rewrite Hk; set_solver|]
    end.
  done.
Qed.

Lemma executor_refuses_witness :
  Executor.execute healthy_daemon local_url telegram_only
    {| intent := "type_to_chat"; target := Some (U "Максим");
       message := Some (U "привет"); driver := "telegram" |}
    (ChatResolver.build_alias_map [maksim]).1
    (ChatResolver.build_alias_map [maksim]).2 false []
  = (Ok false, []).
Proof.
  apply executor_refuses. right. right. right.
  apply (bool_decide_unpack _). by vm_compute.
Defined.
